(** * A character-level HMM spell corrector: model and verified properties

  Shallow embedding of [spell_corrector.py] (class [SpellCheckerHMM]):
  the counting pass of [train], [_finalize_probabilities], the three
  log-probability lookups, the Viterbi search of [decode_word],
  [decode_text] and the two distribution inspectors; and of the
  function [load_training_pairs], on the lines of the file it reads.

  Modelling conventions.
  - A Python [str] is a [string] whose characters are the code points
    below U+0100 (ASCII and the Latin-1 supplement), one [ascii] value
    per code point; a character obtained by iterating or indexing a
    [str] is the one-character [string] Python produces.  On this range
    [lower], [strip], [split], [isupper] and [isascii] are Python's,
    and so are [upper] and [capitalize], which map the sharp s to two
    characters, except on the two characters whose uppercase lies
    outside the range (the micro sign U+00B5 and U+00FF), which the
    model leaves unchanged.  The properties that depend on how case
    mapping changes a string are stated for ASCII words and alphabets.
  - A [dict] / [Counter] / [defaultdict] is an insertion-ordered
    association list, because [.items()] order is observable through
    the stable sort of the inspectors.  Reading a [defaultdict] with
    [d[k]] inserts a default row, and the model does the same.
  - The [set] of states is a [gset string].
  - Python integers are [Z].
  - Floats are kept abstract ([LogArith]): a carrier with [-inf], the
    composite [math.log(count / total)], [+] and [<].  The properties
    that need facts about floats take them as explicit hypotheses; an
    exact instance (logarithms represented by their rational argument)
    is given for evaluation, and one over pairs of positive integers
    on which all the laws assumed of the float order hold. *)

From Stdlib Require Import ZArith QArith Ascii String List Bool Lia.
From stdpp Require Import base gmap strings list sorting.

Local Open Scope Z_scope.

(** ** Python [str] methods, on the code points below U+0100 *)

Module PyStr.

(** [c.isupper()] on one character: A-Z, and U+00C0-U+00DE but the
    multiplication sign U+00D7. *)
Definition is_upper_char (c : ascii) : bool :=
  let n := N_of_ascii c in
  (((65 <=? n) && (n <=? 90))
   || ((192 <=? n) && (n <=? 222) && negb (n =? 215)))%N.

(** [c.islower()] on one character: a-z, U+00DF-U+00FF but the division
    sign U+00F7, and the three lowercase symbols U+00AA, U+00B5 and
    U+00BA. *)
Definition is_lower_char (c : ascii) : bool :=
  let n := N_of_ascii c in
  (((97 <=? n) && (n <=? 122))
   || ((223 <=? n) && (n <=? 255) && negb (n =? 247))
   || (n =? 170) || (n =? 181) || (n =? 186))%N.

Definition is_cased_char (c : ascii) : bool :=
  is_upper_char c || is_lower_char c.

(** [str.isspace] on one character: TAB, LF, VT, FF, CR, the four
    separators FS, GS, RS, US, the space, NEL (U+0085) and the
    no-break space (U+00A0). *)
Definition is_space_char (c : ascii) : bool :=
  let n := N_of_ascii c in
  (((9 <=? n) && (n <=? 13)) || ((28 <=? n) && (n <=? 32))
   || (n =? 133) || (n =? 160))%N.

(** [c.isascii()] *)
Definition is_ascii_char (c : ascii) : bool := (N_of_ascii c <? 128)%N.

(** [s.isascii()] *)
Fixpoint isascii (s : string) : bool :=
  match s with
  | EmptyString => true
  | String c r => is_ascii_char c && isascii r
  end.

(** The lowercase of one character; always one character. *)
Definition lower_char (c : ascii) : ascii :=
  if is_upper_char c then ascii_of_N (N_of_ascii c + 32) else c.

(** The uppercase of one character where it is one character of the
    range: a-z, and U+00E0-U+00FE but the division sign. *)
Definition upper_char (c : ascii) : ascii :=
  let n := N_of_ascii c in
  if (((97 <=? n) && (n <=? 122))
      || ((224 <=? n) && (n <=? 254) && negb (n =? 247)))%N
  then ascii_of_N (n - 32) else c.

(** The sharp s, U+00DF: its uppercase is the two characters [SS] and
    its titlecase the two characters [Ss]. *)
Definition SHARP_S : ascii := ascii_of_N 223.

(** [s.lower()] *)
Fixpoint lower (s : string) : string :=
  match s with
  | EmptyString => EmptyString
  | String c r => String (lower_char c) (lower r)
  end.

(** [s.upper()] *)
Fixpoint upper (s : string) : string :=
  match s with
  | EmptyString => EmptyString
  | String c r =>
      if Ascii.eqb c SHARP_S then String "S" (String "S" (upper r))
      else String (upper_char c) (upper r)
  end.

Fixpoint has_cased (s : string) : bool :=
  match s with
  | EmptyString => false
  | String c r => is_cased_char c || has_cased r
  end.

Fixpoint has_lower (s : string) : bool :=
  match s with
  | EmptyString => false
  | String c r => is_lower_char c || has_lower r
  end.

(** [s.isupper()]: at least one cased character and no lowercase one. *)
Definition isupper (s : string) : bool :=
  has_cased s && negb (has_lower s).

(** [s.capitalize()]: first character titlecased, the rest lowercased. *)
Definition capitalize (s : string) : string :=
  match s with
  | EmptyString => EmptyString
  | String c r =>
      if Ascii.eqb c SHARP_S then String "S" (String "s" (lower r))
      else String (upper_char c) (lower r)
  end.

Fixpoint lstrip (s : string) : string :=
  match s with
  | EmptyString => EmptyString
  | String c r => if is_space_char c then lstrip r else s
  end.

Fixpoint rstrip (s : string) : string :=
  match s with
  | EmptyString => EmptyString
  | String c r =>
      match rstrip r with
      | EmptyString => if is_space_char c then EmptyString else String c EmptyString
      | r' => String c r'
      end
  end.

(** [s.strip()] *)
Definition strip (s : string) : string := rstrip (lstrip s).

(** [s.split()], splitting on runs of blanks; [cur] is the token being
    read. *)
Fixpoint split_go (cur : string) (s : string) : list string :=
  match s with
  | EmptyString => match cur with EmptyString => [] | _ => [cur] end
  | String c r =>
      if is_space_char c
      then match cur with
           | EmptyString => split_go EmptyString r
           | _ => cur :: split_go EmptyString r
           end
      else split_go (cur +:+ String c EmptyString) r
  end.

Definition split (s : string) : list string := split_go EmptyString s.

(** [list(s)]: the characters of [s], each a one-character [str]. *)
Fixpoint chars (s : string) : list string :=
  match s with
  | EmptyString => []
  | String c r => String c EmptyString :: chars r
  end.

(** [sep.join(l)] *)
Definition join (sep : string) (l : list string) : string :=
  String.concat sep l.

(** truthiness of a [str]: [not s] is [negb (nonempty s)] *)
Definition nonempty (s : string) : bool :=
  match s with EmptyString => false | _ => true end.

End PyStr.

(** ** Insertion-ordered dictionaries *)

Module Dict.

Definition dict (V : Type) : Type := list (string * V).

(** [d.get(k)] *)
Fixpoint get {V} (d : dict V) (k : string) : option V :=
  match d with
  | [] => None
  | (k', v) :: r => if decide (k' = k) then Some v else get r k
  end.

(** [d[k] = v]: overwrite in place, or append a new key at the end. *)
Fixpoint set {V} (d : dict V) (k : string) (v : V) : dict V :=
  match d with
  | [] => [(k, v)]
  | (k', v') :: r =>
      if decide (k' = k) then (k', v) :: r else (k', v') :: set r k v
  end.

(** [k in d] *)
Definition mem {V} (d : dict V) (k : string) : bool :=
  match get d k with Some _ => true | None => false end.

(** [d.get(k, dflt)] *)
Definition get_or {V} (d : dict V) (k : string) (dflt : V) : V :=
  match get d k with Some v => v | None => dflt end.

(** [c[k] += 1] on a [Counter]: a missing key reads as 0. *)
Definition incr (c : dict Z) (k : string) : dict Z :=
  set c k (get_or c k 0 + 1).

(** [d[k]] on a [defaultdict] whose factory yields [dflt]: returns the
    row and the dictionary, which gains the key when it was missing. *)
Definition getitem_default {V} (dflt : V) (d : dict V) (k : string)
  : V * dict V :=
  match get d k with
  | Some v => (v, d)
  | None => (dflt, set d k dflt)
  end.

(** [d[a][b] += 1] on a [defaultdict(Counter)] *)
Definition incr2 (d : dict (dict Z)) (a b : string) : dict (dict Z) :=
  let '(row, d') := getitem_default [] d a in
  set d' a (incr row b).

(** [d[a][b] = v] on a [defaultdict(dict)] *)
Definition set2 {V} (d : dict (dict V)) (a b : string) (v : V)
  : dict (dict V) :=
  let '(row, d') := getitem_default [] d a in
  set d' a (set row b v).

End Dict.

Import Dict.

(** ** Log-probability arithmetic

  The float operations the program uses.  [flog count total] is
  [math.log(count / total)] for two integers; [flt a b] is [a < b], and
  the program's [a > b] is [flt b a]. *)

Class LogArith : Type := {
F : Type;
ninf : F;
flog : Z → Z → F;
fadd : F → F → F;
flt : F → F → bool;
}.

(** [prob > 0] for [prob = count / total], both integers nonzero. *)
Definition ratio_positive (count total : Z) : bool :=
((0 <? count) && (0 <? total)) || ((count <? 0) && (total <? 0)).

Definition END_STATE : string := "<END>".

Definition NEWLINE : string := String (ascii_of_nat 10) EmptyString.

(** [sorted(s)] for a set of strings. *)
Definition sorted_set (s : gset string) : list string :=
merge_sort String.le (elements s).

Section HMM.

Context {LA : LogArith}.

(** ** The model: the attributes of [SpellCheckerHMM] *)

Record SpellCheckerHMM : Type := mkHMM {
  states : list string;
  state_set : gset string;
  start_counts : dict Z;
  start_total : Z;
  transition_counts : dict (dict Z);
  transition_totals : dict Z;
  emission_counts : dict (dict Z);
  emission_totals : dict Z;
  start_log_probs : dict F;
  transition_log_probs : dict (dict F);
  emission_log_probs : dict (dict F);
}.

(** [__init__] *)
Definition init : SpellCheckerHMM :=
  mkHMM [] ∅ [] 0 [] [] [] [] [] [] [].

Definition with_state_set (m : SpellCheckerHMM) (s : gset string) :=
  mkHMM (states m) s (start_counts m) (start_total m)
    (transition_counts m) (transition_totals m)
    (emission_counts m) (emission_totals m)
    (start_log_probs m) (transition_log_probs m) (emission_log_probs m).

Definition with_states (m : SpellCheckerHMM) (l : list string) :=
  mkHMM l (state_set m) (start_counts m) (start_total m)
    (transition_counts m) (transition_totals m)
    (emission_counts m) (emission_totals m)
    (start_log_probs m) (transition_log_probs m) (emission_log_probs m).

Definition with_transition_counts (m : SpellCheckerHMM) (tc : dict (dict Z)) :=
  mkHMM (states m) (state_set m) (start_counts m) (start_total m)
    tc (transition_totals m)
    (emission_counts m) (emission_totals m)
    (start_log_probs m) (transition_log_probs m) (emission_log_probs m).

Definition with_emission_counts (m : SpellCheckerHMM) (ec : dict (dict Z)) :=
  mkHMM (states m) (state_set m) (start_counts m) (start_total m)
    (transition_counts m) (transition_totals m)
    ec (emission_totals m)
    (start_log_probs m) (transition_log_probs m) (emission_log_probs m).

(** ** [train]: the counting pass *)

(** [self.start_counts[s] += 1; self.start_total += 1] *)
Definition add_start (m : SpellCheckerHMM) (s : string) :=
  mkHMM (states m) (state_set m)
    (incr (start_counts m) s) (start_total m + 1)
    (transition_counts m) (transition_totals m)
    (emission_counts m) (emission_totals m)
    (start_log_probs m) (transition_log_probs m) (emission_log_probs m).

(** [self.transition_counts[curr][nxt] += 1;
     self.transition_totals[curr] += 1] *)
Definition add_transition (m : SpellCheckerHMM) (curr nxt : string) :=
  mkHMM (states m) (state_set m) (start_counts m) (start_total m)
    (incr2 (transition_counts m) curr nxt) (incr (transition_totals m) curr)
    (emission_counts m) (emission_totals m)
    (start_log_probs m) (transition_log_probs m) (emission_log_probs m).

(** [self.emission_counts[state_char][typed_char] += 1;
     self.emission_totals[state_char] += 1] *)
Definition add_emission (m : SpellCheckerHMM) (state_char typed_char : string) :=
  mkHMM (states m) (state_set m) (start_counts m) (start_total m)
    (transition_counts m) (transition_totals m)
    (incr2 (emission_counts m) state_char typed_char)
    (incr (emission_totals m) state_char)
    (start_log_probs m) (transition_log_probs m) (emission_log_probs m).

(** [for idx in range(len(letters) - 1)]: one transition per adjacent
    pair [letters[idx], letters[idx + 1]]. *)
Fixpoint count_transitions (m : SpellCheckerHMM) (letters : list string)
  : SpellCheckerHMM :=
  match letters with
  | curr :: ((nxt :: _) as rest) =>
      count_transitions (add_transition m curr nxt) rest
  | _ => m
  end.

(** [for idx, state_char in enumerate(letters)]: [typed !! idx] is
    [None] exactly when [idx >= len(typed)], the branch that records
    nothing. *)
Fixpoint count_emissions (m : SpellCheckerHMM) (idx : nat)
    (letters typed : list string) : SpellCheckerHMM :=
  match letters with
  | [] => m
  | state_char :: rest =>
      match typed !! idx with
      | None => count_emissions m (S idx) rest typed
      | Some typed_char =>
          count_emissions (add_emission m state_char typed_char)
            (S idx) rest typed
      end
  end.

(** The body of the loop over [pairs]. *)
Definition train_pair (m : SpellCheckerHMM) (pair : string * string)
  : SpellCheckerHMM :=
  let '(correct_raw, typed_raw) := pair in
  let correct := PyStr.lower (PyStr.strip correct_raw) in
  let typed := PyStr.lower (PyStr.strip typed_raw) in
  if negb (PyStr.nonempty correct) || negb (PyStr.nonempty typed) then m
  else
    let m := with_state_set m
               (state_set m ∪ list_to_set (PyStr.chars correct)) in
    let letters := PyStr.chars correct in
    match letters, last letters with
    | first :: _, Some last_state =>
        let m := add_start m first in
        let m := count_transitions m letters in
        let m := add_transition m last_state END_STATE in
        count_emissions m 0 letters (PyStr.chars typed)
    | _, _ => m
    end.

Definition train_loop (m : SpellCheckerHMM) (pairs : list (string * string))
  : SpellCheckerHMM :=
  fold_left train_pair pairs m.

(** ** [_finalize_probabilities] *)

(** The first loop: one start log-probability per state. *)
Definition finalize_start (m : SpellCheckerHMM) : dict F :=
  fold_left
    (fun slp state =>
       let count := get_or (start_counts m) state 0 in
       if (start_total m =? 0) || (count =? 0)
       then set slp state ninf
       else set slp state (flog count (start_total m)))
    (states m) [].

(** [for next_state, count in counts[prev_state].items()] *)
Definition finalize_row (prev_state : string) (total : Z) (row : dict Z)
    (lp : dict (dict F)) : dict (dict F) :=
  fold_left
    (fun lp '(next_state, count) =>
       if count =? 0 then lp
       else set2 lp prev_state next_state (flog count total))
    row lp.

(** The second and the third loop have the same shape, over the
    transition and over the emission tables.  [counts[prev_state]] is a
    [defaultdict] read, so the count table is threaded through. *)
Definition finalize_table (sts : list string) (totals : dict Z)
    (counts : dict (dict Z)) : dict (dict Z) * dict (dict F) :=
  fold_left
    (fun '(counts, lp) prev_state =>
       let total := get_or totals prev_state 0 in
       if total =? 0 then (counts, lp)
       else
         let '(row, counts') := getitem_default [] counts prev_state in
         (counts', finalize_row prev_state total row lp))
    sts (counts, []).

Definition _finalize_probabilities (m : SpellCheckerHMM) : SpellCheckerHMM :=
  match states m with
  | [] =>
      mkHMM (states m) (state_set m) (start_counts m) (start_total m)
        (transition_counts m) (transition_totals m)
        (emission_counts m) (emission_totals m) [] [] []
  | _ =>
      let slp := finalize_start m in
      let '(tc, tlp) :=
        finalize_table (states m) (transition_totals m) (transition_counts m) in
      let '(ec, elp) :=
        finalize_table (states m) (emission_totals m) (emission_counts m) in
      mkHMM (states m) (state_set m) (start_counts m) (start_total m)
        tc (transition_totals m) ec (emission_totals m) slp tlp elp
  end.

(** [train]: the loop, then [discard], [sorted] and finalization. *)
Definition train (m : SpellCheckerHMM) (pairs : list (string * string))
  : SpellCheckerHMM :=
  let m := train_loop m pairs in
  let m := with_state_set m (state_set m ∖ {[ NEWLINE ]}) in
  let m := with_states m (sorted_set (state_set m)) in
  _finalize_probabilities m.

(** ** Log-probability lookups *)

(** A computation on the model that may raise: [None] is an exception
    ([KeyError], [IndexError]). *)
Definition M (A : Type) : Type :=
  SpellCheckerHMM → option (A * SpellCheckerHMM).

Definition ret {A} (a : A) : M A := fun m => Some (a, m).

Definition bind {A B} (c : M A) (k : A → M B) : M B :=
  fun m => match c m with
           | Some (a, m') => k a m'
           | None => None
           end.

Definition gets {A} (f : SpellCheckerHMM → A) : M A :=
  fun m => Some (f m, m).

Definition raise {A} : M A := fun _ => None.

(** lift a lookup that raises when the key or index is missing *)
Definition must {A} (o : option A) : M A :=
  match o with Some a => ret a | None => raise end.

Notation "'do' x ⇐ c ;; k" := (bind c (fun x => k))
  (at level 10, x pattern, c at level 99, k at level 200).

(** [math.log(prob) if prob > 0 else float("-inf")] after the zero
    test on [total] and [count]. *)
Definition log_ratio (count total : Z) : F :=
  if (total =? 0) || (count =? 0) then ninf
  else if ratio_positive count total then flog count total else ninf.

Definition _log_start_prob (m : SpellCheckerHMM) (state : string) : F :=
  match start_log_probs m with
  | _ :: _ => get_or (start_log_probs m) state ninf
  | [] =>
      let total := start_total m in
      let count := get_or (start_counts m) state 0 in
      log_ratio count total
  end.

(** [cached and key in cached], then [cached[key]] *)
Definition cached_lookup (cached : option (dict F)) (key : string)
  : option F :=
  match cached with
  | Some ((_ :: _) as c) => get c key
  | _ => None
  end.

Definition _log_transition_prob (prev_state next_state : string) : M F :=
  fun m =>
    match cached_lookup (get (transition_log_probs m) prev_state) next_state with
    | Some v => Some (v, m)
    | None =>
        let total := get_or (transition_totals m) prev_state 0 in
        let '(row, tc) :=
          getitem_default [] (transition_counts m) prev_state in
        let count := get_or row next_state 0 in
        Some (log_ratio count total, with_transition_counts m tc)
    end.

Definition _log_emission_prob (state observation : string) : M F :=
  fun m =>
    match cached_lookup (get (emission_log_probs m) state) observation with
    | Some v => Some (v, m)
    | None =>
        let '(row, ec) := getitem_default [] (emission_counts m) state in
        let count := get_or row observation 0 in
        let total := get_or (emission_totals m) state 0 in
        Some (log_ratio count total, with_emission_counts m ec)
    end.

(** ** The distribution inspectors *)

(** [sorted(items, key=lambda kv: kv[1], reverse=True)]: a stable sort
    into non-increasing key order: an item goes after exactly the
    later items whose key is strictly greater. *)
Fixpoint insert_desc (x : string * F) (l : list (string * F))
  : list (string * F) :=
  match l with
  | [] => [x]
  | y :: r => if flt (snd x) (snd y) then y :: insert_desc x r
              else x :: y :: r
  end.

Definition sorted_desc (items : list (string * F)) : list (string * F) :=
  foldr insert_desc [] items.

Definition transition_log_distribution (m : SpellCheckerHMM)
    (state : string) : list (string * F) :=
  let items := get_or (transition_log_probs m) state [] in
  sorted_desc items.

Definition emission_log_distribution (m : SpellCheckerHMM)
    (state : string) : list (string * F) :=
  let items := get_or (emission_log_probs m) state [] in
  sorted_desc items.

(** ** [decode_word]: the Viterbi search *)

(** The first loop: [viterbi[0][state]] and [path[state]] for every
    state. *)
Fixpoint init_loop (sts : list string) (first_obs : string)
    (row : dict F) (path : dict (list string))
  : M (dict F * dict (list string)) :=
  match sts with
  | [] => ret (row, path)
  | state :: rest =>
      do s ⇐ gets (fun m => _log_start_prob m state) ;;
      do e ⇐ _log_emission_prob state first_obs ;;
      let score := fadd s e in
      init_loop rest first_obs (set row state score) (set path state [state])
  end.

(** [for prev_state in self.states]: the best predecessor of
    [curr_state]. *)
Fixpoint best_prev_loop (sts : list string) (path : dict (list string))
    (prev_row : dict F) (curr_state : string)
    (best_prev : option string) (best_score : F)
  : M (option string * F) :=
  match sts with
  | [] => ret (best_prev, best_score)
  | prev_state :: rest =>
      if negb (mem path prev_state)
      then best_prev_loop rest path prev_row curr_state best_prev best_score
      else
        match get prev_row prev_state with
        | None =>
            best_prev_loop rest path prev_row curr_state best_prev best_score
        | Some prev_score =>
            do transition_score ⇐ _log_transition_prob prev_state curr_state ;;
            let score := fadd prev_score transition_score in
            if flt best_score score
            then best_prev_loop rest path prev_row curr_state
                   (Some prev_state) score
            else best_prev_loop rest path prev_row curr_state
                   best_prev best_score
        end
  end.

(** [for curr_state in self.states] at one position: fills
    [viterbi[index]] and [new_path]. *)
Fixpoint curr_loop (sts all_states : list string) (obs_char : string)
    (path : dict (list string)) (prev_row : dict F)
    (row : dict F) (new_path : dict (list string))
  : M (dict F * dict (list string)) :=
  match sts with
  | [] => ret (row, new_path)
  | curr_state :: rest =>
      do emission_score ⇐ _log_emission_prob curr_state obs_char ;;
      do (best_prev, best_score) ⇐
        best_prev_loop all_states path prev_row curr_state None ninf ;;
      match best_prev with
      | Some bp =>
          do p ⇐ must (get path bp) ;;
          curr_loop rest all_states obs_char path prev_row
            (set row curr_state (fadd best_score emission_score))
            (set new_path curr_state (p ++ [curr_state]))
      | None =>
          curr_loop rest all_states obs_char path prev_row
            (set row curr_state ninf) new_path
      end
  end.

(** [for index in range(1, length)]: [obs] holds [observed[index:]]. *)
Fixpoint index_loop (index : nat) (obs : list string)
    (viterbi : list (dict F)) (path : dict (list string))
  : M (list (dict F) * dict (list string)) :=
  match obs with
  | [] => ret (viterbi, path)
  | obs_char :: rest =>
      do sts ⇐ gets states ;;
      do prev_row ⇐ must (viterbi !! (index - 1)%nat) ;;
      do row0 ⇐ must (viterbi !! index) ;;
      do (row, new_path) ⇐
        curr_loop sts sts obs_char path prev_row row0 [] ;;
      index_loop (S index) rest (<[index := row]> viterbi) new_path
  end.

(** The termination loop: the best final state. *)
Fixpoint final_loop (sts : list string) (last_row : dict F)
    (final_state : option string) (final_score : F) : M (option string) :=
  match sts with
  | [] => ret final_state
  | state :: rest =>
      match get last_row state with
      | None => final_loop rest last_row final_state final_score
      | Some state_score =>
          do t ⇐ _log_transition_prob state END_STATE ;;
          let total_score := fadd state_score t in
          if flt final_score total_score
          then final_loop rest last_row (Some state) total_score
          else final_loop rest last_row final_state final_score
      end
  end.

(** The forward pass of [decode_word]: the table [viterbi] and the
    surviving [path]s after the last position. *)
Definition viterbi_forward (sts : list string) (observed : string)
  : M (list (dict F) * dict (list string)) :=
  let length := String.length observed in
  let viterbi : list (dict F) := replicate length [] in
  let path : dict (list string) := [] in
  do first_obs ⇐ must (PyStr.chars observed !! 0%nat) ;;
  do row0 ⇐ must (viterbi !! 0%nat) ;;
  do (row, path) ⇐ init_loop sts first_obs row0 path ;;
  let viterbi := <[0%nat := row]> viterbi in
  index_loop 1 (drop 1 (PyStr.chars observed)) viterbi path.

(** The search of [decode_word] on the lowercased word: [None] when
    [final_state is None], else [path[final_state]]. *)
Definition viterbi_search (sts : list string) (observed : string)
  : M (option (list string)) :=
  let length := String.length observed in
  do (viterbi, path) ⇐ viterbi_forward sts observed ;;
  do last_row ⇐ must (viterbi !! (length - 1)%nat) ;;
  do final_state ⇐ final_loop sts last_row None ninf ;;
  match final_state with
  | None => ret None
  | Some fs => do p ⇐ must (get path fs) ;; ret (Some p)
  end.

(** The case restoration at the end of [decode_word]. *)
Definition restore_case (word decoded : string) : M string :=
  if PyStr.isupper word then ret (PyStr.upper decoded)
  else
    do first ⇐ must (PyStr.chars word !! 0%nat) ;;
    if PyStr.isupper first then ret (PyStr.capitalize decoded)
    else ret decoded.

(** [decode_word] *)
Definition decode_word (word : string) : M string :=
  do sts ⇐ gets states ;;
  if negb (PyStr.nonempty word) || negb (bool_decide (sts ≠ []))
  then ret word
  else
    let observed := PyStr.lower word in
    do found ⇐ viterbi_search sts observed ;;
    match found with
    | None => ret word
    | Some p => restore_case word (PyStr.join "" p)
    end.

(** [[self.decode_word(word) for word in words]] *)
Fixpoint decode_words (words : list string) : M (list string) :=
  match words with
  | [] => ret []
  | word :: rest =>
      do w ⇐ decode_word word ;;
      do ws ⇐ decode_words rest ;;
      ret (w :: ws)
  end.

(** [decode_text] *)
Definition decode_text (text : string) : M string :=
  do corrected_words ⇐ decode_words (PyStr.split text) ;;
  ret (PyStr.join " " corrected_words).

(** ** Derived notions used to state the properties *)

(** The models obtainable through the public operations. *)
Inductive reachable : SpellCheckerHMM → Prop :=
| reach_init : reachable init
| reach_train m pairs : reachable m → reachable (train m pairs)
| reach_decode_word m w r m' :
    reachable m → decode_word w m = Some (r, m') → reachable m'
| reach_decode_text m t r m' :
    reachable m → decode_text t m = Some (r, m') → reachable m'.

(** The value [_log_transition_prob] returns on [m]. *)
Definition log_transition_value (m : SpellCheckerHMM)
    (prev_state next_state : string) : F :=
  match _log_transition_prob prev_state next_state m with
  | Some (v, _) => v
  | None => ninf
  end.

(** The value [_log_emission_prob] returns on [m]. *)
Definition log_emission_value (m : SpellCheckerHMM)
    (state observation : string) : F :=
  match _log_emission_prob state observation m with
  | Some (v, _) => v
  | None => ninf
  end.

(** [viterbi[length - 1]] as [decode_word word] computes it on [m]. *)
Definition viterbi_last_row (m : SpellCheckerHMM) (word : string)
  : option (dict F) :=
  let observed := PyStr.lower word in
  match viterbi_forward (states m) observed m with
  | Some ((viterbi, _), _) => viterbi !! (String.length observed - 1)%nat
  | None => None
  end.

(** [total_score] of the termination loop for [state]: the Viterbi score
    at the last position plus the log transition probability to END. *)
Definition final_score (m : SpellCheckerHMM) (word state : string)
  : option F :=
  match viterbi_last_row m word with
  | Some last_row =>
      match get last_row state with
      | Some state_score =>
          Some (fadd state_score (log_transition_value m state END_STATE))
      | None => None
      end
  | None => None
  end.

(** A score is finite when it is greater than [-inf]. *)
Definition finite (x : F) : bool := flt ninf x.

(** [counts[a][b]] read without creating anything: a missing row or a
    missing entry is 0. *)
Definition count2 (d : dict (dict Z)) (a b : string) : Z :=
  get_or (get_or d a []) b 0.

(** What a read-only operation may change: nothing but empty rows added
    to the two [defaultdict(Counter)] tables. *)
Definition same_rows (d d' : dict (dict Z)) : Prop :=
  ∀ k, get_or d' k [] = get_or d k [].

Record frame (m m' : SpellCheckerHMM) : Prop := mkFrame {
  frame_states : states m' = states m;
  frame_state_set : state_set m' = state_set m;
  frame_start_counts : start_counts m' = start_counts m;
  frame_start_total : start_total m' = start_total m;
  frame_transition_counts :
    same_rows (transition_counts m) (transition_counts m');
  frame_transition_totals : transition_totals m' = transition_totals m;
  frame_emission_counts :
    same_rows (emission_counts m) (emission_counts m');
  frame_emission_totals : emission_totals m' = emission_totals m;
  frame_start_log_probs : start_log_probs m' = start_log_probs m;
  frame_transition_log_probs :
    transition_log_probs m' = transition_log_probs m;
  frame_emission_log_probs : emission_log_probs m' = emission_log_probs m;
}.

(** [c], run on [m], returns normally, with a result and a final model
    that satisfy [Q]. *)
Definition returns {A} (c : M A) (m : SpellCheckerHMM)
    (Q : A → SpellCheckerHMM → Prop) : Prop :=
  ∃ a m', c m = Some (a, m') ∧ Q a m'.

(** What the forward pass maintains at position [idx]: a state without
    a path scores [-inf], and every path has one state per position. *)
Definition viterbi_inv (sts : list string) (idx : nat)
    (row : dict F) (path : dict (list string)) : Prop :=
  (∀ s, s ∈ sts → get path s = None → get row s = Some ninf) ∧
  (∀ s p, get path s = Some p → length p = S idx ∧ Forall (fun x => x ∈ sts) p).

(** The counts of [m] with the alphabet [S] and the derived attributes
    ([states] and the three log-probability tables) of [x]. *)
Definition with_derived (m x : SpellCheckerHMM) (S : gset string)
  : SpellCheckerHMM :=
  mkHMM (states x) S (start_counts m) (start_total m)
    (transition_counts m) (transition_totals m)
    (emission_counts m) (emission_totals m)
    (start_log_probs x) (transition_log_probs x) (emission_log_probs x).

(** The end of [train], after the loop over the pairs. *)
Definition finish (m : SpellCheckerHMM) : SpellCheckerHMM :=
  let m := with_state_set m (state_set m ∖ {[ NEWLINE ]}) in
  let m := with_states m (sorted_set (state_set m)) in
  _finalize_probabilities m.

(** A state with a nonzero total has a row of counts. *)
Definition rows_present (totals : dict Z) (counts : dict (dict Z)) : Prop :=
  ∀ k, get_or totals k 0 ≠ 0 → is_Some (get counts k).

Definition rows_ok (m : SpellCheckerHMM) : Prop :=
  rows_present (transition_totals m) (transition_counts m) ∧
  rows_present (emission_totals m) (emission_counts m).

(** The alphabet holds single characters only. *)
Definition alphabet_ok (m : SpellCheckerHMM) : Prop :=
  (∀ s, s ∈ state_set m → String.length s = 1%nat) ∧
  Forall (fun s => String.length s = 1%nat) (states m).

(** The states are ASCII characters. *)
Definition ascii_states (m : SpellCheckerHMM) : Prop :=
  Forall (fun s => PyStr.isascii s = true) (states m).

(** A log-probability table built by finalization has rows only for
    states with a nonzero total. *)
Definition table_ok (sts : list string) (totals : dict Z)
    (lp : dict (dict F)) : Prop :=
  ∀ k, is_Some (get lp k) → k ∈ sts ∧ get_or totals k 0 ≠ 0.

Definition tables_ok (m : SpellCheckerHMM) : Prop :=
  table_ok (states m) (transition_totals m) (transition_log_probs m) ∧
  table_ok (states m) (emission_totals m) (emission_log_probs m).

(** The order the inspectors promise: no item is smaller than a later
    one. *)
Definition sorted_descending (l : list (string * F)) : Prop :=
  StronglySorted (fun a b => flt (snd a) (snd b) = false) l.

End HMM.

Arguments SpellCheckerHMM : clear implicits.
Arguments M : clear implicits.

(** ** Exact log-probability arithmetic

  [log q] for a positive rational [q] is represented by [q] in lowest
  terms, so that a sum of logarithms is a product and the order of
  logarithms is the order of their arguments. *)

Module Exact.

Inductive xlog : Type :=
| NegInf
| Log (q : Q).

(** [math.log(count / total)] for a positive ratio. *)
Definition log_of (count total : Z) : xlog :=
  if (0 <? count) && (0 <? total)
  then Log (Qred (Qmake count (Z.to_pos total)))
  else if (count <? 0) && (total <? 0)
  then Log (Qred (Qmake (- count) (Z.to_pos (- total))))
  else NegInf.

Definition add (a b : xlog) : xlog :=
  match a, b with
  | Log p, Log q => Log (Qred (Qmult p q))
  | _, _ => NegInf
  end.

Definition lt (a b : xlog) : bool :=
  match a, b with
  | NegInf, NegInf => false
  | NegInf, Log _ => true
  | Log _, NegInf => false
  | Log p, Log q => negb (Qle_bool q p)
  end.

(** [0.0] is [log 1]. *)
Definition zero : xlog := log_of 1 1.

#[export] Instance arith : LogArith :=
  {| F := xlog; ninf := NegInf; flog := log_of; fadd := add; flt := lt |}.

End Exact.

(** ** Example models *)

Module Scenario.

Definition worked_pairs : list (string * string) :=
  [("the", "the"); ("the", "teh"); ("the", "the")].

(** the worked scenario of the specification *)
Definition worked : SpellCheckerHMM Exact.arith := train init worked_pairs.

(** a correct word whose second letter is never observed *)
Definition short_typed : SpellCheckerHMM Exact.arith :=
  train init [("ab", "a")].

(** typed strings without letters *)
Definition digits : SpellCheckerHMM Exact.arith :=
  train init [("the", "123")].

Definition letter_digit : SpellCheckerHMM Exact.arith :=
  train init [("th", "t1")].

(** the one-character word that is the sharp s *)
Definition sharp_s : string := String PyStr.SHARP_S EmptyString.

(** a correct word that is the sharp s, typed as [s] *)
Definition sharp : SpellCheckerHMM Exact.arith :=
  train init [(sharp_s, "s")].

(** a typed word that is the uppercase of the sharp s, lowercased *)
Definition double_s : SpellCheckerHMM Exact.arith :=
  train init [("ab", "ss")].

End Scenario.

(** ** The training counts as the specification words them *)

Module Spec.

(** lowercase and trim *)
Definition normalise (raw : string) : string :=
  PyStr.lower (PyStr.strip raw).

(** the letters of [correct] *)
Definition letters (pair : string * string) : list string :=
  PyStr.chars (normalise (fst pair)).

Definition typed (pair : string * string) : list string :=
  PyStr.chars (normalise (snd pair)).

(** a pair is skipped if either string is empty after trimming *)
Definition kept (pair : string * string) : bool :=
  bool_decide (letters pair ≠ []) && bool_decide (typed pair ≠ []).

(** the number of indices [i < n] with [P i] *)
Definition count_indices (n : nat) (P : nat → bool) : Z :=
  Z.of_nat (length (filter (fun i => P i = true) (seq 0 n))).

Definition indicator (b : bool) : Z := if b then 1 else 0.

(** one start count for [letters[0]] *)
Definition pair_start (pair : string * string) (s : string) : Z :=
  if kept pair
  then indicator (bool_decide (letters pair !! 0%nat = Some s))
  else 0.

(** one transition count per adjacent pair [(letters[i], letters[i+1])],
    and one from [letters[last]] to END *)
Definition pair_transition (pair : string * string) (a b : string) : Z :=
  if kept pair
  then
    count_indices (length (letters pair) - 1)
      (fun i => bool_decide (letters pair !! i = Some a)
                && bool_decide (letters pair !! S i = Some b))
    + indicator (bool_decide (last (letters pair) = Some a)
                 && bool_decide (b = END_STATE))
  else 0.

(** one emission count from [letters[i]] to [typed[i]] for each index [i]
    with [i < len(typed)] *)
Definition pair_emission (pair : string * string) (a o : string) : Z :=
  if kept pair
  then
    count_indices (length (letters pair))
      (fun i => bool_decide (i < length (typed pair))%nat
                && bool_decide (letters pair !! i = Some a)
                && bool_decide (typed pair !! i = Some o))
  else 0.

(** the alphabet contribution: every letter of a kept [correct] *)
Definition pair_alphabet (pair : string * string) : gset string :=
  if kept pair then list_to_set (letters pair) else ∅.

Definition total (f : string * string → Z) (pairs : list (string * string))
  : Z :=
  foldr (fun pair acc => f pair + acc) 0 pairs.

Definition alphabet (pairs : list (string * string)) : gset string :=
  foldr (fun pair acc => pair_alphabet pair ∪ acc) ∅ pairs.

End Spec.

(** ** Further notions: scores of state sequences, rows of counts *)

Section Scores.

Context {LA : LogArith}.

(** The Viterbi score of a state sequence, accumulated as [decode_word]
    accumulates it: [(score + transition) + emission] at each further
    position.  Returns the last state with the score. *)
Fixpoint extend_score (m : SpellCheckerHMM LA) (prev_state : string)
    (score : F) (q obs : list string) : string * F :=
  match q, obs with
  | s :: q', o :: obs' =>
      extend_score m s
        (fadd (fadd score (log_transition_value m prev_state s))
           (log_emission_value m s o))
        q' obs'
  | _, _ => (prev_state, score)
  end.

(** [viterbi[len(q) - 1][q[-1]]] along the sequence [q]: the start and
    the first emission, then [extend_score]. *)
Definition prefix_score (m : SpellCheckerHMM LA) (q obs : list string)
  : option (string * F) :=
  match q, obs with
  | s0 :: q', o0 :: obs' =>
      Some (extend_score m s0
              (fadd (_log_start_prob m s0) (log_emission_value m s0 o0))
              q' obs')
  | _, _ => None
  end.

(** [total_score] of the sequence: its Viterbi score plus the
    transition of its last state to END. *)
Definition sequence_score (m : SpellCheckerHMM LA) (q obs : list string)
  : option F :=
  match prefix_score m q obs with
  | Some (last_state, v) =>
      Some (fadd v (log_transition_value m last_state END_STATE))
  | None => None
  end.

(** Items whose log-probability is neither less nor greater than [a]. *)
Definition same_key (a : F) (item : string * F) : bool :=
  negb (flt (snd item) a) && negb (flt a (snd item)).

(** [a <= b] on scores: [a] is not greater than [b]. *)
Definition fle (a b : F) : Prop := flt b a = false.

(** The state sequences [decode_word] chooses among for the observations
    [obs]: one state of [sts] per observed character. *)
Definition candidate (sts obs q : list string) : Prop :=
  length q = length obs ∧ Forall (fun s => s ∈ sts) q.

(** What [viterbi[index]] and [path] hold after the observations [obs]:
    a surviving path of [s] ends in [s] and has the score stored for
    [s]; a state without a path scores [-inf]; and no candidate ending
    in [s] scores more than what is stored for [s]. *)
Definition row_optimal (m : SpellCheckerHMM LA) (sts obs : list string)
    (row : dict F) (path : dict (list string)) : Prop :=
  (∀ s p, get path s = Some p →
     candidate sts obs p ∧
     ∃ v, get row s = Some v ∧ prefix_score m p obs = Some (s, v)) ∧
  (∀ s, s ∈ sts → get path s = None → get row s = Some ninf) ∧
  (∀ q s v v', candidate sts obs q →
     prefix_score m q obs = Some (s, v') → get row s = Some v → fle v' v).

(** The same for the entry of one state [s]. *)
Definition entry_optimal (m : SpellCheckerHMM LA)
    (sts obs : list string) (row : dict F) (path : dict (list string))
    (s : string) : Prop :=
  (∀ p, get path s = Some p →
     candidate sts obs p ∧
     ∃ v, get row s = Some v ∧ prefix_score m p obs = Some (s, v)) ∧
  (get path s = None → get row s = Some ninf) ∧
  (∀ q v v', candidate sts obs q →
     prefix_score m q obs = Some (s, v') → get row s = Some v → fle v' v).

End Scores.

(** The laws of the float order and addition the search relies on.
    They hold for IEEE doubles other than NaN; the scores, sums of
    logarithms of probabilities and of [-inf], are never NaN. *)
Record score_laws (LA : LogArith) : Prop := mkScoreLaws {
  law_asym : ∀ x y : F, flt x y = true → flt y x = false;
  law_negtrans :
    ∀ x y z : F, flt x y = false → flt y z = false → flt x z = false;
  law_mono : ∀ a b t : F, flt a b = false → flt (fadd a t) (fadd b t) = false;
  law_ninf_left : ∀ x y : F, flt y (fadd ninf x) = false;
  law_ninf_right : ∀ x y : F, flt y (fadd x ninf) = false;
}.

(** Log-probabilities as ratios of positive integers, not reduced:
    [log (a / b)] is the pair [(a, b)], [-inf] is [None].  All the
    [score_laws] hold on every value of this arithmetic. *)
Module Ratio.

Definition lr : Type := option (positive * positive).

Definition log_of (count total : Z) : lr :=
  if (0 <? count) && (0 <? total)
  then Some (Z.to_pos count, Z.to_pos total)
  else if (count <? 0) && (total <? 0)
  then Some (Z.to_pos (- count), Z.to_pos (- total))
  else None.

Definition add (x y : lr) : lr :=
  match x, y with
  | Some (a, b), Some (c, d) => Some (a * c, b * d)%positive
  | _, _ => None
  end.

Definition lt (x y : lr) : bool :=
  match x, y with
  | _, None => false
  | None, Some _ => true
  | Some (a, b), Some (c, d) => (a * d <? c * b)%positive
  end.

Definition arith : LogArith :=
  {| F := lr; ninf := None; flog := log_of; fadd := add; flt := lt |}.

(** the model of the worked scenario in this arithmetic *)
Definition worked : SpellCheckerHMM arith :=
  train init [("the", "the"); ("the", "teh"); ("the", "the")].

End Ratio.

(** The sum of the counts of a row. *)
Fixpoint sum_values (row : dict Z) : Z :=
  match row with
  | [] => 0
  | (_, v) :: r => v + sum_values r
  end.

(** A dictionary holds each key once. *)
Definition unique_keys {V} (d : dict V) : Prop := NoDup (map fst d).

(** [d[a][b]] read without creating anything, [None] when missing. *)
Definition lookup2 {V} (d : dict (dict V)) (a b : string) : option V :=
  get (get_or d a []) b.

(** What the counting pass maintains: rows hold each key once, nothing
    is negative, and each total is the sum of its row. *)
Record counts_ok {LA : LogArith} (m : SpellCheckerHMM LA) : Prop := mkCountsOk {
  ok_transition_unique : ∀ k, unique_keys (get_or (transition_counts m) k []);
  ok_emission_unique : ∀ k, unique_keys (get_or (emission_counts m) k []);
  ok_start_nonneg : ∀ k, 0 ≤ get_or (start_counts m) k 0;
  ok_transition_nonneg : ∀ k b, 0 ≤ count2 (transition_counts m) k b;
  ok_emission_nonneg : ∀ k b, 0 ≤ count2 (emission_counts m) k b;
  ok_start_total_nonneg : 0 ≤ start_total m;
  ok_transition_total_nonneg : ∀ k, 0 ≤ get_or (transition_totals m) k 0;
  ok_emission_total_nonneg : ∀ k, 0 ≤ get_or (emission_totals m) k 0;
  ok_start_sum : start_total m = sum_values (start_counts m);
  ok_transition_sum :
    ∀ k, get_or (transition_totals m) k 0
         = sum_values (get_or (transition_counts m) k []);
  ok_emission_sum :
    ∀ k, get_or (emission_totals m) k 0
         = sum_values (get_or (emission_counts m) k []);
}.

(** [log(count / total)], or [-inf] when either is zero: what the three
    tables are meant to hold. *)
Definition normalised {LA : LogArith} (count total : Z) : F :=
  if (total =? 0) || (count =? 0) then ninf else flog count total.

(** The lookups agree with the counts. *)
Definition coherent {LA : LogArith} (m : SpellCheckerHMM LA) : Prop :=
  (∀ s, s ∈ states m →
        _log_start_prob m s
        = normalised (get_or (start_counts m) s 0) (start_total m)) ∧
  (∀ prev next,
     log_transition_value m prev next
     = normalised (count2 (transition_counts m) prev next)
         (get_or (transition_totals m) prev 0)) ∧
  (∀ s o,
     log_emission_value m s o
     = normalised (count2 (emission_counts m) s o)
         (get_or (emission_totals m) s 0)).

(** ** [load_training_pairs]

  The function reads a file; the model takes the lines that iterating
  over the open file yields, each with its line end. *)

Definition COLON : ascii := ":"%char.

(** [c in s] for a one-character [c] *)
Fixpoint contains (c : ascii) (s : string) : bool :=
  match s with
  | EmptyString => false
  | String a r => Ascii.eqb a c || contains c r
  end.

(** [s.split(c, 1)]: [[s]] when [c] does not occur in [s], else the text
    before the first [c] and the text after it. *)
Fixpoint split_once (c : ascii) (s : string) : list string :=
  match s with
  | EmptyString => [EmptyString]
  | String a r =>
      if Ascii.eqb a c then [EmptyString; r]
      else match split_once c r with
           | x :: rest => String a x :: rest
           | [] => []
           end
  end.

(** [for typed in typed_variants]: the pairs of one line. *)
Definition add_variants (correct : string) (typed_variants : list string)
    (pairs : list (string * string)) : list (string * string) :=
  fold_left
    (fun pairs typed =>
       let typed := PyStr.strip typed in
       if PyStr.nonempty typed then pairs ++ [(correct, typed)] else pairs)
    typed_variants pairs.

(** The body of the loop over the lines of the file.  [None] is the
    [ValueError] of unpacking [line.split(":", 1)] into two names. *)
Definition load_line (pairs : list (string * string)) (raw_line : string)
  : option (list (string * string)) :=
  let line := PyStr.strip raw_line in
  if negb (PyStr.nonempty line) || negb (contains COLON line) then Some pairs
  else
    match split_once COLON line with
    | [correct; typed_part] =>
        let correct := PyStr.strip correct in
        let typed_variants := PyStr.split (PyStr.strip typed_part) in
        Some (add_variants correct typed_variants pairs)
    | _ => None
    end.

Fixpoint load_lines (lines : list string) (pairs : list (string * string))
  : option (list (string * string)) :=
  match lines with
  | [] => Some pairs
  | raw_line :: rest =>
      match load_line pairs raw_line with
      | Some pairs' => load_lines rest pairs'
      | None => None
      end
  end.

(** [load_training_pairs] on the lines that iterating over the open file
    yields. *)
Definition load_training_pairs (lines : list string)
  : option (list (string * string)) :=
  load_lines lines [].

(** some character of [s] is whitespace *)
Fixpoint has_space (s : string) : bool :=
  match s with
  | EmptyString => false
  | String c r => PyStr.is_space_char c || has_space r
  end.

(** A token of a line: not empty, no whitespace. *)
Definition token (s : string) : Prop := s ≠ EmptyString ∧ has_space s = false.

(** * Properties *)

(** ** Dictionaries *)

Section DictFacts.

Context {V : Type}.
Implicit Types (d : dict V) (k : string) (v : V).

Lemma get_set_eq d k v : get (set d k v) k = Some v.
Proof.
  induction d as [|[k' v'] d IH]; simpl.
  - by rewrite decide_True.
  - destruct (decide (k' = k)) as [->|Hne]; simpl.
    + by rewrite decide_True.
    + by rewrite decide_False.
Qed.

Lemma get_set_ne d k k' v : k ≠ k' → get (set d k v) k' = get d k'.
Proof.
  intros Hne. induction d as [|[k0 v0] d IH]; simpl.
  - by rewrite decide_False.
  - destruct (decide (k0 = k)) as [->|Hk]; simpl.
    + by rewrite !decide_False.
    + destruct (decide (k0 = k')); auto.
Qed.

Lemma get_set d k k' v :
  get (set d k v) k' = if decide (k = k') then Some v else get d k'.
Proof.
  destruct (decide (k = k')) as [->|Hne].
  - apply get_set_eq.
  - by apply get_set_ne.
Qed.

Lemma get_or_set d k k' v dflt :
  get_or (set d k v) k' dflt = if decide (k = k') then v else get_or d k' dflt.
Proof. unfold get_or. rewrite get_set. by destruct (decide (k = k')). Qed.

Lemma mem_set d k k' v :
  mem (set d k v) k' = if decide (k = k') then true else mem d k'.
Proof. unfold mem. rewrite get_set. by destruct (decide (k = k')). Qed.

(** Writing back what is already there changes nothing. *)
Lemma set_same d k v : get d k = Some v → set d k v = d.
Proof.
  induction d as [|[k0 v0] d IH]; simpl; [done|].
  destruct (decide (k0 = k)) as [->|Hk]; intros H.
  - by inversion H.
  - by rewrite IH.
Qed.

Lemma getitem_default_row dflt d k :
  fst (getitem_default dflt d k) = get_or d k dflt.
Proof. unfold getitem_default, get_or. by destruct (get d k). Qed.

Lemma getitem_default_get dflt d k k' :
  get_or (snd (getitem_default dflt d k)) k' dflt = get_or d k' dflt.
Proof.
  unfold getitem_default. destruct (get d k) eqn:E; simpl; [done|].
  rewrite get_or_set. destruct (decide (k = k')) as [<-|]; [|done].
  unfold get_or. by rewrite E.
Qed.

Lemma getitem_default_present dflt d k :
  is_Some (get d k) → snd (getitem_default dflt d k) = d.
Proof. intros [v Hv]. unfold getitem_default. by rewrite Hv. Qed.

Lemma getitem_default_is_Some dflt d k k' :
  is_Some (get d k') → is_Some (get (snd (getitem_default dflt d k)) k').
Proof.
  unfold getitem_default. destruct (get d k) eqn:E; simpl; [done|].
  rewrite get_set. destruct (decide (k = k')); eauto.
Qed.

End DictFacts.

Lemma get_or_incr (c : dict Z) (k k' : string) :
  get_or (incr c k) k' 0 = get_or c k' 0 + (if decide (k = k') then 1 else 0).
Proof.
  unfold incr. rewrite get_or_set.
  destruct (decide (k = k')) as [->|]; lia.
Qed.

Lemma get_incr_is_Some (c : dict Z) (k : string) : is_Some (get (incr c k) k).
Proof. unfold incr. rewrite get_set_eq. eauto. Qed.

Lemma get_incr2 (d : dict (dict Z)) (a b k : string) :
  get_or (incr2 d a b) k [] =
  if decide (a = k) then incr (get_or d a []) b else get_or d k [].
Proof.
  unfold incr2.
  pose proof (getitem_default_row [] d a) as Hrow.
  pose proof (getitem_default_get [] d a k) as Hget.
  destruct (getitem_default [] d a) as [row d']; simpl in *.
  rewrite get_or_set. destruct (decide (a = k)); [by subst row | done].
Qed.

Lemma get_incr2_is_Some (d : dict (dict Z)) (a b k : string) :
  a = k ∨ is_Some (get d k) → is_Some (get (incr2 d a b) k).
Proof.
  unfold incr2.
  pose proof (getitem_default_is_Some [] d a k) as Hs.
  destruct (getitem_default [] d a) as [row d']; simpl in *.
  rewrite get_set. destruct (decide (a = k)); [eauto|].
  intros [?|?]; [done|auto].
Qed.

Lemma count2_incr2 (d : dict (dict Z)) (a b a' b' : string) :
  count2 (incr2 d a b) a' b' =
  count2 d a' b' + (if decide (a = a' ∧ b = b') then 1 else 0).
Proof.
  unfold count2. rewrite get_incr2.
  destruct (decide (a = a')) as [->|Ha].
  - rewrite get_or_incr. destruct (decide (b = b')) as [->|Hb].
    + by rewrite decide_True.
    + rewrite decide_False; [done|]. by intros [_ ?].
  - rewrite decide_False; [lia|]. by intros [? _].
Qed.

(** ** Case mapping *)

Module PyStrFacts.
Import PyStr.

Local Ltac by_cases c :=
  destruct c as [[] [] [] [] [] [] [] []]; reflexivity.

(** the same for a fact about an ASCII character *)
Local Ltac by_ascii_cases c :=
  destruct c as [[] [] [] [] [] [] [] []]; intros Hc;
  first [reflexivity | vm_compute in Hc; discriminate Hc].

Lemma upper_char_idem c : upper_char (upper_char c) = upper_char c.
Proof. by_cases c. Qed.

Lemma lower_char_idem c : lower_char (lower_char c) = lower_char c.
Proof. by_cases c. Qed.

Lemma lower_upper_char c : lower_char (upper_char c) = lower_char c.
Proof. by_cases c. Qed.

Lemma upper_lower_char c : upper_char (lower_char c) = upper_char c.
Proof. by_cases c. Qed.

Lemma is_cased_upper_char c : is_cased_char (upper_char c) = is_cased_char c.
Proof. by_cases c. Qed.

Lemma is_lower_lower_char c : is_lower_char (lower_char c) = is_cased_char c.
Proof. by_cases c. Qed.

Lemma is_cased_lower_char c : is_cased_char (lower_char c) = is_cased_char c.
Proof. by_cases c. Qed.

(** An ASCII character is not the sharp s, has an ASCII uppercase that
    is not lowercase, and an ASCII lowercase. *)
Lemma ascii_not_sharp c :
  is_ascii_char c = true → Ascii.eqb c SHARP_S = false.
Proof. by_ascii_cases c. Qed.

Lemma is_lower_upper_char c :
  is_ascii_char c = true → is_lower_char (upper_char c) = false.
Proof. by_ascii_cases c. Qed.

Lemma is_ascii_upper_char c :
  is_ascii_char c = true → is_ascii_char (upper_char c) = true.
Proof. by_ascii_cases c. Qed.

Lemma is_ascii_lower_char c :
  is_ascii_char c = true → is_ascii_char (lower_char c) = true.
Proof. by_ascii_cases c. Qed.

Lemma upper_cons c r :
  is_ascii_char c = true →
  upper (String c r) = String (upper_char c) (upper r).
Proof. intros Hc. simpl. by rewrite ascii_not_sharp. Qed.

Lemma capitalize_cons c r :
  is_ascii_char c = true →
  capitalize (String c r) = String (upper_char c) (lower r).
Proof. intros Hc. simpl. by rewrite ascii_not_sharp. Qed.

Lemma isascii_cons c r :
  isascii (String c r) = true ↔ is_ascii_char c = true ∧ isascii r = true.
Proof. simpl. apply andb_true_iff. Qed.

Lemma isascii_lower s : isascii s = true → isascii (lower s) = true.
Proof.
  induction s as [|c r IH]; [done|]. intros [Hc Hr]%isascii_cons.
  apply isascii_cons. split; [by apply is_ascii_lower_char|auto].
Qed.

Lemma isascii_upper s : isascii s = true → isascii (upper s) = true.
Proof.
  induction s as [|c r IH]; [done|]. intros [Hc Hr]%isascii_cons.
  rewrite upper_cons by done.
  apply isascii_cons. split; [by apply is_ascii_upper_char|auto].
Qed.

Lemma isascii_capitalize s : isascii s = true → isascii (capitalize s) = true.
Proof.
  destruct s as [|c r]; [done|]. intros [Hc Hr]%isascii_cons.
  rewrite capitalize_cons by done.
  apply isascii_cons. split; [by apply is_ascii_upper_char|].
  by apply isascii_lower.
Qed.

Lemma length_lower s : String.length (lower s) = String.length s.
Proof. induction s; simpl; congruence. Qed.

(** [upper] and [capitalize] keep the length of an ASCII string. *)
Lemma length_upper s :
  isascii s = true → String.length (upper s) = String.length s.
Proof.
  induction s as [|c r IH]; [done|]. intros [Hc Hr]%isascii_cons.
  rewrite upper_cons by done. simpl. by rewrite IH.
Qed.

Lemma length_capitalize s :
  isascii s = true → String.length (capitalize s) = String.length s.
Proof.
  destruct s as [|c r]; [done|]. intros [Hc Hr]%isascii_cons.
  rewrite capitalize_cons by done. simpl. by rewrite length_lower.
Qed.

Lemma lower_upper s : isascii s = true → lower (upper s) = lower s.
Proof.
  induction s as [|c r IH]; [done|]. intros [Hc Hr]%isascii_cons.
  rewrite upper_cons by done. simpl. by rewrite lower_upper_char, IH.
Qed.

Lemma lower_lower s : lower (lower s) = lower s.
Proof. induction s; simpl; [done|]. by rewrite lower_char_idem, IHs. Qed.

Lemma upper_upper s : isascii s = true → upper (upper s) = upper s.
Proof.
  induction s as [|c r IH]; [done|]. intros [Hc Hr]%isascii_cons.
  rewrite !upper_cons by (done || by apply is_ascii_upper_char).
  by rewrite upper_char_idem, IH.
Qed.

Lemma upper_lower s : isascii s = true → upper (lower s) = upper s.
Proof.
  induction s as [|c r IH]; [done|]. intros [Hc Hr]%isascii_cons.
  simpl lower.
  rewrite !upper_cons by (done || by apply is_ascii_lower_char).
  by rewrite upper_lower_char, IH.
Qed.

Lemma lower_capitalize s : isascii s = true → lower (capitalize s) = lower s.
Proof.
  destruct s as [|c r]; [done|]. intros [Hc Hr]%isascii_cons.
  rewrite capitalize_cons by done. simpl.
  by rewrite lower_upper_char, lower_lower.
Qed.

Lemma upper_capitalize s : isascii s = true → upper (capitalize s) = upper s.
Proof.
  destruct s as [|c r]; [done|]. intros [Hc Hr]%isascii_cons.
  rewrite capitalize_cons by done.
  rewrite !upper_cons by (done || by apply is_ascii_upper_char).
  by rewrite upper_char_idem, upper_lower.
Qed.

Lemma capitalize_upper s :
  isascii s = true → capitalize (upper s) = capitalize s.
Proof.
  destruct s as [|c r]; [done|]. intros [Hc Hr]%isascii_cons.
  rewrite upper_cons by done.
  rewrite !capitalize_cons by (done || by apply is_ascii_upper_char).
  by rewrite upper_char_idem, lower_upper.
Qed.

Lemma capitalize_capitalize s :
  isascii s = true → capitalize (capitalize s) = capitalize s.
Proof.
  destruct s as [|c r]; [done|]. intros [Hc Hr]%isascii_cons.
  rewrite !capitalize_cons by (done || by apply is_ascii_upper_char).
  by rewrite upper_char_idem, lower_lower.
Qed.

Lemma has_cased_upper s : isascii s = true → has_cased (upper s) = has_cased s.
Proof.
  induction s as [|c r IH]; [done|]. intros [Hc Hr]%isascii_cons.
  rewrite upper_cons by done. simpl.
  by rewrite is_cased_upper_char, IH.
Qed.

Lemma has_lower_upper s : isascii s = true → has_lower (upper s) = false.
Proof.
  induction s as [|c r IH]; [done|]. intros [Hc Hr]%isascii_cons.
  rewrite upper_cons by done. simpl.
  by rewrite is_lower_upper_char, IH.
Qed.

Lemma has_lower_lower s : has_lower (lower s) = has_cased s.
Proof. induction s; simpl; [done|]. by rewrite is_lower_lower_char, IHs. Qed.

Lemma has_cased_lower s : has_cased (lower s) = has_cased s.
Proof. induction s; simpl; [done|]. by rewrite is_cased_lower_char, IHs. Qed.

(** [w.upper().isupper()] holds exactly when the ASCII word [w] has a
    cased character. *)
Lemma isupper_upper s : isascii s = true → isupper (upper s) = has_cased s.
Proof.
  intros Hs. unfold isupper. rewrite has_cased_upper, has_lower_upper by done.
  by destruct (has_cased s).
Qed.

Lemma nonempty_upper s : nonempty (upper s) = nonempty s.
Proof. destruct s as [|c r]; [done|]. simpl. by destruct (Ascii.eqb c SHARP_S). Qed.

Lemma nonempty_lower s : nonempty (lower s) = nonempty s.
Proof. by destruct s. Qed.

Lemma nonempty_capitalize s : nonempty (capitalize s) = nonempty s.
Proof. destruct s as [|c r]; [done|]. simpl. by destruct (Ascii.eqb c SHARP_S). Qed.

Lemma length_chars s : length (chars s) = String.length s.
Proof. induction s; simpl; congruence. Qed.

Lemma chars_single s : Forall (fun x => String.length x = 1%nat) (chars s).
Proof. induction s; simpl; constructor; auto. Qed.

Lemma length_app_str s t :
  String.length (s +:+ t) = (String.length s + String.length t)%nat.
Proof.
  induction s as [|c s IH]; [done|].
  change (S (String.length (s +:+ t)) = S (String.length s + String.length t)).
  by rewrite IH.
Qed.

(** Joining single characters gives one character per list element. *)
Lemma length_join_single p :
  Forall (fun x => String.length x = 1%nat) p →
  String.length (join "" p) = length p.
Proof.
  unfold join. induction 1 as [|x p Hx Hp IH]; [done|].
  destruct p as [|y p]; [done|].
  change (String.length (x +:+ "" +:+ String.concat "" (y :: p))
          = S (length (y :: p))).
  by rewrite !length_app_str, IH, Hx.
Qed.

(** A one-character ASCII string is capitalised by uppercasing it. *)
Lemma upper_single s :
  isascii s = true → String.length s = 1%nat → upper s = capitalize s.
Proof.
  destruct s as [|c [|? ?]]; try done. intros [Hc _]%isascii_cons _.
  by rewrite upper_cons, capitalize_cons.
Qed.

(** The join of ASCII strings is ASCII. *)
Lemma isascii_app s t :
  isascii s = true → isascii t = true → isascii (s +:+ t) = true.
Proof.
  intros Hs Ht. induction s as [|c r IH]; [done|].
  apply isascii_cons in Hs as [Hc Hr].
  change (String c r +:+ t) with (String c (r +:+ t)).
  apply isascii_cons. auto.
Qed.

Lemma isascii_join p :
  Forall (fun x => isascii x = true) p → isascii (join "" p) = true.
Proof.
  unfold join. induction 1 as [|x p Hx Hp IH]; [done|].
  destruct p as [|y p]; [done|].
  change (String.concat "" (x :: y :: p))
    with (x +:+ "" +:+ String.concat "" (y :: p)).
  by repeat apply isascii_app.
Qed.

End PyStrFacts.

(** ** The state-and-exception monad *)

Section MonadFacts.

Context {LA : LogArith}.
Local Abbreviation HMM := (SpellCheckerHMM LA).

Lemma returns_ret {A} (a : A) (m : HMM) (Q : A → HMM → Prop) :
  Q a m → returns (ret a) m Q.
Proof. intros. by exists a, m. Qed.

Lemma returns_bind {A B} (c : M LA A) (k : A → M LA B) (m : HMM)
    (Q : B → HMM → Prop) :
  returns c m (fun a m' => returns (k a) m' Q) → returns (bind c k) m Q.
Proof.
  intros (a & m' & Hc & b & m'' & Hk & HQ).
  exists b, m''. unfold bind. by rewrite Hc.
Qed.

Lemma returns_gets {A} (f : HMM → A) (m : HMM) (Q : A → HMM → Prop) :
  Q (f m) m → returns (gets f) m Q.
Proof. intros. by exists (f m), m. Qed.

Lemma returns_must {A} (o : option A) (a : A) (m : HMM) (Q : A → HMM → Prop) :
  o = Some a → Q a m → returns (must o) m Q.
Proof. intros -> ?. by exists a, m. Qed.

Lemma returns_mono {A} (c : M LA A) (m : HMM) (P Q : A → HMM → Prop) :
  returns c m P → (∀ a m', P a m' → Q a m') → returns c m Q.
Proof. intros (a & m' & Hc & HP) Himp. exists a, m'. auto. Qed.

Lemma returns_inv {A} (c : M LA A) (m : HMM) (Q : A → HMM → Prop) a m' :
  returns c m Q → c m = Some (a, m') → Q a m'.
Proof. intros (a0 & m0 & E & HQ) E'. rewrite E in E'. by inversion E'; subst. Qed.

(** *** The frame of the read-only operations *)

Lemma frame_refl (m : HMM) : frame m m.
Proof. by constructor. Qed.

Lemma frame_trans (m1 m2 m3 : HMM) : frame m1 m2 → frame m2 m3 → frame m1 m3.
Proof.
  intros [] []. constructor; congruence.
Qed.

Lemma frame_transition_read (m : HMM) (k : string) :
  frame m (with_transition_counts m
             (snd (getitem_default [] (transition_counts m) k))).
Proof.
  constructor; try done. intros k'. simpl. apply getitem_default_get.
Qed.

Lemma frame_emission_read (m : HMM) (k : string) :
  frame m (with_emission_counts m
             (snd (getitem_default [] (emission_counts m) k))).
Proof.
  constructor; try done. intros k'. simpl. apply getitem_default_get.
Qed.

(** *** The two stateful lookups *)

Lemma log_transition_value_eq (m : HMM) (p n : string) :
  log_transition_value m p n =
  match cached_lookup (get (transition_log_probs m) p) n with
  | Some v => v
  | None => log_ratio (count2 (transition_counts m) p n)
              (get_or (transition_totals m) p 0)
  end.
Proof.
  unfold log_transition_value, _log_transition_prob, count2.
  destruct (cached_lookup _ _); [done|].
  pose proof (getitem_default_row [] (transition_counts m) p) as Hrow.
  destruct (getitem_default [] (transition_counts m) p); simpl in *.
  by subst.
Qed.

Lemma log_emission_value_eq (m : HMM) (s o : string) :
  log_emission_value m s o =
  match cached_lookup (get (emission_log_probs m) s) o with
  | Some v => v
  | None => log_ratio (count2 (emission_counts m) s o)
              (get_or (emission_totals m) s 0)
  end.
Proof.
  unfold log_emission_value, _log_emission_prob, count2.
  destruct (cached_lookup _ _); [done|].
  pose proof (getitem_default_row [] (emission_counts m) s) as Hrow.
  destruct (getitem_default [] (emission_counts m) s); simpl in *.
  by subst.
Qed.

Lemma log_transition_returns (m : HMM) (p n : string) :
  returns (_log_transition_prob p n) m
    (fun v m' => v = log_transition_value m p n ∧ frame m m').
Proof.
  unfold returns, log_transition_value, _log_transition_prob.
  destruct (cached_lookup _ _).
  - eexists _, _. split; [done|]. split; [done|apply frame_refl].
  - pose proof (frame_transition_read m p) as Hf.
    destruct (getitem_default [] (transition_counts m) p).
    eexists _, _. split; [done|]. by split.
Qed.

Lemma log_emission_returns (m : HMM) (s o : string) :
  returns (_log_emission_prob s o) m
    (fun v m' => v = log_emission_value m s o ∧ frame m m').
Proof.
  unfold returns, log_emission_value, _log_emission_prob.
  destruct (cached_lookup _ _).
  - eexists _, _. split; [done|]. split; [done|apply frame_refl].
  - pose proof (frame_emission_read m s) as Hf.
    destruct (getitem_default [] (emission_counts m) s).
    eexists _, _. split; [done|]. by split.
Qed.

(** The values looked up do not depend on the rows a read may add. *)
Lemma log_transition_value_frame (m m' : HMM) (p n : string) :
  frame m m' → log_transition_value m' p n = log_transition_value m p n.
Proof.
  intros Hf. rewrite !log_transition_value_eq.
  rewrite (frame_transition_log_probs _ _ Hf), (frame_transition_totals _ _ Hf).
  unfold count2. by rewrite (frame_transition_counts _ _ Hf).
Qed.

End MonadFacts.

(** ** The Viterbi loops *)

Section ViterbiFacts.

Context {LA : LogArith}.
Local Abbreviation HMM := (SpellCheckerHMM LA).

Local Ltac step_lookup lem :=
  apply returns_bind; eapply returns_mono; [apply lem|];
  simpl; intros ? ? [-> ?].

Lemma init_loop_returns (m0 : HMM) (first_obs : string) :
  ∀ sts row path m,
    frame m0 m →
    returns (init_loop sts first_obs row path) m
      (fun rp m' =>
         frame m0 m' ∧
         ∀ s, get (snd rp) s =
              if decide (s ∈ sts) then Some [s] else get path s).
Proof.
  induction sts as [|state rest IH]; intros row path m Hf; simpl.
  - apply returns_ret. split; [done|]. intros s.
    destruct (decide (s ∈ [])) as [Hin|]; [|done].
    by apply not_elem_of_nil in Hin.
  - apply returns_bind, returns_gets.
    step_lookup log_emission_returns.
    eapply returns_mono.
    { apply IH. by eapply frame_trans. }
    intros [row' path'] m'' [Hf' Hs]. split; [done|]. simpl in *.
    intros s. rewrite Hs.
    destruct (decide (s ∈ rest)) as [Hin|Hnin].
    + rewrite decide_True; [done|]. by right.
    + rewrite get_set. destruct (decide (state = s)) as [->|Hne].
      * rewrite decide_True; [done|]. by left.
      * rewrite decide_False; [done|].
        intros [->|?]%elem_of_cons; done.
Qed.

Lemma best_prev_loop_returns (m0 : HMM) (path : dict (list string))
    (prev_row : dict F) (curr : string) :
  ∀ sts bp bs m,
    frame m0 m →
    (∀ p, bp = Some p → is_Some (get path p)) →
    returns (best_prev_loop sts path prev_row curr bp bs) m
      (fun r m' => frame m0 m' ∧ ∀ p, fst r = Some p → is_Some (get path p)).
Proof.
  induction sts as [|prev rest IH]; intros bp bs m Hf Hbp; simpl.
  - by apply returns_ret.
  - unfold mem. destruct (get path prev) as [pp|] eqn:Epath; simpl; [|by apply IH].
    destruct (get prev_row prev) as [prev_score|]; [|by apply IH].
    step_lookup log_transition_returns.
    destruct (flt bs _).
    + apply IH; [by eapply frame_trans|]. intros p [= <-]. by rewrite Epath.
    + apply IH; [by eapply frame_trans|done].
Qed.

Lemma curr_loop_returns (m0 : HMM) (all : list string) (obs : string)
    (path : dict (list string)) (prev_row : dict F) (n : nat) :
  (∀ s p, get path s = Some p → length p = n ∧ Forall (fun x => x ∈ all) p) →
  ∀ sts (Q : string → Prop) row np m,
    frame m0 m →
    (∀ s, s ∈ sts → s ∈ all) →
    (∀ s, Q s → get np s = None → get row s = Some ninf) →
    (∀ s p, get np s = Some p →
            length p = S n ∧ Forall (fun x => x ∈ all) p) →
    returns (curr_loop sts all obs path prev_row row np) m
      (fun r m' =>
         frame m0 m' ∧
         (∀ s, Q s ∨ s ∈ sts → get (snd r) s = None →
               get (fst r) s = Some ninf) ∧
         (∀ s p, get (snd r) s = Some p →
                 length p = S n ∧ Forall (fun x => x ∈ all) p)).
Proof.
  intros Hpath.
  induction sts as [|curr rest IH]; intros Q row np m Hf Hsub HQ Hnp; simpl.
  - apply returns_ret. split; [done|]. split; [|done].
    intros s [?|Hin]; [auto|]. by apply not_elem_of_nil in Hin.
  - step_lookup log_emission_returns.
    apply returns_bind. eapply returns_mono.
    { apply (best_prev_loop_returns m0); [by eapply frame_trans|done]. }
    intros [best_prev best_score] m2 [Hf2 Hbp]. simpl in Hbp.
    destruct best_prev as [bp|].
    + destruct (Hbp bp eq_refl) as [p Ep].
      apply returns_bind. eapply returns_must; [done|].
      eapply returns_mono.
      { apply (IH (fun s => Q s ∨ s = curr)); [done| |..].
        - intros s Hs. apply Hsub. by right.
        - intros s HQs. rewrite !get_set.
          destruct (decide (curr = s)) as [->|Hne]; [done|].
          destruct HQs as [? | ->]; [auto|done].
        - intros s q. rewrite get_set.
          destruct (decide (curr = s)) as [->|Hne]; [|apply Hnp].
          intros [= <-]. destruct (Hpath _ _ Ep) as [Hlen Hall].
          split.
          + rewrite length_app. simpl. lia.
          + apply Forall_app. split; [done|].
            constructor; [|done]. apply Hsub. by left. }
      intros [row' np'] m3 (Hf3 & Hrow & Hnp'). split; [done|].
      split; [|done]. intros s Hs. apply Hrow.
      destruct Hs as [?|[->|?]%elem_of_cons]; auto.
    + eapply returns_mono.
      { apply (IH (fun s => Q s ∨ s = curr)); [done| | |done].
        - intros s Hs. apply Hsub. by right.
        - intros s HQs Hnone. rewrite get_set.
          destruct (decide (curr = s)) as [->|Hne]; [done|].
          destruct HQs as [? | ->]; [auto|done]. }
      intros [row' np'] m3 (Hf3 & Hrow & Hnp'). split; [done|].
      split; [|done]. intros s Hs. apply Hrow.
      destruct Hs as [?|[->|?]%elem_of_cons]; auto.
Qed.


Lemma index_loop_returns (m0 : HMM) :
  ∀ obs index viterbi path m,
    frame m0 m →
    (1 ≤ index)%nat →
    length viterbi = (index + length obs)%nat →
    (∃ row, viterbi !! (index - 1)%nat = Some row ∧
            viterbi_inv (states m0) (index - 1) row path) →
    returns (index_loop index obs viterbi path) m
      (fun r m' =>
         frame m0 m' ∧
         ∃ row, fst r !! (index + length obs - 1)%nat = Some row ∧
                viterbi_inv (states m0) (index + length obs - 1) row (snd r)).
Proof.
  induction obs as [|obs_char rest IH];
    intros index viterbi path m Hf Hidx Hlen (prev_row & Hprev & Hinv); simpl.
  - apply returns_ret. split; [done|]. exists prev_row. simpl.
    by rewrite Nat.add_0_r.
  - apply returns_bind, returns_gets.
    rewrite (frame_states _ _ Hf).
    apply returns_bind. eapply returns_must; [done|].
    destruct (lookup_lt_is_Some_2 viterbi index) as [row0 Hrow0];
      [simpl in Hlen; lia|].
    apply returns_bind. eapply returns_must; [done|].
    apply returns_bind. eapply returns_mono.
    { apply (curr_loop_returns m0 (states m0) obs_char path prev_row index)
        with (Q := fun _ => False); try done.
      - intros s p Hp. destruct Hinv as [_ Hinv2].
        destruct (Hinv2 _ _ Hp) as [Hl ?]. split; [lia|done]. }
    intros [row new_path] m1 (Hf1 & Hrow & Hnp). simpl in *.
    eapply returns_mono.
    { apply IH; [done|lia|rewrite length_insert; lia|].
      exists row. split.
      - replace (S index - 1)%nat with index by lia.
        apply list_lookup_insert_eq. lia.
      - replace (S index - 1)%nat with index by lia.
        split; [|done]. intros s Hs. apply Hrow. by right. }
    intros [viterbi' path'] m2 (Hf2 & row' & Hrow' & Hinv'). split; [done|].
    exists row'. simpl in *.
    replace (index + S (length rest) - 1)%nat
      with (S index + length rest - 1)%nat by lia.
    done.
Qed.

Lemma viterbi_forward_returns (m : HMM) (observed : string) :
  observed ≠ EmptyString →
  returns (viterbi_forward (states m) observed) m
    (fun r m' =>
       frame m m' ∧
       ∃ row, fst r !! (String.length observed - 1)%nat = Some row ∧
              viterbi_inv (states m) (String.length observed - 1) row (snd r)).
Proof.
  intros Hne. unfold viterbi_forward.
  destruct observed as [|c rest]; [done|]. simpl.
  apply returns_bind, returns_ret.
  apply returns_bind, returns_ret.
  apply returns_bind. eapply returns_mono.
  { apply (init_loop_returns m). apply frame_refl. }
  intros [row path] m1 [Hf1 Hpath]. simpl in *.
  eapply returns_mono.
  { apply (index_loop_returns m); [done|lia| |].
    - rewrite drop_0, PyStrFacts.length_chars. simpl.
      by rewrite length_replicate.
    - exists row. split; [done|]. split.
      + intros s Hs. rewrite Hpath. by rewrite decide_True.
      + intros s p. rewrite Hpath.
        destruct (decide (s ∈ states m)); [|done].
        intros [= <-]. split; [done|]. by constructor. }
  intros [viterbi path'] m2 (Hf2 & row' & Hrow' & Hinv'). split; [done|].
  exists row'. simpl in Hrow', Hinv' |- *.
  rewrite drop_0, PyStrFacts.length_chars in Hrow', Hinv'.
  by rewrite Nat.sub_0_r in *.
Qed.

Lemma final_loop_returns (m0 : HMM) (last_row : dict F) :
  ∀ sts fs fsc m,
    frame m0 m →
    returns (final_loop sts last_row fs fsc) m
      (fun r m' =>
         frame m0 m' ∧
         ∀ s, r = Some s →
              r = fs ∨
              (s ∈ sts ∧
               ∃ sc y, get last_row s = Some sc ∧
                       flt y (fadd sc (log_transition_value m0 s END_STATE))
                       = true)).
Proof.
  induction sts as [|state rest IH]; intros fs fsc m Hf; simpl.
  - apply returns_ret. split; [done|]. auto.
  - destruct (get last_row state) as [sc|] eqn:Esc.
    2:{ eapply returns_mono; [by apply IH|].
        intros r mf [Hf' Hr]. split; [done|].
        intros s Hs. destruct (Hr s Hs) as [->|[? ?]]; [by left|].
        right. split; [by right|done]. }
    step_lookup log_transition_returns.
    rewrite (log_transition_value_frame m0 m) by done.
    destruct (flt fsc _) eqn:Eflt.
    + eapply returns_mono; [apply IH; by eapply frame_trans|].
      intros r mf [Hf' Hr]. split; [done|].
      intros s Hs. destruct (Hr s Hs) as [->|[? ?]].
      * right. inversion Hs; subst. split; [by left|eauto].
      * right. split; [by right|done].
    + eapply returns_mono; [apply IH; by eapply frame_trans|].
      intros r mf [Hf' Hr]. split; [done|].
      intros s Hs. destruct (Hr s Hs) as [->|[? ?]]; [by left|].
      right. split; [by right|done].
Qed.

(** When no state has a finite total score, the termination loop leaves
    [final_state] at [None]. *)
Lemma final_loop_none (m0 : HMM) (last_row : dict F) :
  ∀ sts m,
    frame m0 m →
    (∀ s sc, s ∈ sts → get last_row s = Some sc →
       flt ninf (fadd sc (log_transition_value m0 s END_STATE)) = false) →
    returns (final_loop sts last_row None ninf) m
      (fun r m' => r = None ∧ frame m0 m').
Proof.
  induction sts as [|state rest IH]; intros m Hf Hall; simpl.
  - by apply returns_ret.
  - destruct (get last_row state) as [sc|] eqn:Esc.
    + step_lookup log_transition_returns.
      rewrite (log_transition_value_frame m0 m) by done.
      rewrite (Hall state sc); [|by left|done].
      apply IH; [by eapply frame_trans|].
      intros s sc' Hs. apply Hall. by right.
    + apply IH; [done|]. intros s sc' Hs. apply Hall. by right.
Qed.


(** The search, step by step: the forward pass and the termination loop
    always return; only [path[final_state]] can raise. *)
Lemma viterbi_search_cases (m : HMM) (observed : string) :
  observed ≠ EmptyString →
  ∃ viterbi path m1 last_row fs m2,
    viterbi_forward (states m) observed m = Some ((viterbi, path), m1) ∧
    viterbi !! (String.length observed - 1)%nat = Some last_row ∧
    viterbi_inv (states m) (String.length observed - 1) last_row path ∧
    frame m m1 ∧
    final_loop (states m) last_row None ninf m1 = Some (fs, m2) ∧
    frame m m2 ∧
    (∀ s, fs = Some s →
          s ∈ states m ∧
          ∃ sc y, get last_row s = Some sc ∧
                  flt y (fadd sc (log_transition_value m s END_STATE)) = true) ∧
    viterbi_search (states m) observed m =
      match fs with
      | None => Some (None, m2)
      | Some s => match get path s with
                  | Some p => Some (Some p, m2)
                  | None => None
                  end
      end.
Proof.
  intros Hne.
  destruct (viterbi_forward_returns m observed Hne)
    as ([viterbi path] & m1 & Hfw & Hf1 & last_row & Hlast & Hinv).
  simpl in Hlast, Hinv.
  destruct (final_loop_returns m last_row (states m) None ninf m1 Hf1)
    as (fs & m2 & Hfl & Hf2 & Hfs).
  exists viterbi, path, m1, last_row, fs, m2.
  do 6 (split; [done|]). split.
  - intros s Hs. destruct (Hfs s Hs) as [?|[? ?]]; [congruence|done].
  - unfold viterbi_search, bind. rewrite Hfw. unfold must.
    rewrite Hlast. unfold ret at 1. rewrite Hfl.
    destruct fs as [s|]; [|done]. by destruct (get path s).
Qed.

Lemma viterbi_search_partial (m : HMM) (observed : string) r m' :
  observed ≠ EmptyString →
  viterbi_search (states m) observed m = Some (r, m') →
  frame m m' ∧
  ∀ p, r = Some p →
       length p = String.length observed ∧
       Forall (fun x => x ∈ states m) p.
Proof.
  intros Hne Hs.
  destruct (viterbi_search_cases m observed Hne)
    as (viterbi & path & m1 & last_row & fs & m2 &
        _ & _ & [_ Hinv] & _ & _ & Hf2 & _ & Heq).
  rewrite Heq in Hs. destruct fs as [s|].
  - destruct (get path s) as [p|] eqn:Ep; [|done].
    inversion Hs; subst. split; [done|]. intros ? [= <-].
    destruct (Hinv _ _ Ep) as [Hlen Hall]. split; [|done].
    destruct observed; [done|]. simpl in *. lia.
  - inversion Hs; subst. by split.
Qed.

(** With IEEE's [-inf + x] never greater than anything, the winning
    state always has a path: the search does not raise. *)
Lemma viterbi_search_total (m : HMM) (observed : string) :
  (∀ x y, flt y (fadd ninf x) = false) →
  observed ≠ EmptyString →
  ∃ r m', viterbi_search (states m) observed m = Some (r, m').
Proof.
  intros Hlaw Hne.
  destruct (viterbi_search_cases m observed Hne)
    as (viterbi & path & m1 & last_row & fs & m2 &
        _ & _ & [Hinv _] & _ & _ & _ & Hfs & Heq).
  rewrite Heq. destruct fs as [s|]; [|eauto].
  destruct (Hfs s eq_refl) as (Hin & sc & y & Hsc & Hgt).
  destruct (get path s) as [p|] eqn:Ep; [eauto|].
  rewrite (Hinv s Hin Ep) in Hsc. inversion Hsc; subst.
  by rewrite Hlaw in Hgt.
Qed.

(** *** [decode_word] *)

Lemma decode_word_eq (w : string) (m : HMM) :
  decode_word w m =
  if negb (PyStr.nonempty w) || negb (bool_decide (states m ≠ []))
  then Some (w, m)
  else match viterbi_search (states m) (PyStr.lower w) m with
       | None => None
       | Some (None, m') => Some (w, m')
       | Some (Some p, m') => restore_case w (PyStr.join "" p) m'
       end.
Proof.
  unfold decode_word, bind, gets.
  destruct (_ || _); [done|].
  destruct (viterbi_search _ _ _) as [[[p|] m']|]; done.
Qed.

Lemma restore_case_eq (c : ascii) (r d : string) (m : HMM) :
  restore_case (String c r) d m =
  Some (if PyStr.isupper (String c r) then PyStr.upper d
        else if PyStr.isupper (String c EmptyString) then PyStr.capitalize d
        else d, m).
Proof.
  unfold restore_case. destruct (PyStr.isupper (String c r)); [done|].
  simpl. unfold bind, ret. by destruct (PyStr.isupper _).
Qed.

Lemma length_restore_case (w d r : string) (m m' : HMM) :
  restore_case w d m = Some (r, m') →
  (PyStr.isascii d = true → String.length r = String.length d) ∧ m' = m.
Proof.
  destruct w as [|c w].
  - unfold restore_case. simpl. done.
  - rewrite restore_case_eq. intros [= <- <-]. split; [|done].
    intros Hd. destruct (PyStr.isupper (String c w)).
    + by apply PyStrFacts.length_upper.
    + destruct (PyStr.isupper _); [by apply PyStrFacts.length_capitalize|done].
Qed.

Lemma decode_word_frame (w : string) (m : HMM) r m' :
  decode_word w m = Some (r, m') → frame m m'.
Proof.
  rewrite decode_word_eq.
  destruct (negb (PyStr.nonempty w)) eqn:Ew; simpl.
  { intros [= <- <-]. apply frame_refl. }
  destruct (bool_decide _); simpl; [|intros [= <- <-]; apply frame_refl].
  destruct (viterbi_search _ _ _) as [[res m1]|] eqn:Es; [|done].
  apply viterbi_search_partial in Es as [Hf _].
  2:{ destruct w; [done|]. done. }
  destruct res as [p|]; [|by intros [= <- <-]].
  intros Hr. by apply length_restore_case in Hr as [_ ->].
Qed.

Lemma decode_words_frame (ws : list string) :
  ∀ (m : HMM) r m', decode_words ws m = Some (r, m') → frame m m'.
Proof.
  induction ws as [|w ws IH]; intros m r m'; simpl.
  - intros [= <- <-]. apply frame_refl.
  - unfold bind. destruct (decode_word w m) as [[x m1]|] eqn:E1; [|done].
    destruct (decode_words ws m1) as [[xs m2]|] eqn:E2; [|done].
    intros [= <- <-]. eapply frame_trans; [by eapply decode_word_frame|eauto].
Qed.

Lemma decode_text_frame (t : string) (m : HMM) r m' :
  decode_text t m = Some (r, m') → frame m m'.
Proof.
  unfold decode_text, bind.
  destruct (decode_words _ m) as [[xs m1]|] eqn:E; [|done].
  intros [= <- <-]. by eapply decode_words_frame.
Qed.

End ViterbiFacts.

(** ** The counting pass *)

Section CountFacts.

Import Spec.

Lemma filter_seq_shift (P : nat → bool) (j n : nat) :
  length (filter (fun i => P i = true) (seq (S j) n)) =
  length (filter (fun i => P (S i) = true) (seq j n)).
Proof.
  revert j. induction n as [|n IH]; intros j; [done|]. simpl seq.
  rewrite !filter_cons.
  destruct (decide (P (S j) = true)); simpl; by rewrite IH.
Qed.

Lemma count_indices_0 (P : nat → bool) : count_indices 0 P = 0.
Proof. done. Qed.

Lemma count_indices_S (n : nat) (P : nat → bool) :
  count_indices (S n) P = indicator (P 0%nat) + count_indices n (fun i => P (S i)).
Proof.
  unfold count_indices. simpl seq. rewrite filter_cons.
  rewrite <- filter_seq_shift.
  destruct (decide (P 0%nat = true)) as [->|Hn]; simpl length.
  - simpl. lia.
  - destruct (P 0%nat); [done|]. simpl. lia.
Qed.

Lemma count_indices_ext (n : nat) (P P' : nat → bool) :
  (∀ i, (i < n)%nat → P i = P' i) → count_indices n P = count_indices n P'.
Proof.
  revert P P'. induction n as [|n IH]; intros P P' H; [done|].
  rewrite !count_indices_S, (H 0%nat) by lia.
  f_equal. apply IH. intros i Hi. apply H. lia.
Qed.

Lemma bool_decide_Some_eq (x y : string) :
  bool_decide (Some x = Some y) = bool_decide (x = y).
Proof. apply bool_decide_ext. split; congruence. Qed.

Lemma indicator_decide (P : Prop) `{!Decision P} :
  indicator (bool_decide P) = if decide P then 1 else 0.
Proof. unfold indicator. by destruct (decide P); [rewrite bool_decide_true|rewrite bool_decide_false]. Qed.

End CountFacts.

Section TrainFacts.

Context {LA : LogArith}.
Local Abbreviation HMM := (SpellCheckerHMM LA).
Import Spec.

(** *** What each loop of the counting pass touches *)

Lemma count_transitions_shape (letters : list string) :
  ∀ m : HMM,
    count_transitions m letters =
    mkHMM (states m) (state_set m) (start_counts m) (start_total m)
      (transition_counts (count_transitions m letters))
      (transition_totals (count_transitions m letters))
      (emission_counts m) (emission_totals m)
      (start_log_probs m) (transition_log_probs m) (emission_log_probs m).
Proof.
  induction letters as [|curr rest IH]; intros m; [by destruct m|].
  destruct rest as [|nxt rest]; [by destruct m|].
  change (count_transitions m (curr :: nxt :: rest))
    with (count_transitions (add_transition m curr nxt) (nxt :: rest)).
  etrans; [apply IH|done].
Qed.

Lemma count_emissions_shape (letters typed : list string) :
  ∀ (idx : nat) (m : HMM),
    count_emissions m idx letters typed =
    mkHMM (states m) (state_set m) (start_counts m) (start_total m)
      (transition_counts m) (transition_totals m)
      (emission_counts (count_emissions m idx letters typed))
      (emission_totals (count_emissions m idx letters typed))
      (start_log_probs m) (transition_log_probs m) (emission_log_probs m).
Proof.
  induction letters as [|state_char rest IH]; intros idx m; [by destruct m|].
  simpl. destruct (typed !! idx) as [typed_char|].
  - etrans; [apply IH|done].
  - apply IH.
Qed.

Lemma count_transitions_counts (letters : list string) (a b : string) :
  ∀ m : HMM,
    count2 (transition_counts (count_transitions m letters)) a b =
    count2 (transition_counts m) a b +
    count_indices (length letters - 1)
      (fun i => bool_decide (letters !! i = Some a)
                && bool_decide (letters !! S i = Some b)).
Proof.
  induction letters as [|curr rest IH]; intros m;
    [simpl; rewrite count_indices_0; lia|].
  destruct rest as [|nxt rest]; [simpl; rewrite count_indices_0; lia|].
  change (count_transitions m (curr :: nxt :: rest))
    with (count_transitions (add_transition m curr nxt) (nxt :: rest)).
  rewrite IH. simpl transition_counts. rewrite count2_incr2.
  replace (length (curr :: nxt :: rest) - 1)%nat
    with (S (length (nxt :: rest) - 1)) by (simpl; lia).
  rewrite count_indices_S. simpl lookup.
  rewrite !bool_decide_Some_eq.
  assert (indicator (bool_decide (curr = a) && bool_decide (nxt = b))
          = if decide (curr = a ∧ nxt = b) then 1 else 0) as ->.
  { destruct (decide (curr = a ∧ nxt = b)) as [[-> ->]|Hn].
    - by rewrite !bool_decide_true.
    - destruct (decide (curr = a)) as [->|?].
      + rewrite (bool_decide_false (nxt = b)); [by rewrite andb_false_r|tauto].
      + by rewrite bool_decide_false. }
  lia.
Qed.

Lemma count_emissions_counts (letters typed : list string) (a o : string) :
  ∀ (idx : nat) (m : HMM),
    count2 (emission_counts (count_emissions m idx letters typed)) a o =
    count2 (emission_counts m) a o +
    count_indices (length letters)
      (fun i => bool_decide (idx + i < length typed)%nat
                && bool_decide (letters !! i = Some a)
                && bool_decide (typed !! (idx + i)%nat = Some o)).
Proof.
  induction letters as [|state_char rest IH]; intros idx m;
    [simpl; rewrite count_indices_0; lia|].
  simpl count_emissions. simpl length. rewrite count_indices_S.
  rewrite Nat.add_0_r. simpl lookup.
  rewrite (count_indices_ext _ _
    (fun i => bool_decide (S idx + i < length typed)%nat
              && bool_decide (rest !! i = Some a)
              && bool_decide (typed !! (S idx + i)%nat = Some o))).
  2:{ intros i _. by rewrite Nat.add_succ_r. }
  destruct (typed !! idx) as [typed_char|] eqn:Et.
  - rewrite IH. simpl emission_counts. rewrite count2_incr2.
    rewrite (bool_decide_true (idx < length typed)%nat)
      by (by eapply lookup_lt_Some).
    rewrite !bool_decide_Some_eq. simpl.
    assert (indicator (bool_decide (state_char = a) && bool_decide (typed_char = o))
            = if decide (state_char = a ∧ typed_char = o) then 1 else 0) as ->.
    { destruct (decide (state_char = a ∧ typed_char = o)) as [[-> ->]|Hn].
      - by rewrite !bool_decide_true.
      - destruct (decide (state_char = a)) as [->|?].
        + rewrite (bool_decide_false (typed_char = o));
            [by rewrite andb_false_r|tauto].
        + by rewrite bool_decide_false. }
    lia.
  - rewrite IH.
    rewrite (bool_decide_false (idx < length typed)%nat).
    + simpl. lia.
    + apply lookup_ge_None in Et. lia.
Qed.


(** *** One pair *)

Lemma train_pair_cases (p : string * string) :
  (kept p = false ∧ ∀ m : HMM, train_pair m p = m) ∨
  (∃ first rest last_state,
     kept p = true ∧ letters p = first :: rest ∧
     last (letters p) = Some last_state ∧
     ∀ m : HMM,
       train_pair m p =
       count_emissions
         (add_transition
            (count_transitions
               (add_start
                  (with_state_set m (state_set m ∪ list_to_set (letters p)))
                  first)
               (letters p))
            last_state END_STATE)
         0 (letters p) (typed p)).
Proof.
  destruct p as [c t].
  unfold kept, letters, typed, normalise, train_pair. simpl fst. simpl snd.
  destruct (PyStr.lower (PyStr.strip c)) as [|c0 r]; [by left|].
  destruct (PyStr.lower (PyStr.strip t)) as [|t0 tr].
  { left. split; [|done]. by rewrite andb_false_r. }
  right. simpl PyStr.chars.
  destruct (last (String c0 "" :: PyStr.chars r)) as [l|] eqn:El.
  - exists (String c0 ""), (PyStr.chars r), l.
    split; [by rewrite !bool_decide_true|].
    split; [done|]. split; [done|].
    intros m. simpl. by rewrite El.
  - by apply last_None in El.
Qed.

Lemma count_transitions_with_derived (letters : list string) (x : HMM) S :
  ∀ m : HMM,
    count_transitions (with_derived m x S) letters =
    with_derived (count_transitions m letters) x S.
Proof.
  induction letters as [|curr rest IH]; intros m; [done|].
  destruct rest as [|nxt rest]; [done|].
  change (count_transitions (with_derived m x S) (curr :: nxt :: rest))
    with (count_transitions (with_derived (add_transition m curr nxt) x S)
            (nxt :: rest)).
  by rewrite IH.
Qed.

Lemma count_emissions_with_derived (letters typed : list string) (x : HMM) S :
  ∀ idx (m : HMM),
    count_emissions (with_derived m x S) idx letters typed =
    with_derived (count_emissions m idx letters typed) x S.
Proof.
  induction letters as [|c rest IH]; intros idx m; [done|].
  simpl. destruct (typed !! idx) as [tc|]; [|apply IH].
  change (add_emission (with_derived m x S) c tc)
    with (with_derived (add_emission m c tc) x S).
  apply IH.
Qed.

(** The counting pass reads neither [states] nor the log tables, and
    only adds to the alphabet. *)
Lemma train_pair_with_derived (m x : HMM) S (p : string * string) :
  train_pair (with_derived m x S) p =
  with_derived (train_pair m p) x (S ∪ pair_alphabet p).
Proof.
  unfold pair_alphabet.
  destruct (train_pair_cases p) as [[-> H]|(f & r & l & -> & _ & _ & H)];
    rewrite !H.
  - by rewrite (right_id_L ∅ (∪)).
  - change (add_start (with_state_set (with_derived m x S) _) f)
      with (with_derived
              (add_start
                 (with_state_set m (state_set m ∪ list_to_set (letters p))) f)
              x (S ∪ list_to_set (letters p))).
    rewrite count_transitions_with_derived.
    change (add_transition (with_derived ?a x ?T) l END_STATE)
      with (with_derived (add_transition a l END_STATE) x T).
    by rewrite count_emissions_with_derived.
Qed.

Lemma train_loop_with_derived (pairs : list (string * string)) :
  ∀ (m x : HMM) S,
    train_loop (with_derived m x S) pairs =
    with_derived (train_loop m pairs) x (S ∪ alphabet pairs).
Proof.
  unfold train_loop.
  induction pairs as [|p pairs IH]; intros m x S; simpl.
  - by rewrite (right_id_L ∅ (∪)).
  - rewrite train_pair_with_derived, IH. by rewrite (assoc_L (∪)).
Qed.

Lemma with_derived_self (m : HMM) : with_derived m m (state_set m) = m.
Proof. by destruct m. Qed.

Lemma train_loop_state_set (m : HMM) (pairs : list (string * string)) :
  state_set (train_loop m pairs) = state_set m ∪ alphabet pairs.
Proof.
  rewrite <- (with_derived_self m) at 1.
  by rewrite train_loop_with_derived.
Qed.


(** *** The counts one pair adds *)

Lemma train_pair_start (m : HMM) (p : string * string) (s : string) :
  get_or (start_counts (train_pair m p)) s 0 =
  get_or (start_counts m) s 0 + pair_start p s.
Proof.
  unfold pair_start.
  destruct (train_pair_cases p) as [[-> H]|(f & r & l & -> & Hl & _ & H)];
    rewrite H; [lia|].
  rewrite count_emissions_shape. simpl start_counts.
  rewrite count_transitions_shape. simpl start_counts.
  rewrite get_or_incr, Hl. simpl lookup.
  by rewrite bool_decide_Some_eq, indicator_decide.
Qed.

Lemma train_pair_transition (m : HMM) (p : string * string) (a b : string) :
  count2 (transition_counts (train_pair m p)) a b =
  count2 (transition_counts m) a b + pair_transition p a b.
Proof.
  unfold pair_transition.
  destruct (train_pair_cases p) as [[-> H]|(f & r & l & -> & Hl & Hlast & H)];
    rewrite H; [lia|].
  rewrite count_emissions_shape. simpl transition_counts.
  rewrite count2_incr2, count_transitions_counts. simpl transition_counts.
  rewrite Hlast, bool_decide_Some_eq.
  assert (indicator (bool_decide (l = a) && bool_decide (b = END_STATE))
          = if decide (l = a ∧ END_STATE = b) then 1 else 0) as ->; [|lia].
  destruct (decide (l = a ∧ END_STATE = b)) as [[-> <-]|Hn].
  - by rewrite !bool_decide_true.
  - destruct (decide (l = a)) as [->|?].
    + rewrite (bool_decide_false (b = END_STATE));
        [by rewrite andb_false_r|]. intros ->. tauto.
    + by rewrite bool_decide_false.
Qed.

Lemma train_pair_emission (m : HMM) (p : string * string) (a o : string) :
  count2 (emission_counts (train_pair m p)) a o =
  count2 (emission_counts m) a o + pair_emission p a o.
Proof.
  unfold pair_emission.
  destruct (train_pair_cases p) as [[-> H]|(f & r & l & -> & Hl & Hlast & H)];
    rewrite H; [lia|].
  rewrite count_emissions_counts. simpl emission_counts.
  rewrite count_transitions_shape. simpl emission_counts.
  done.
Qed.

Lemma train_loop_counts (pairs : list (string * string)) :
  ∀ m : HMM,
    (∀ s, get_or (start_counts (train_loop m pairs)) s 0 =
          get_or (start_counts m) s 0 + total (fun p => pair_start p s) pairs) ∧
    (∀ a b, count2 (transition_counts (train_loop m pairs)) a b =
            count2 (transition_counts m) a b
            + total (fun p => pair_transition p a b) pairs) ∧
    (∀ a o, count2 (emission_counts (train_loop m pairs)) a o =
            count2 (emission_counts m) a o
            + total (fun p => pair_emission p a o) pairs).
Proof.
  unfold train_loop.
  induction pairs as [|p pairs IH]; intros m; simpl.
  - split_and!; intros; lia.
  - destruct (IH (train_pair m p)) as (H1 & H2 & H3).
    split_and!; intros.
    + rewrite H1, train_pair_start. lia.
    + rewrite H2, train_pair_transition. lia.
    + rewrite H3, train_pair_emission. lia.
Qed.

(** *** Rows stay present *)

Lemma rows_present_incr (totals : dict Z) (counts : dict (dict Z)) (k b : string) :
  rows_present totals counts → rows_present (incr totals k) (incr2 counts k b).
Proof.
  intros Hrp k' Hk'. apply get_incr2_is_Some.
  destruct (decide (k = k')) as [|Hne]; [by left|right].
  apply Hrp. rewrite get_or_incr, decide_False in Hk' by done.
  by rewrite Z.add_0_r in Hk'.
Qed.

Lemma count_transitions_rows (letters : list string) :
  ∀ m : HMM,
    rows_present (transition_totals m) (transition_counts m) →
    rows_present (transition_totals (count_transitions m letters))
      (transition_counts (count_transitions m letters)).
Proof.
  induction letters as [|curr rest IH]; intros m Hm; [done|].
  destruct rest as [|nxt rest]; [done|].
  change (count_transitions m (curr :: nxt :: rest))
    with (count_transitions (add_transition m curr nxt) (nxt :: rest)).
  apply IH. simpl. by apply rows_present_incr.
Qed.

Lemma count_emissions_rows (letters typed : list string) :
  ∀ idx (m : HMM),
    rows_present (emission_totals m) (emission_counts m) →
    rows_present (emission_totals (count_emissions m idx letters typed))
      (emission_counts (count_emissions m idx letters typed)).
Proof.
  induction letters as [|c rest IH]; intros idx m Hm; [done|].
  simpl. destruct (typed !! idx) as [tc|]; [|by apply IH].
  apply IH. simpl. by apply rows_present_incr.
Qed.

Lemma train_pair_rows_ok (m : HMM) (p : string * string) :
  rows_ok m → rows_ok (train_pair m p).
Proof.
  intros [Ht He].
  destruct (train_pair_cases p) as [[_ H]|(f & r & l & _ & _ & _ & H)];
    rewrite H; [done|].
  split.
  - rewrite count_emissions_shape. simpl.
    apply rows_present_incr, count_transitions_rows. done.
  - apply count_emissions_rows. simpl.
    rewrite count_transitions_shape. done.
Qed.

Lemma train_loop_rows_ok (pairs : list (string * string)) :
  ∀ m : HMM, rows_ok m → rows_ok (train_loop m pairs).
Proof.
  unfold train_loop.
  induction pairs as [|p pairs IH]; intros m Hm; [done|].
  simpl. by apply IH, train_pair_rows_ok.
Qed.


(** *** Finalization *)

Lemma get_set2_ne {V} (d : dict (dict V)) (a b k : string) (v : V) :
  a ≠ k → get (set2 d a b v) k = get d k.
Proof.
  intros Hne. unfold set2, getitem_default.
  destruct (get _ a); cbv beta iota; by rewrite !get_set_ne.
Qed.

Lemma get_finalize_row_ne (prev : string) (total : Z) (row : dict Z) (k : string) :
  prev ≠ k →
  ∀ lp : dict (dict F), get (finalize_row prev total row lp) k = get lp k.
Proof.
  intros Hne. unfold finalize_row.
  induction row as [|[next count] row IH]; intros lp; simpl; [done|].
  rewrite IH. destruct (count =? 0); [done|]. by apply get_set2_ne.
Qed.

Lemma finalize_table_same_rows (sts : list string) (totals : dict Z)
    (counts : dict (dict Z)) :
  same_rows counts (fst (finalize_table sts totals counts)).
Proof.
  unfold finalize_table. generalize ([] : dict (dict F)) as lp.
  revert counts. induction sts as [|prev sts IH]; intros counts lp k; simpl.
  - done.
  - destruct (get_or totals prev 0 =? 0); [apply IH|].
    pose proof (getitem_default_get [] counts prev k) as Hk.
    destruct (getitem_default [] counts prev) as [row counts'].
    simpl in Hk. etrans; [apply IH|exact Hk].
Qed.

Lemma finalize_table_present (sts : list string) (totals : dict Z)
    (counts : dict (dict Z)) :
  rows_present totals counts →
  fst (finalize_table sts totals counts) = counts.
Proof.
  intros Hrp. unfold finalize_table. generalize ([] : dict (dict F)) as lp.
  induction sts as [|prev sts IH]; intros lp; simpl; [done|].
  destruct (get_or totals prev 0 =? 0) eqn:E; [apply IH|].
  apply Z.eqb_neq in E.
  pose proof (getitem_default_present [] counts prev (Hrp prev E)) as Hp.
  destruct (getitem_default [] counts prev) as [row counts'].
  simpl in Hp. subst. apply IH.
Qed.

(** Only states with a nonzero total get a row of log-probabilities. *)
Lemma finalize_table_keys (sts : list string) (totals : dict Z)
    (counts : dict (dict Z)) (k : string) :
  is_Some (get (snd (finalize_table sts totals counts)) k) →
  k ∈ sts ∧ get_or totals k 0 ≠ 0.
Proof.
  unfold finalize_table.
  assert (∀ (counts : dict (dict Z)) (lp : dict (dict F)),
            is_Some (get (snd (fold_left
              (fun '(counts, lp) prev_state =>
                 let total := get_or totals prev_state 0 in
                 if total =? 0 then (counts, lp)
                 else
                   let '(row, counts') := getitem_default [] counts prev_state in
                   (counts', finalize_row prev_state total row lp))
              sts (counts, lp))) k) →
            is_Some (get lp k) ∨ (k ∈ sts ∧ get_or totals k 0 ≠ 0)) as Hgen.
  { induction sts as [|prev sts IH]; intros cs lp; simpl; [auto|].
    destruct (get_or totals prev 0 =? 0) eqn:E.
    - intros H. destruct (IH _ _ H) as [?|[? ?]]; [auto|].
      right. split; [by right|done].
    - destruct (getitem_default [] cs prev) as [row cs'].
      intros H. destruct (IH _ _ H) as [Hs|[? ?]].
      + destruct (decide (prev = k)) as [<-|Hne].
        * right. split; [by left|]. by apply Z.eqb_neq.
        * left. by rewrite get_finalize_row_ne in Hs.
      + right. split; [by right|done]. }
  intros H. destruct (Hgen _ _ H) as [[? Hn]|?]; [done|done].
Qed.

Lemma finalize_fields (m : HMM) :
  states (_finalize_probabilities m) = states m ∧
  state_set (_finalize_probabilities m) = state_set m ∧
  start_counts (_finalize_probabilities m) = start_counts m ∧
  start_total (_finalize_probabilities m) = start_total m ∧
  transition_totals (_finalize_probabilities m) = transition_totals m ∧
  emission_totals (_finalize_probabilities m) = emission_totals m ∧
  same_rows (transition_counts m) (transition_counts (_finalize_probabilities m)) ∧
  same_rows (emission_counts m) (emission_counts (_finalize_probabilities m)).
Proof.
  unfold _finalize_probabilities.
  destruct (states m) as [|s0 sts] eqn:Es; [by split_and!|].
  pose proof (finalize_table_same_rows (s0 :: sts) (transition_totals m)
                (transition_counts m)) as Ht.
  pose proof (finalize_table_same_rows (s0 :: sts) (emission_totals m)
                (emission_counts m)) as He.
  destruct (finalize_table _ (transition_totals m) _) as [tc tlp].
  destruct (finalize_table _ (emission_totals m) _) as [ec elp].
  simpl in *. by split_and!.
Qed.

Lemma finalize_rows_ok (m : HMM) :
  rows_ok m →
  _finalize_probabilities m =
  with_derived m (_finalize_probabilities m) (state_set m).
Proof.
  intros [Ht He]. unfold _finalize_probabilities.
  destruct (states m) as [|s0 sts] eqn:Es; [done|].
  pose proof (finalize_table_present (s0 :: sts) _ _ Ht) as Ht'.
  pose proof (finalize_table_present (s0 :: sts) _ _ He) as He'.
  destruct (finalize_table _ (transition_totals m) _) as [tc tlp].
  destruct (finalize_table _ (emission_totals m) _) as [ec elp].
  simpl in *. by subst.
Qed.

Lemma train_finish (m : HMM) (pairs : list (string * string)) :
  train m pairs = finish (train_loop m pairs).
Proof. done. Qed.

Lemma finish_rows_ok (m : HMM) :
  rows_ok m →
  finish m = with_derived m (finish m) (state_set m ∖ {[ NEWLINE ]}).
Proof.
  intros H. unfold finish. by rewrite finalize_rows_ok at 1.
Qed.

(** [finish] looks at the counts and at the alphabet without the
    newline, and at nothing else. *)
Lemma finish_with_derived (m x x' : HMM) (S S' : gset string) :
  S ∖ {[ NEWLINE ]} = S' ∖ {[ NEWLINE ]} →
  finish (with_derived m x S) = finish (with_derived m x' S').
Proof.
  intros H. unfold finish, _finalize_probabilities, with_states,
    with_state_set, finalize_start. simpl. by rewrite H.
Qed.


(** *** The alphabet holds single characters *)

Lemma alphabet_single (pairs : list (string * string)) (s : string) :
  s ∈ alphabet pairs → String.length s = 1%nat.
Proof.
  induction pairs as [|p pairs IH]; simpl; [set_solver|].
  intros [Hp|?]%elem_of_union; [|auto].
  unfold pair_alphabet in Hp. destruct (kept p); [|set_solver].
  apply elem_of_list_to_set in Hp. unfold letters in Hp.
  pose proof (PyStrFacts.chars_single (normalise p.1)) as Hall.
  rewrite Forall_forall in Hall. auto.
Qed.

Lemma finish_alphabet (m : HMM) :
  states (finish m) = sorted_set (state_set m ∖ {[ NEWLINE ]}) ∧
  state_set (finish m) = state_set m ∖ {[ NEWLINE ]}.
Proof.
  unfold finish. cbv zeta.
  match goal with
  | |- context [_finalize_probabilities ?m1] =>
      destruct (finalize_fields m1) as (-> & -> & _)
  end.
  done.
Qed.

Lemma train_alphabet_ok (m : HMM) (pairs : list (string * string)) :
  alphabet_ok m → alphabet_ok (train m pairs).
Proof.
  intros [Hset _]. rewrite train_finish.
  destruct (finish_alphabet (train_loop m pairs)) as [Hst Hss].
  assert (∀ s, s ∈ state_set (train_loop m pairs) ∖ {[ NEWLINE ]} →
               String.length s = 1%nat) as Hall.
  { intros s [Hs _]%elem_of_difference.
    rewrite train_loop_state_set in Hs.
    apply elem_of_union in Hs as [?|?]; [auto|by eapply alphabet_single]. }
  split.
  - by rewrite Hss.
  - rewrite Hst. unfold sorted_set. rewrite merge_sort_Permutation.
    apply Forall_forall. intros s Hs%elem_of_elements. auto.
Qed.

Lemma frame_alphabet_ok (m m' : HMM) :
  frame m m' → alphabet_ok m → alphabet_ok m'.
Proof.
  intros Hf [H1 H2]. split.
  - by rewrite (frame_state_set _ _ Hf).
  - by rewrite (frame_states _ _ Hf).
Qed.

Lemma reachable_alphabet_ok (m : HMM) : reachable m → alphabet_ok m.
Proof.
  induction 1 as [|m pairs _ IH|m w r m' _ IH Hd|m t r m' _ IH Hd].
  - split; [set_solver|constructor].
  - by apply train_alphabet_ok.
  - eapply frame_alphabet_ok; [by eapply decode_word_frame|done].
  - eapply frame_alphabet_ok; [by eapply decode_text_frame|done].
Qed.

(** ** The inspectors *)

Section Sorting.

Hypothesis flt_asym : ∀ a b : F, flt a b = true → flt b a = false.
Hypothesis flt_negtrans :
  ∀ a b c : F, flt a b = false → flt b c = false → flt a c = false.

Lemma insert_desc_elem (x y : string * F) (l : list (string * F)) :
  y ∈ insert_desc x l → y = x ∨ y ∈ l.
Proof.
  induction l as [|z l IH]; simpl.
  - intros ->%list_elem_of_singleton. by left.
  - destruct (flt x.2 z.2).
    + intros [->|Hy]%elem_of_cons; [right; by left|].
      destruct (IH Hy) as [?|?]; [by left|right; by right].
    + intros [->|Hy]%elem_of_cons; [by left|by right].
Qed.

Lemma insert_desc_sorted (x : string * F) (l : list (string * F)) :
  sorted_descending l → sorted_descending (insert_desc x l).
Proof.
  unfold sorted_descending.
  induction 1 as [|z l Hl IH Hz]; simpl.
  - by repeat constructor.
  - destruct (flt x.2 z.2) eqn:E.
    + constructor; [done|]. apply Forall_forall.
      intros y [->|Hy]%insert_desc_elem; [by apply flt_asym|].
      rewrite Forall_forall in Hz. auto.
    + constructor; [by constructor|].
      constructor; [done|]. eapply Forall_impl; [exact Hz|].
      intros y Hy. simpl in Hy. by eapply flt_negtrans.
Qed.

Lemma sorted_desc_sorted (items : list (string * F)) :
  sorted_descending (sorted_desc items).
Proof.
  unfold sorted_desc. induction items as [|x items IH]; simpl.
  - constructor.
  - by apply insert_desc_sorted.
Qed.

End Sorting.

Lemma insert_desc_perm (x : string * F) (l : list (string * F)) :
  insert_desc x l ≡ₚ x :: l.
Proof.
  induction l as [|z l IH]; simpl; [done|].
  destruct (flt x.2 z.2); [|done]. rewrite IH. apply Permutation_swap.
Qed.

(** The sorted distribution holds exactly the recorded items. *)
Lemma sorted_desc_perm (items : list (string * F)) :
  sorted_desc items ≡ₚ items.
Proof.
  unfold sorted_desc. induction items as [|x items IH]; simpl; [done|].
  by rewrite insert_desc_perm, IH.
Qed.


(** *** What [train] leaves in the tables *)

Lemma finish_counts (m : HMM) :
  start_counts (finish m) = start_counts m ∧
  same_rows (transition_counts m) (transition_counts (finish m)) ∧
  same_rows (emission_counts m) (emission_counts (finish m)).
Proof.
  unfold finish. cbv zeta.
  match goal with
  | |- context [_finalize_probabilities ?m1] =>
      destruct (finalize_fields m1) as (_ & _ & -> & _ & _ & _ & Ht & He)
  end.
  done.
Qed.

Lemma finalize_tables_ok (m : HMM) : tables_ok (_finalize_probabilities m).
Proof.
  unfold tables_ok, table_ok.
  destruct (finalize_fields m) as (-> & _ & _ & _ & -> & -> & _ & _).
  unfold _finalize_probabilities.
  destruct (states m) as [|s0 sts] eqn:Es.
  { simpl. split; intros k [? ?]; done. }
  pose proof (finalize_table_keys (s0 :: sts) (transition_totals m)
                (transition_counts m)) as Ht.
  pose proof (finalize_table_keys (s0 :: sts) (emission_totals m)
                (emission_counts m)) as He.
  destruct (finalize_table _ (transition_totals m) _) as [tc tlp].
  destruct (finalize_table _ (emission_totals m) _) as [ec elp].
  simpl in *. split; auto.
Qed.

Lemma reachable_tables_ok (m : HMM) : reachable m → tables_ok m.
Proof.
  assert (∀ m m' : HMM, frame m m' → tables_ok m → tables_ok m') as Hframe.
  { intros m1 m2 Hf [Ht He]. unfold tables_ok.
    by rewrite (frame_states _ _ Hf), (frame_transition_totals _ _ Hf),
      (frame_emission_totals _ _ Hf), (frame_transition_log_probs _ _ Hf),
      (frame_emission_log_probs _ _ Hf). }
  induction 1 as [|m pairs _ IH|m w r m' _ IH Hd|m t r m' _ IH Hd].
  - split; intros k [? ?]; done.
  - apply finalize_tables_ok.
  - eapply Hframe; [by eapply decode_word_frame|done].
  - eapply Hframe; [by eapply decode_text_frame|done].
Qed.

Lemma distribution_empty (lp : dict (dict F)) (s : string) :
  ¬ is_Some (get lp s) → sorted_desc (get_or lp s []) = [].
Proof.
  unfold get_or. destruct (get lp s); [|done]. intros []. eauto.
Qed.

(** Typed strings that agree where [letters] has positions train alike. *)
Lemma count_emissions_agree (letters typed typed' : list string) :
  ∀ idx (m : HMM),
    (∀ i, (idx ≤ i < idx + length letters)%nat → typed !! i = typed' !! i) →
    count_emissions m idx letters typed = count_emissions m idx letters typed'.
Proof.
  induction letters as [|c rest IH]; intros idx m Hag; [done|].
  simpl. rewrite <- (Hag idx) by (simpl; lia).
  destruct (typed !! idx); apply IH; intros i Hi; apply Hag; simpl; lia.
Qed.

End TrainFacts.

(** ** The exact arithmetic has the order and the [-inf] of the floats *)

Module ExactFacts.
Import Exact.

Lemma Qle_bool_false (p q : Q) : Qle_bool p q = false → Qle_bool q p = true.
Proof.
  intros H. apply Qle_bool_iff.
  destruct (Qlt_le_dec q p) as [Hlt|Hle].
  - by apply Qlt_le_weak.
  - apply Qle_bool_iff in Hle. congruence.
Qed.

Lemma lt_asym (a b : xlog) : lt a b = true → lt b a = false.
Proof.
  destruct a as [|p], b as [|q]; simpl; try done.
  intros H. apply negb_true_iff in H. apply Qle_bool_false in H.
  by rewrite H.
Qed.

Lemma lt_negtrans (a b c : xlog) :
  lt a b = false → lt b c = false → lt a c = false.
Proof.
  destruct a as [|p], b as [|q], c as [|r]; simpl; try done.
  intros H1%negb_false_iff%Qle_bool_iff H2%negb_false_iff%Qle_bool_iff.
  apply negb_false_iff, Qle_bool_iff. by eapply Qle_trans.
Qed.

Lemma lt_add_ninf (x y : xlog) : lt y (add NegInf x) = false.
Proof. by destruct y. Qed.

End ExactFacts.

(** * The properties of the specification *)

Section Properties.

Context {LA : LogArith}.
Local Abbreviation HMM := (SpellCheckerHMM LA).

(** C7.  [decode_word] returns its argument unchanged, and leaves the
    model as it is, whenever the alphabet is empty; and it returns the
    empty word for the empty word, on every model. *)
Theorem C7_identity_on_empty (m : HMM) (w : string) :
  (states m = [] → decode_word w m = Some (w, m)) ∧
  decode_word EmptyString m = Some (EmptyString, m).
Proof.
  split.
  - intros Hs. rewrite decode_word_eq, Hs. simpl.
    by rewrite orb_true_r.
  - by rewrite decode_word_eq.
Qed.

(** C4.  For every model and every non-empty word: when no state of the
    alphabet has a finite final score (its Viterbi score at the last
    position plus the log transition probability to END), [decode_word]
    returns normally, and returns the word itself. *)
Theorem C4_fallback_identity (m : HMM) (w : string) :
  w ≠ EmptyString →
  (∀ s x, s ∈ states m → final_score m w s = Some x → finite x = false) →
  ∃ m', decode_word w m = Some (w, m').
Proof.
  intros Hw Hall. rewrite decode_word_eq.
  destruct (_ || _); [eauto|].
  assert (PyStr.lower w ≠ EmptyString) as Hne by (by destruct w).
  destruct (viterbi_search_cases m (PyStr.lower w) Hne)
    as (viterbi & path & m1 & last_row & fs & m2 &
        Hfw & Hlast & _ & Hf1 & Hfl & _ & _ & ->).
  assert (fs = None) as ->.
  { eapply (returns_inv _ _ _ _ _
              (final_loop_none m last_row (states m) m1 Hf1 _) Hfl). }
  eauto.
  Unshelve.
  intros s sc Hs Hsc. apply (Hall s); [done|].
  unfold final_score, viterbi_last_row. by rewrite Hfw, Hlast, Hsc.
Qed.

(** What a successful search returns, on a reachable model: one single
    character per position of the word. *)
Lemma decoded_length (m : HMM) (w : string) (p : list string) m' :
  reachable m →
  w ≠ EmptyString →
  viterbi_search (states m) (PyStr.lower w) m = Some (Some p, m') →
  String.length (PyStr.join "" p) = String.length w.
Proof.
  intros Hr Hw Hs.
  assert (PyStr.lower w ≠ EmptyString) as Hne by (by destruct w).
  destruct (viterbi_search_partial _ _ _ _ Hne Hs) as [_ Hp].
  destruct (Hp p eq_refl) as [Hlen Hall].
  destruct (reachable_alphabet_ok m Hr) as [_ Hsingle].
  rewrite PyStrFacts.length_join_single.
  - by rewrite Hlen, PyStrFacts.length_lower.
  - rewrite Forall_forall in Hall, Hsingle |- *. auto.
Qed.

(** On a model with ASCII states a successful search returns ASCII
    characters. *)
Lemma decoded_isascii (m : HMM) (w : string) (p : list string) m' :
  ascii_states m →
  w ≠ EmptyString →
  viterbi_search (states m) (PyStr.lower w) m = Some (Some p, m') →
  PyStr.isascii (PyStr.join "" p) = true.
Proof.
  intros Ha Hw Hs.
  assert (PyStr.lower w ≠ EmptyString) as Hne by (by destruct w).
  destruct (viterbi_search_partial _ _ _ _ Hne Hs) as [_ Hp].
  destruct (Hp p eq_refl) as [_ Hall].
  apply PyStrFacts.isascii_join.
  unfold ascii_states in Ha. rewrite Forall_forall in Hall, Ha |- *. auto.
Qed.

(** C10, amended.  On every model obtainable by training and decoding
    whose states are ASCII, and for every ASCII word, [decode_word]
    returns normally a string as long as the word.  The float fact used
    is that [-inf + x] is greater than nothing. *)
Theorem C10_length_preserved (m : HMM) (w : string) :
  (∀ x y : F, flt y (fadd ninf x) = false) →
  reachable m →
  ascii_states m →
  PyStr.isascii w = true →
  ∃ r m', decode_word w m = Some (r, m') ∧
          String.length r = String.length w.
Proof.
  intros Hlaw Hr Ha Hascii. rewrite decode_word_eq.
  destruct (negb (PyStr.nonempty w) || _) eqn:Eg; [eauto|].
  assert (w ≠ EmptyString) as Hw by (by destruct w).
  assert (PyStr.lower w ≠ EmptyString) as Hne by (by destruct w).
  destruct (viterbi_search_total m (PyStr.lower w) Hlaw Hne)
    as (res & m1 & Hs).
  rewrite Hs. destruct res as [p|]; [|eauto].
  pose proof (decoded_isascii m w p m1 Ha Hw Hs) as Hd.
  destruct w as [|c r]; [done|].
  rewrite restore_case_eq. eexists _, _. split; [done|].
  rewrite <- (decoded_length m (String c r) p m1 Hr Hw Hs).
  destruct (PyStr.isupper (String c r)); [by apply PyStrFacts.length_upper|].
  destruct (PyStr.isupper _); [by apply PyStrFacts.length_capitalize|done].
Qed.

(** C2, amended.  On every reachable model whose states are ASCII, and
    for every ASCII word: if the word has at least one cased character,
    decoding the uppercased word gives the uppercased decoding; if its
    first character is cased and it is one character long or has a
    cased character after the first, decoding the capitalized word
    gives the capitalized decoding. *)
Theorem C2_case_preservation (m : HMM) (w : string) :
  reachable m →
  ascii_states m →
  PyStr.isascii w = true →
  (PyStr.has_cased w = true →
   fst <$> decode_word (PyStr.upper w) m =
   PyStr.upper <$> (fst <$> decode_word w m)) ∧
  (∀ c r, w = String c r →
     PyStr.is_cased_char c = true →
     r = EmptyString ∨ PyStr.has_cased r = true →
     fst <$> decode_word (PyStr.capitalize w) m =
     PyStr.capitalize <$> (fst <$> decode_word w m)).
Proof.
  intros Hr Ha Hascii. split.
  - intros Hcased. rewrite !decode_word_eq.
    rewrite PyStrFacts.nonempty_upper, PyStrFacts.lower_upper by done.
    destruct (_ || _); [done|].
    destruct (viterbi_search _ _ m) as [[[p|] m1]|] eqn:Es; [|done..].
    destruct w as [|c r]; [done|].
    pose proof (decoded_isascii m (String c r) p m1 Ha ltac:(done) Es) as Hd.
    apply PyStrFacts.isascii_cons in Hascii as Hcr. destruct Hcr as [Hc Hrest].
    rewrite (PyStrFacts.upper_cons c r Hc) at 1.
    rewrite !restore_case_eq. simpl fmap.
    rewrite <- (PyStrFacts.upper_cons c r Hc).
    rewrite PyStrFacts.isupper_upper, Hcased by done. f_equal.
    destruct (PyStr.isupper (String c r));
      [by rewrite PyStrFacts.upper_upper|].
    destruct (PyStr.isupper _); [by rewrite PyStrFacts.upper_capitalize|done].
  - intros c r -> Hc Hrest. rewrite !decode_word_eq.
    rewrite PyStrFacts.nonempty_capitalize, PyStrFacts.lower_capitalize by done.
    destruct (_ || _); [done|].
    destruct (viterbi_search _ _ m) as [[[p|] m1]|] eqn:Es; [|done..].
    pose proof (decoded_isascii m (String c r) p m1 Ha ltac:(done) Es) as Hd.
    apply PyStrFacts.isascii_cons in Hascii as [Hac Har].
    rewrite (PyStrFacts.capitalize_cons c r Hac) at 1.
    rewrite !restore_case_eq. simpl fmap. f_equal.
    assert (PyStr.isupper (String (PyStr.upper_char c) (PyStr.lower r))
            = negb (PyStr.has_cased r)) as ->.
    { unfold PyStr.isupper. simpl.
      rewrite PyStrFacts.is_cased_upper_char, Hc,
        PyStrFacts.is_lower_upper_char, PyStrFacts.has_lower_lower by done.
      done. }
    assert (PyStr.isupper (String (PyStr.upper_char c) "") = true) as ->.
    { unfold PyStr.isupper. simpl.
      by rewrite PyStrFacts.is_cased_upper_char, Hc,
        PyStrFacts.is_lower_upper_char by done. }
    assert (PyStr.capitalize
              (if PyStr.isupper (String c r) then PyStr.upper (PyStr.join "" p)
               else if PyStr.isupper (String c "")
                    then PyStr.capitalize (PyStr.join "" p)
                    else PyStr.join "" p)
            = PyStr.capitalize (PyStr.join "" p)) as ->.
    { destruct (PyStr.isupper (String c r));
        [by apply PyStrFacts.capitalize_upper|].
      destruct (PyStr.isupper _);
        [by apply PyStrFacts.capitalize_capitalize|done]. }
    destruct (PyStr.has_cased r) eqn:Ecr; [done|]. simpl.
    destruct Hrest as [->|?]; [|done].
    apply PyStrFacts.upper_single; [done|].
    by rewrite (decoded_length m (String c "") p m1 Hr).
Qed.

(** C5.  [train] adds to the counts exactly what the specification
    says: per kept pair (both strings non-empty once lowercased and
    trimmed) one start count for the first letter, one transition count
    per adjacent pair of letters and one to END from the last letter, and
    one emission count per index below both lengths; a skipped pair adds
    nothing, neither to the counts nor to the alphabet. *)
Theorem C5_train_counts (m : HMM) (pairs : list (string * string)) :
  (∀ s, get_or (start_counts (train m pairs)) s 0 =
        get_or (start_counts m) s 0
        + Spec.total (fun p => Spec.pair_start p s) pairs) ∧
  (∀ a b, count2 (transition_counts (train m pairs)) a b =
          count2 (transition_counts m) a b
          + Spec.total (fun p => Spec.pair_transition p a b) pairs) ∧
  (∀ a o, count2 (emission_counts (train m pairs)) a o =
          count2 (emission_counts m) a o
          + Spec.total (fun p => Spec.pair_emission p a o) pairs) ∧
  state_set (train m pairs) =
    (state_set m ∪ Spec.alphabet pairs) ∖ {[ NEWLINE ]}.
Proof.
  rewrite train_finish.
  destruct (finish_counts (train_loop m pairs)) as (Hs & Ht & He).
  destruct (train_loop_counts pairs m) as (H1 & H2 & H3).
  split_and!.
  - intros s. by rewrite Hs.
  - intros a b. unfold count2 in *. by rewrite Ht.
  - intros a o. unfold count2 in *. by rewrite He.
  - destruct (finish_alphabet (train_loop m pairs)) as [_ ->].
    by rewrite train_loop_state_set.
Qed.

(** C6.  On every reachable model, and for every string [s], both
    inspectors return a list in which no item has a smaller
    log-probability than a later one; and they return the empty list
    when [s] is not a state or has a zero total.  The float facts used
    are that [<] is asymmetric and that [>=] is transitive (no NaN). *)
Theorem C6_distributions_sorted (m : HMM) (s : string) :
  (∀ a b : F, flt a b = true → flt b a = false) →
  (∀ a b c : F, flt a b = false → flt b c = false → flt a c = false) →
  reachable m →
  sorted_descending (transition_log_distribution m s) ∧
  sorted_descending (emission_log_distribution m s) ∧
  (s ∉ states m →
   transition_log_distribution m s = [] ∧
   emission_log_distribution m s = []) ∧
  (get_or (transition_totals m) s 0 = 0 →
   transition_log_distribution m s = []) ∧
  (get_or (emission_totals m) s 0 = 0 →
   emission_log_distribution m s = []).
Proof.
  intros Hasym Hneg Hr.
  destruct (reachable_tables_ok m Hr) as [Ht He].
  unfold transition_log_distribution, emission_log_distribution.
  split_and!.
  - by apply sorted_desc_sorted.
  - by apply sorted_desc_sorted.
  - intros Hs. split; apply distribution_empty; intros H.
    + by destruct (Ht s H).
    + by destruct (He s H).
  - intros Hz. apply distribution_empty. intros H. by destruct (Ht s H).
  - intros Hz. apply distribution_empty. intros H. by destruct (He s H).
Qed.

(** C8.  Training a fresh model on [P1] and then on [P2] gives the same
    model, attribute by attribute, as training a fresh model once on
    [P1 ++ P2]. *)
Theorem C8_training_accumulates (P1 P2 : list (string * string)) :
  train (train (init : HMM) P1) P2 = train init (P1 ++ P2).
Proof.
  rewrite !train_finish.
  set (m0 := train_loop (init : HMM) P1).
  assert (rows_ok m0) as Hok.
  { apply train_loop_rows_ok. split; intros k Hk; done. }
  rewrite (finish_rows_ok m0 Hok), train_loop_with_derived.
  unfold train_loop at 2. rewrite fold_left_app.
  fold (train_loop (init : HMM) P1). fold m0.
  fold (train_loop m0 P2).
  rewrite <- (with_derived_self (train_loop m0 P2)) at 2.
  apply finish_with_derived.
  rewrite train_loop_state_set. simpl state_set.
  apply set_eq. intros x.
  rewrite !elem_of_difference, !elem_of_union, elem_of_difference. tauto.
Qed.

(** C9.  Two typed strings that agree on the positions the correct word
    has, the first of them strictly longer than the correct word, train
    the same model: what is typed at or beyond the length of the correct
    word changes no count and no alphabet. *)
Theorem C9_extra_typed_ignored (m : HMM) (correct typed typed' : string)
    (before after : list (string * string)) :
  let n := length (Spec.letters (correct, typed)) in
  (n < length (Spec.typed (correct, typed)))%nat →
  (n ≤ length (Spec.typed (correct, typed')))%nat →
  take n (Spec.typed (correct, typed)) = take n (Spec.typed (correct, typed')) →
  train m (before ++ (correct, typed) :: after) =
  train m (before ++ (correct, typed') :: after).
Proof.
  intros n Hlong Hlen Hagree.
  rewrite !train_finish. unfold train_loop.
  rewrite !fold_left_app. cbn [fold_left]. f_equal. f_equal.
  generalize (fold_left train_pair before m). intros m0.
  destruct (train_pair_cases (correct, typed))
    as [[Hk H]|(f & r & l & Hk & Hl & Hlast & H)];
    destruct (train_pair_cases (correct, typed'))
    as [[Hk' H']|(f' & r' & l' & Hk' & Hl' & Hlast' & H')];
    rewrite H, H'.
  - done.
  - exfalso. unfold Spec.kept in Hk, Hk'.
    change (Spec.letters (correct, typed'))
      with (Spec.letters (correct, typed)) in Hk'.
    apply andb_true_iff in Hk' as [Hc' _]. rewrite Hc' in Hk. simpl in Hk.
    apply bool_decide_eq_false in Hk.
    destruct (Spec.typed (correct, typed)); [simpl in Hlong; lia|].
    by apply Hk.
  - exfalso. unfold Spec.kept in Hk, Hk'.
    change (Spec.letters (correct, typed'))
      with (Spec.letters (correct, typed)) in Hk'.
    apply andb_true_iff in Hk as [Hc _]. rewrite Hc in Hk'. simpl in Hk'.
    apply bool_decide_eq_false in Hk'.
    apply bool_decide_eq_true in Hc.
    destruct (Spec.typed (correct, typed')); [|by apply Hk'].
    subst n. destruct (Spec.letters (correct, typed)); [done|].
    simpl in Hlen. lia.
  - change (Spec.letters (correct, typed'))
      with (Spec.letters (correct, typed)) in *.
    rewrite Hl in Hl'. inversion Hl'; subst f' r'.
    rewrite Hlast in Hlast'. inversion Hlast'; subst l'.
    apply count_emissions_agree. intros i Hi. fold n in Hi.
    rewrite <- (lookup_take_lt (Spec.typed (correct, typed)) n i) by lia.
    rewrite <- (lookup_take_lt (Spec.typed (correct, typed')) n i) by lia.
    by rewrite Hagree.
Qed.

End Properties.

(** * The worked scenario and the concrete cases *)

(** C1.  Training a fresh model on [("the","the"), ("the","teh"),
    ("the","the")] gives the alphabet [e, h, t]; the transitions from
    [t] are [h] with log-probability [0.0 = log 1]; the emissions of [e]
    are [e] with [log (2/3)], then [h] with [log (1/3)]; and ["teh"],
    ["TEH"], ["Teh"], ["the"] decode to ["the"], ["THE"], ["The"],
    ["the"], and the text ["teh teh"] to ["the the"]. *)
Theorem C1_worked_scenario :
  states Scenario.worked = ["e"; "h"; "t"] ∧
  transition_log_distribution Scenario.worked "t" = [("h", Exact.zero)] ∧
  emission_log_distribution Scenario.worked "e" =
    [("e", Exact.log_of 2 3); ("h", Exact.log_of 1 3)] ∧
  fst <$> decode_word "teh" Scenario.worked = Some "the" ∧
  fst <$> decode_word "TEH" Scenario.worked = Some "THE" ∧
  fst <$> decode_word "Teh" Scenario.worked = Some "The" ∧
  fst <$> decode_word "the" Scenario.worked = Some "the" ∧
  fst <$> decode_text "teh teh" Scenario.worked = Some "the the".
Proof. vm_compute. by split_and!. Qed.

(** C3, at the failing input.  After training on [("ab", "a")] the
    state [b] has no emission row; [decode_word("a")] reads
    [self.emission_counts["b"]] and thereby adds an empty row for [b]:
    the model is not left as it was. *)
Theorem C3_decode_adds_row :
  emission_counts Scenario.short_typed = [("a", [("a", 1)])] ∧
  decode_word "a" Scenario.short_typed =
    Some ("a", with_emission_counts Scenario.short_typed
                 [("a", [("a", 1)]); ("b", [])]).
Proof. vm_compute. by split. Qed.

(** C2 as stated fails: a word without cased characters is not
    uppercase, so the decoding stays lowercase ("123" decodes to "the",
    its uppercased form "123" too, not to "THE"); and a capitalized word
    whose only cased character is the first is all uppercase, so the
    whole decoding is uppercased ("T1" decodes to "TH", not to "Th"). *)
Lemma C2_counterexample :
  ¬ (∀ (m : SpellCheckerHMM Exact.arith) (w : string),
       reachable m →
       fst <$> decode_word (PyStr.upper w) m =
         PyStr.upper <$> (fst <$> decode_word w m) ∧
       fst <$> decode_word (PyStr.capitalize w) m =
         PyStr.capitalize <$> (fst <$> decode_word w m)).
Proof.
  intros H.
  destruct (H Scenario.digits "123" (reach_train _ _ (reach_init))) as [H1 _].
  vm_compute in H1. discriminate H1.
Qed.

Lemma C2_capitalize_counterexample :
  fst <$> decode_word (PyStr.capitalize "t1") Scenario.letter_digit = Some "TH" ∧
  PyStr.capitalize <$> (fst <$> decode_word "t1" Scenario.letter_digit)
    = Some "Th".
Proof. vm_compute. by split. Qed.

(** The amended C2 needs ASCII words: the sharp s is cased and its
    uppercase is [SS]; after training on [("ab", "ss")] the word [SS]
    decodes to [AB], while the sharp s has no decoding and comes back
    unchanged, to be uppercased to [SS]. *)
Lemma C2_sharp_s_counterexample :
  PyStr.has_cased Scenario.sharp_s = true ∧
  fst <$> decode_word (PyStr.upper Scenario.sharp_s) Scenario.double_s
    = Some "AB" ∧
  PyStr.upper <$> (fst <$> decode_word Scenario.sharp_s Scenario.double_s)
    = Some "SS".
Proof. vm_compute. by split_and!. Qed.

(** C10 as stated fails: after training on the pair of the sharp s and
    [s], the one-character word [S] decodes to the sharp s, which the
    case restoration uppercases to the two characters [SS]. *)
Lemma C10_counterexample :
  ¬ (∀ (m : SpellCheckerHMM Exact.arith) (w : string),
       reachable m →
       ∃ r m', decode_word w m = Some (r, m') ∧
               String.length r = String.length w).
Proof.
  intros H.
  destruct (H Scenario.sharp "S" (reach_train _ _ (reach_init)))
    as (r & m' & E & Hlen).
  vm_compute in E. inversion E; subst. vm_compute in Hlen. discriminate Hlen.
Qed.

Lemma C10_sharp_s_doubles :
  states Scenario.sharp = [Scenario.sharp_s] ∧
  fst <$> decode_word "s" Scenario.sharp = Some Scenario.sharp_s ∧
  fst <$> decode_word "S" Scenario.sharp = Some "SS".
Proof. vm_compute. by split_and!. Qed.

(** ** The theorems with hypotheses, at concrete inputs *)

Lemma C7_identity_on_empty_witness :
  decode_word "anything" (init : SpellCheckerHMM Exact.arith)
  = Some ("anything", init).
Proof.
  exact (proj1 (C7_identity_on_empty (LA := Exact.arith) init "anything")
           eq_refl).
Defined.

Lemma C4_fallback_identity_witness :
  ∃ m', decode_word "xyz" Scenario.worked = Some ("xyz", m').
Proof.
  apply (C4_fallback_identity (LA := Exact.arith)).
  - discriminate.
  - intros s x Hs. apply list_elem_of_In in Hs. vm_compute in Hs.
    destruct Hs as [<-|[<-|[<-|[]]]]; vm_compute;
      intros Hx; inversion Hx; reflexivity.
Defined.

Lemma C10_length_preserved_witness :
  ∃ r m', decode_word "teh" Scenario.worked = Some (r, m') ∧
          String.length r = String.length "teh".
Proof.
  apply (C10_length_preserved (LA := Exact.arith)).
  - exact ExactFacts.lt_add_ninf.
  - exact (reach_train _ _ reach_init).
  - unfold ascii_states. vm_compute. repeat constructor.
  - reflexivity.
Defined.

Lemma C2_case_preservation_witness :
  fst <$> decode_word (PyStr.upper "teh") Scenario.worked =
    PyStr.upper <$> (fst <$> decode_word "teh" Scenario.worked) ∧
  fst <$> decode_word (PyStr.capitalize "teh") Scenario.worked =
    PyStr.capitalize <$> (fst <$> decode_word "teh" Scenario.worked).
Proof.
  assert (ascii_states Scenario.worked) as Ha.
  { unfold ascii_states. vm_compute. repeat constructor. }
  pose proof (C2_case_preservation (LA := Exact.arith) Scenario.worked "teh"
                (reach_train _ _ reach_init) Ha eq_refl) as [H1 H2].
  split.
  - apply H1. reflexivity.
  - apply (H2 "t"%char "eh"); [reflexivity|reflexivity|].
    right. reflexivity.
Defined.

Lemma C6_distributions_sorted_witness :
  sorted_descending (emission_log_distribution Scenario.worked "e") ∧
  transition_log_distribution Scenario.worked "x" = [].
Proof.
  pose proof (C6_distributions_sorted (LA := Exact.arith) Scenario.worked "e"
                ExactFacts.lt_asym ExactFacts.lt_negtrans
                (reach_train _ _ reach_init)) as (_ & H & _).
  pose proof (C6_distributions_sorted (LA := Exact.arith) Scenario.worked "x"
                ExactFacts.lt_asym ExactFacts.lt_negtrans
                (reach_train _ _ reach_init)) as (_ & _ & H' & _).
  split; [exact H|]. apply H'.
  intros Hx%list_elem_of_In. vm_compute in Hx.
  destruct Hx as [Hx|[Hx|[Hx|[]]]]; discriminate Hx.
Defined.

Lemma C9_extra_typed_ignored_witness :
  train (init : SpellCheckerHMM Exact.arith) [("ab", "abXY")] =
  train init [("ab", "ab")].
Proof.
  apply (C9_extra_typed_ignored (LA := Exact.arith) init "ab" "abXY" "ab" [] []).
  - vm_compute. lia.
  - vm_compute. lia.
  - reflexivity.
Defined.

(** * Further properties of the code *)

Section Further.

Context {LA : LogArith}.
Local Abbreviation HMM := (SpellCheckerHMM LA).

(** ** Decoding reads the model *)

(** X1.  [decode_word] and [decode_text], when they return, leave the
    alphabet, the start counts, all totals and the three log-probability
    tables as they were, and every row of the two count tables reads as
    before; the only change they can make is to add empty rows. *)
Theorem X1_decode_read_only (m : HMM) (w t : string) :
  (∀ r m', decode_word w m = Some (r, m') → frame m m') ∧
  (∀ r m', decode_text t m = Some (r, m') → frame m m').
Proof.
  split; intros r m' H.
  - by eapply decode_word_frame.
  - by eapply decode_text_frame.
Qed.

Lemma decode_word_returns (m : HMM) (w : string) :
  (∀ x y : F, flt y (fadd ninf x) = false) →
  ∃ r m', decode_word w m = Some (r, m').
Proof.
  intros Hlaw. rewrite decode_word_eq.
  destruct (negb (PyStr.nonempty w) || _) eqn:Eg; [eauto|].
  assert (PyStr.lower w ≠ EmptyString) as Hne by (by destruct w).
  destruct (viterbi_search_total m (PyStr.lower w) Hlaw Hne)
    as (res & m1 & Hs).
  rewrite Hs. destruct res as [p|]; [|eauto].
  destruct w as [|c r]; [done|]. rewrite restore_case_eq. eauto.
Qed.

Lemma decode_words_returns (ws : list string) (m0 : HMM) :
  (∀ x y : F, flt y (fadd ninf x) = false) →
  ∀ m : HMM,
    frame m0 m →
    ∃ rs m', decode_words ws m = Some (rs, m') ∧
             Forall2 (fun w r => ∃ m1 m2, frame m0 m1 ∧
                                          decode_word w m1 = Some (r, m2))
               ws rs.
Proof.
  intros Hlaw. induction ws as [|w ws IH]; intros m Hf; simpl.
  - exists [], m. split; [done|constructor].
  - destruct (decode_word_returns m w Hlaw) as (r & m1 & Hw).
    destruct (IH m1) as (rs & m2 & Hws & Hall).
    { eapply frame_trans; [done|by eapply decode_word_frame]. }
    exists (r :: rs), m2. unfold bind. rewrite Hw, Hws.
    split; [done|]. constructor; [|done]. eauto.
Qed.

(** X2.  [decode_text] returns normally on every model: the result is
    the single-space join of one decoded word per whitespace-separated
    token of the text, in order, each of them what [decode_word]
    returns for its token on the model as the earlier words left it,
    which differs from the given model by empty rows of counts at
    most.  The float fact used is that [-inf + x] is greater than
    nothing. *)
Theorem X2_decode_text_returns (m : HMM) (t : string) :
  (∀ x y : F, flt y (fadd ninf x) = false) →
  ∃ rs m', decode_text t m = Some (PyStr.join " " rs, m') ∧
           Forall2 (fun w r => ∃ m1 m2, frame m m1 ∧
                                        decode_word w m1 = Some (r, m2))
             (PyStr.split t) rs.
Proof.
  intros Hlaw.
  destruct (decode_words_returns (PyStr.split t) m Hlaw m (frame_refl m))
    as (rs & m' & Hws & Hall).
  exists rs, m'. unfold decode_text, bind. by rewrite Hws.
Qed.

Lemma decode_words_untrained (ws : list string) (m : HMM) :
  states m = [] → decode_words ws m = Some (ws, m).
Proof.
  intros Hs. induction ws as [|w ws IH]; [done|].
  simpl. unfold bind. rewrite decode_word_eq, Hs. simpl.
  rewrite orb_true_r. by rewrite IH.
Qed.

(** X3.  With an empty alphabet [decode_text] only normalises the
    blanks: it returns the tokens of the text joined by single spaces,
    and leaves the model as it is. *)
Theorem X3_decode_text_untrained (m : HMM) (t : string) :
  states m = [] →
  decode_text t m = Some (PyStr.join " " (PyStr.split t), m).
Proof.
  intros Hs. unfold decode_text, bind.
  by rewrite decode_words_untrained.
Qed.

(** ** The inspectors *)

(** X4.  Each inspector returns exactly the recorded entries of the
    state, each once: the result is a permutation of the row. *)
Theorem X4_distribution_complete (m : HMM) (s : string) :
  transition_log_distribution m s ≡ₚ get_or (transition_log_probs m) s [] ∧
  emission_log_distribution m s ≡ₚ get_or (emission_log_probs m) s [].
Proof. split; apply sorted_desc_perm. Qed.

Lemma insert_desc_same_key (a : F) (x : string * F) (l : list (string * F)) :
  (∀ a b c : F, flt a b = false → flt b c = false → flt a c = false) →
  filter (fun it => same_key a it = true) (insert_desc x l) =
  filter (fun it => same_key a it = true) (x :: l).
Proof.
  intros Hneg. induction l as [|y l IH]; [done|]. simpl.
  destruct (flt x.2 y.2) eqn:Exy; [|done].
  rewrite (filter_cons _ y), IH, (filter_cons _ x), (filter_cons _ x),
    (filter_cons _ y).
  destruct (decide (same_key a y = true)) as [Hy|Hy];
    destruct (decide (same_key a x = true)) as [Hx|Hx]; try done.
  exfalso. unfold same_key in Hx, Hy.
  apply andb_true_iff in Hx as [Hx1%negb_true_iff Hx2%negb_true_iff].
  apply andb_true_iff in Hy as [Hy1%negb_true_iff Hy2%negb_true_iff].
  rewrite (Hneg _ _ _ Hx1 Hy2) in Exy. done.
Qed.

Lemma sorted_desc_same_key (a : F) (items : list (string * F)) :
  (∀ a b c : F, flt a b = false → flt b c = false → flt a c = false) →
  filter (fun it => same_key a it = true) (sorted_desc items) =
  filter (fun it => same_key a it = true) items.
Proof.
  intros Hneg. unfold sorted_desc.
  induction items as [|x items IH]; [done|]. simpl.
  rewrite insert_desc_same_key by done.
  by rewrite !(filter_cons _ x), IH.
Qed.

(** X5.  The inspectors are stable: entries with the same
    log-probability come out in the order in which they were recorded.
    The float fact used is that [>=] is transitive (no NaN). *)
Theorem X5_distribution_stable (m : HMM) (s : string) (a : F) :
  (∀ a b c : F, flt a b = false → flt b c = false → flt a c = false) →
  filter (fun it => same_key a it = true) (transition_log_distribution m s) =
  filter (fun it => same_key a it = true)
    (get_or (transition_log_probs m) s []) ∧
  filter (fun it => same_key a it = true) (emission_log_distribution m s) =
  filter (fun it => same_key a it = true)
    (get_or (emission_log_probs m) s []).
Proof. intros Hneg. split; by apply sorted_desc_same_key. Qed.

(** ** The alphabet after training *)

Lemma alphabet_elem (pairs : list (string * string)) (s : string) :
  s ∈ Spec.alphabet pairs ↔
  ∃ p, p ∈ pairs ∧ Spec.kept p = true ∧ s ∈ Spec.letters p.
Proof.
  induction pairs as [|p pairs IH]; simpl.
  - split; [set_solver|]. intros (p & Hp & _). by apply not_elem_of_nil in Hp.
  - rewrite elem_of_union, IH. unfold Spec.pair_alphabet. split.
    + intros [Hs|(q & Hq & Hk & Hl)].
      * destruct (Spec.kept p) eqn:Ek; [|set_solver].
        apply elem_of_list_to_set in Hs. exists p. split; [by left|done].
      * exists q. split; [by right|done].
    + intros (q & [->|Hq]%elem_of_cons & Hk & Hl).
      * left. rewrite Hk. by apply elem_of_list_to_set.
      * right. eauto.
Qed.

Lemma chars_lower_fixed (s x : string) :
  x ∈ PyStr.chars (PyStr.lower s) → PyStr.lower x = x.
Proof.
  induction s as [|c s IH]; simpl.
  - intros H. by apply not_elem_of_nil in H.
  - intros [->|H]%elem_of_cons; [|auto].
    simpl. by rewrite PyStrFacts.lower_char_idem.
Qed.

Lemma train_states_elem (m : HMM) (pairs : list (string * string)) (s : string) :
  s ∈ states (train m pairs) ↔
  s ≠ NEWLINE ∧
  (s ∈ state_set m ∨
   ∃ p, p ∈ pairs ∧ Spec.kept p = true ∧ s ∈ Spec.letters p).
Proof.
  rewrite train_finish.
  destruct (finish_alphabet (train_loop m pairs)) as [-> _].
  unfold sorted_set. rewrite merge_sort_Permutation, elem_of_elements.
  rewrite elem_of_difference, train_loop_state_set, elem_of_union,
    alphabet_elem, elem_of_singleton.
  tauto.
Qed.

(** X6.  After [train] the list of states is in ascending order without
    repetition, and holds exactly the old alphabet and the letters of
    the kept correct words, the newline excepted. *)
Theorem X6_states_sorted_alphabet (m : HMM) (pairs : list (string * string)) :
  StronglySorted String.le (states (train m pairs)) ∧
  NoDup (states (train m pairs)) ∧
  ∀ s, s ∈ states (train m pairs) ↔
       s ≠ NEWLINE ∧
       (s ∈ state_set m ∨
        ∃ p, p ∈ pairs ∧ Spec.kept p = true ∧ s ∈ Spec.letters p).
Proof.
  rewrite train_finish.
  destruct (finish_alphabet (train_loop m pairs)) as [-> _].
  unfold sorted_set. split_and!.
  - apply StronglySorted_merge_sort; apply _.
  - rewrite merge_sort_Permutation. apply NoDup_elements.
  - intros s. rewrite <- (train_states_elem m pairs s), train_finish.
    destruct (finish_alphabet (train_loop m pairs)) as [-> _]. done.
Qed.

(** X7.  Every state of a model trained from scratch is a single
    character that is its own lowercase. *)
Theorem X7_states_lowercase_chars (pairs : list (string * string)) (s : string) :
  s ∈ states (train (init : HMM) pairs) →
  String.length s = 1%nat ∧ PyStr.lower s = s.
Proof.
  intros Hs.
  apply train_states_elem in Hs as [_ [Hs|(p & _ & _ & Hl)]].
  - simpl in Hs. set_solver.
  - unfold Spec.letters, Spec.normalise in Hl. split.
    + pose proof (PyStrFacts.chars_single (PyStr.lower (PyStr.strip p.1))) as H.
      rewrite Forall_forall in H. auto.
    + by eapply chars_lower_fixed.
Qed.

(** ** Totals and rows of counts *)

Lemma get_None_keys {V} (d : dict V) (k : string) :
  get d k = None ↔ k ∉ map fst d.
Proof.
  induction d as [|[k' v] d IH]; simpl.
  - split; [intros _; apply not_elem_of_nil|done].
  - destruct (decide (k' = k)) as [->|Hne].
    + split; [done|]. intros H. exfalso. apply H. by left.
    + rewrite IH, not_elem_of_cons. split; [intros ?; split; [congruence|done]|].
      by intros [_ ?].
Qed.

Lemma keys_set {V} (d : dict V) (k : string) (v : V) :
  map fst (set d k v) =
  if mem d k then map fst d else map fst d ++ [k].
Proof.
  unfold mem. induction d as [|[k' v'] d IH]; simpl; [done|].
  destruct (decide (k' = k)) as [->|Hne]; simpl; [done|].
  rewrite IH. by destruct (get d k).
Qed.

Lemma unique_keys_set {V} (d : dict V) (k : string) (v : V) :
  unique_keys d → unique_keys (set d k v).
Proof.
  unfold unique_keys. intros Hd. rewrite keys_set. unfold mem.
  destruct (get d k) eqn:E; [done|].
  apply NoDup_app. split_and!; [done| |apply NoDup_singleton].
  intros x Hx ->%list_elem_of_singleton. by apply get_None_keys in E.
Qed.

Lemma sum_values_set (d : dict Z) (k : string) (v : Z) :
  sum_values (set d k v) = sum_values d - get_or d k 0 + v.
Proof.
  unfold get_or. induction d as [|[k' v'] d IH]; simpl; [lia|].
  destruct (decide (k' = k)) as [->|Hne]; simpl; [lia|].
  rewrite IH. lia.
Qed.

Lemma sum_values_incr (c : dict Z) (k : string) :
  sum_values (incr c k) = sum_values c + 1.
Proof. unfold incr. rewrite sum_values_set. lia. Qed.

Lemma counts_ok_init : counts_ok (init : HMM).
Proof. constructor; intros; try done; apply NoDup_nil_2. Qed.

Lemma counts_ok_add_start (m : HMM) (s : string) :
  counts_ok m → counts_ok (add_start m s).
Proof.
  intros []. constructor; simpl; try done.
  - intros k. rewrite get_or_incr. specialize (ok_start_nonneg0 k).
    destruct (decide (s = k)); lia.
  - lia.
  - rewrite sum_values_incr. lia.
Qed.

Lemma incr2_row_ok (totals : dict Z) (counts : dict (dict Z)) (a b : string) :
  (∀ k, unique_keys (get_or counts k [])) →
  (∀ k b, 0 ≤ count2 counts k b) →
  (∀ k, 0 ≤ get_or totals k 0) →
  (∀ k, get_or totals k 0 = sum_values (get_or counts k [])) →
  (∀ k, unique_keys (get_or (incr2 counts a b) k [])) ∧
  (∀ k c, 0 ≤ count2 (incr2 counts a b) k c) ∧
  (∀ k, 0 ≤ get_or (incr totals a) k 0) ∧
  (∀ k, get_or (incr totals a) k 0
        = sum_values (get_or (incr2 counts a b) k [])).
Proof.
  intros Hu Hn Ht Hs. split_and!.
  - intros k. rewrite get_incr2. destruct (decide (a = k)); [|done].
    by apply unique_keys_set.
  - intros k c. rewrite count2_incr2. specialize (Hn k c).
    destruct (decide (a = k ∧ b = c)); lia.
  - intros k. rewrite get_or_incr. specialize (Ht k).
    destruct (decide (a = k)); lia.
  - intros k. rewrite get_or_incr, get_incr2.
    destruct (decide (a = k)) as [->|]; [|rewrite Hs; lia].
    rewrite sum_values_incr, Hs. lia.
Qed.

Lemma counts_ok_add_transition (m : HMM) (a b : string) :
  counts_ok m → counts_ok (add_transition m a b).
Proof.
  intros [].
  destruct (incr2_row_ok (transition_totals m) (transition_counts m) a b)
    as (? & ? & ? & ?); [done..|].
  by constructor.
Qed.

Lemma counts_ok_add_emission (m : HMM) (a b : string) :
  counts_ok m → counts_ok (add_emission m a b).
Proof.
  intros [].
  destruct (incr2_row_ok (emission_totals m) (emission_counts m) a b)
    as (? & ? & ? & ?); [done..|].
  by constructor.
Qed.

Lemma counts_ok_count_transitions (letters : list string) :
  ∀ m : HMM, counts_ok m → counts_ok (count_transitions m letters).
Proof.
  induction letters as [|curr rest IH]; intros m Hm; [done|].
  destruct rest as [|nxt rest]; [done|].
  change (count_transitions m (curr :: nxt :: rest))
    with (count_transitions (add_transition m curr nxt) (nxt :: rest)).
  by apply IH, counts_ok_add_transition.
Qed.

Lemma counts_ok_count_emissions (letters typed : list string) :
  ∀ idx (m : HMM), counts_ok m → counts_ok (count_emissions m idx letters typed).
Proof.
  induction letters as [|c rest IH]; intros idx m Hm; [done|].
  simpl. destruct (typed !! idx); [|by apply IH].
  by apply IH, counts_ok_add_emission.
Qed.

Lemma counts_ok_train_pair (m : HMM) (p : string * string) :
  counts_ok m → counts_ok (train_pair m p).
Proof.
  intros Hm.
  destruct (train_pair_cases p) as [[_ H]|(f & r & l & _ & _ & _ & H)];
    rewrite H; [done|].
  apply counts_ok_count_emissions, counts_ok_add_transition,
    counts_ok_count_transitions, counts_ok_add_start.
  by destruct Hm.
Qed.

Lemma counts_ok_train_loop (pairs : list (string * string)) :
  ∀ m : HMM, counts_ok m → counts_ok (train_loop m pairs).
Proof.
  unfold train_loop.
  induction pairs as [|p pairs IH]; intros m Hm; [done|].
  simpl. by apply IH, counts_ok_train_pair.
Qed.

(** [counts_ok] looks at the rows and the totals only. *)
Lemma counts_ok_view (m m' : HMM) :
  start_counts m' = start_counts m →
  start_total m' = start_total m →
  transition_totals m' = transition_totals m →
  emission_totals m' = emission_totals m →
  same_rows (transition_counts m) (transition_counts m') →
  same_rows (emission_counts m) (emission_counts m') →
  counts_ok m → counts_ok m'.
Proof.
  unfold same_rows. intros Hsc Hst Htt Het Htc Hec [].
  constructor; unfold count2 in *; intros;
    rewrite ?Hsc, ?Hst, ?Htt, ?Het, ?Htc, ?Hec; auto.
Qed.

Lemma finish_view (m : HMM) :
  start_counts (finish m) = start_counts m ∧
  start_total (finish m) = start_total m ∧
  transition_totals (finish m) = transition_totals m ∧
  emission_totals (finish m) = emission_totals m ∧
  same_rows (transition_counts m) (transition_counts (finish m)) ∧
  same_rows (emission_counts m) (emission_counts (finish m)).
Proof.
  unfold finish. cbv zeta.
  match goal with
  | |- context [_finalize_probabilities ?m1] =>
      destruct (finalize_fields m1) as (_ & _ & -> & -> & -> & -> & Ht & He)
  end.
  done.
Qed.

Lemma reachable_counts_ok (m : HMM) : reachable m → counts_ok m.
Proof.
  assert (∀ m m' : HMM, frame m m' → counts_ok m → counts_ok m') as Hframe.
  { intros m1 m2 []. by apply counts_ok_view. }
  induction 1 as [|m pairs _ IH|m w r m' _ IH Hd|m t r m' _ IH Hd].
  - apply counts_ok_init.
  - rewrite train_finish.
    destruct (finish_view (train_loop m pairs)) as (? & ? & ? & ? & ? & ?).
    eapply counts_ok_view; [done..|]. by apply counts_ok_train_loop.
  - eapply Hframe; [by eapply decode_word_frame|done].
  - eapply Hframe; [by eapply decode_text_frame|done].
Qed.

(** X8.  On every reachable model each total is the sum of the counts
    of its row ([start_total] of the start counts, the transition and
    the emission total of a state of that state's row), and no count is
    negative: no start count, no transition count, no emission
    count. *)
Theorem X8_totals_are_row_sums (m : HMM) :
  reachable m →
  start_total m = sum_values (start_counts m) ∧
  (∀ s, get_or (transition_totals m) s 0
        = sum_values (get_or (transition_counts m) s [])) ∧
  (∀ s, get_or (emission_totals m) s 0
        = sum_values (get_or (emission_counts m) s [])) ∧
  (∀ s, 0 ≤ get_or (start_counts m) s 0) ∧
  (∀ s b, 0 ≤ count2 (transition_counts m) s b
          ∧ 0 ≤ count2 (emission_counts m) s b).
Proof.
  intros Hr. destruct (reachable_counts_ok m Hr). split_and!; auto.
Qed.

(** ** The tables hold the normalised counts *)

Lemma get_or_set2 {V} (d : dict (dict V)) (a b k : string) (v : V) :
  get_or (set2 d a b v) k [] =
  if decide (a = k) then set (get_or d a []) b v else get_or d k [].
Proof.
  unfold set2.
  pose proof (getitem_default_row [] d a) as Hrow.
  pose proof (getitem_default_get [] d a k) as Hget.
  destruct (getitem_default [] d a) as [row d']; simpl in *.
  rewrite get_or_set. destruct (decide (a = k)); [by subst row|done].
Qed.

Lemma lookup2_set2 {V} (d : dict (dict V)) (a b a' b' : string) (v : V) :
  lookup2 (set2 d a b v) a' b' =
  if decide (a = a' ∧ b = b') then Some v else lookup2 d a' b'.
Proof.
  unfold lookup2. rewrite get_or_set2.
  destruct (decide (a = a')) as [->|Ha].
  - rewrite get_set. destruct (decide (b = b')) as [->|Hb].
    + by rewrite decide_True.
    + rewrite decide_False; [done|]. by intros [_ ?].
  - rewrite decide_False; [done|]. by intros [? _].
Qed.

Lemma cached_lookup_eq (d : dict (dict F)) (a b : string) :
  cached_lookup (get d a) b = lookup2 d a b.
Proof.
  unfold cached_lookup, lookup2, get_or.
  by destruct (get d a) as [[|? ?]|].
Qed.

Lemma finalize_row_other (prev : string) (total : Z) (row : dict Z)
    (k next : string) (lp : dict (dict F)) :
  prev ≠ k →
  lookup2 (finalize_row prev total row lp) k next = lookup2 lp k next.
Proof.
  intros Hne. unfold lookup2, get_or.
  by rewrite get_finalize_row_ne.
Qed.

Lemma finalize_row_lookup (prev : string) (total : Z) (next : string) :
  ∀ (row : dict Z) (lp : dict (dict F)),
    unique_keys row →
    lookup2 (finalize_row prev total row lp) prev next =
    match get row next with
    | Some c => if c =? 0 then lookup2 lp prev next else Some (flog c total)
    | None => lookup2 lp prev next
    end.
Proof.
  unfold finalize_row, unique_keys.
  induction row as [|[n c] row IH]; intros lp Hu; simpl; [done|].
  simpl in Hu. apply NoDup_cons in Hu as [Hn Hu]. rewrite IH by done.
  destruct (decide (n = next)) as [->|Hne].
  - apply get_None_keys in Hn. rewrite Hn.
    destruct (c =? 0); [done|].
    rewrite lookup2_set2. by rewrite decide_True.
  - destruct (get row next) as [c'|].
    + destruct (c' =? 0); [|done].
      destruct (c =? 0); [done|].
      rewrite lookup2_set2, decide_False; [done|]. by intros [_ ?].
    + destruct (c =? 0); [done|].
      rewrite lookup2_set2, decide_False; [done|]. by intros [_ ?].
Qed.

(** What [finalize_table] records, entry by entry. *)
Lemma finalize_table_lookup (totals : dict Z) (sts : list string)
    (counts : dict (dict Z)) (prev next : string) :
  NoDup sts →
  (∀ k, unique_keys (get_or counts k [])) →
  lookup2 (snd (finalize_table sts totals counts)) prev next =
  if decide (prev ∈ sts)
  then if get_or totals prev 0 =? 0 then None
       else match get (get_or counts prev []) next with
            | Some c => if c =? 0 then None
                        else Some (flog c (get_or totals prev 0))
            | None => None
            end
  else None.
Proof.
  intros Hnd Hu. unfold finalize_table.
  assert (∀ (lp : dict (dict F)) (cs : dict (dict Z)),
            same_rows counts cs →
            (∀ s, s ∈ sts → get lp s = None) →
            lookup2 (snd (fold_left
              (fun '(counts, lp) prev_state =>
                 let total := get_or totals prev_state 0 in
                 if total =? 0 then (counts, lp)
                 else
                   let '(row, counts') := getitem_default [] counts prev_state in
                   (counts', finalize_row prev_state total row lp))
              sts (cs, lp))) prev next =
            if decide (prev ∈ sts)
            then if get_or totals prev 0 =? 0 then None
                 else match get (get_or counts prev []) next with
                      | Some c => if c =? 0 then None
                                  else Some (flog c (get_or totals prev 0))
                      | None => None
                      end
            else lookup2 lp prev next) as Hgen.
  { induction sts as [|s sts IH]; intros lp cs Hcs Hlp; simpl.
    - destruct (decide (prev ∈ [])) as [H|]; [|done].
      by apply not_elem_of_nil in H.
    - apply NoDup_cons in Hnd as [Hs Hnd].
      destruct (get_or totals s 0 =? 0) eqn:Et.
      + rewrite IH; [|done|done|intros; apply Hlp; by right].
        destruct (decide (prev ∈ sts)) as [Hin|Hnin].
        * rewrite decide_True; [done|by right].
        * destruct (decide (prev = s)) as [->|Hne].
          -- rewrite decide_True by (by left). rewrite Et.
             unfold lookup2, get_or. rewrite Hlp; [done|by left].
          -- rewrite decide_False; [done|].
             intros [?|?]%elem_of_cons; done.
      + pose proof (getitem_default_row [] cs s) as Hrow.
        pose proof (getitem_default_get [] cs s) as Hget.
        destruct (getitem_default [] cs s) as [row cs']. simpl in Hrow, Hget.
        rewrite IH; [|done| |].
        2:{ intros k. rewrite Hget. apply Hcs. }
        2:{ intros k Hk. rewrite get_finalize_row_ne; [apply Hlp; by right|].
            intros ->. done. }
        destruct (decide (prev ∈ sts)) as [Hin|Hnin].
        * rewrite decide_True; [done|by right].
        * destruct (decide (prev = s)) as [->|Hne].
          -- rewrite decide_True by (by left). rewrite Et.
             rewrite finalize_row_lookup.
             2:{ subst row. rewrite Hcs. apply Hu. }
             subst row. rewrite Hcs.
             assert (lookup2 lp s next = None) as ->.
             { unfold lookup2, get_or. rewrite Hlp; [done|by left]. }
             by destruct (get (get_or counts s []) next) as [c|];
               [destruct (c =? 0)|].
          -- rewrite decide_False.
             ++ by apply finalize_row_other.
             ++ intros [?|?]%elem_of_cons; done. }
  rewrite Hgen; [|done|done].
  by destruct (decide (prev ∈ sts)).
Qed.

Lemma finalize_start_get (m : HMM) (s : string) :
  get (finalize_start m) s =
  if decide (s ∈ states m)
  then Some (normalised (get_or (start_counts m) s 0) (start_total m))
  else None.
Proof.
  unfold finalize_start.
  assert (∀ (sts : list string) (acc : dict F),
            get (fold_left
                   (fun slp state =>
                      let count := get_or (start_counts m) state 0 in
                      if (start_total m =? 0) || (count =? 0)
                      then set slp state ninf
                      else set slp state (flog count (start_total m)))
                   sts acc) s =
            if decide (s ∈ sts)
            then Some (normalised (get_or (start_counts m) s 0) (start_total m))
            else get acc s) as Hgen.
  { induction sts as [|x sts IH]; intros acc; simpl.
    - destruct (decide (s ∈ [])) as [H|]; [|done].
      by apply not_elem_of_nil in H.
    - rewrite IH. destruct (decide (s ∈ sts)) as [Hin|Hnin].
      + rewrite decide_True; [done|by right].
      + destruct (decide (s = x)) as [->|Hne].
        * rewrite decide_True by (by left). unfold normalised.
          destruct (_ || _); by rewrite get_set_eq.
        * rewrite decide_False by (intros [?|?]%elem_of_cons; done).
          destruct (_ || _); by rewrite get_set_ne. }
  rewrite Hgen. by destruct (decide (s ∈ states m)).
Qed.

Lemma log_ratio_normalised (count total : Z) :
  0 ≤ count → 0 ≤ total → log_ratio count total = normalised count total.
Proof.
  intros Hc Ht. unfold log_ratio, normalised, ratio_positive.
  destruct (total =? 0) eqn:E1; [done|].
  destruct (count =? 0) eqn:E2; [done|]. simpl.
  apply Z.eqb_neq in E1, E2.
  rewrite (proj2 (Z.ltb_lt 0 count)), (proj2 (Z.ltb_lt 0 total)) by lia.
  done.
Qed.

Lemma table_value_normalised (sts : list string) (totals : dict Z)
    (counts counts' : dict (dict Z)) (prev next : string) :
  NoDup sts →
  (∀ k, unique_keys (get_or counts k [])) →
  (∀ k b, 0 ≤ count2 counts k b) →
  (∀ k, 0 ≤ get_or totals k 0) →
  same_rows counts counts' →
  match lookup2 (snd (finalize_table sts totals counts)) prev next with
  | Some v => v
  | None => log_ratio (count2 counts' prev next) (get_or totals prev 0)
  end
  = normalised (count2 counts' prev next) (get_or totals prev 0).
Proof.
  intros Hnd Hu Hn Ht Hsame.
  assert (count2 counts' prev next = count2 counts prev next) as ->.
  { unfold count2. by rewrite Hsame. }
  rewrite finalize_table_lookup by done.
  destruct (decide (prev ∈ sts)); [|by apply log_ratio_normalised].
  destruct (get_or totals prev 0 =? 0) eqn:Et;
    [by apply log_ratio_normalised|].
  assert (count2 counts prev next =
          match get (get_or counts prev []) next with
          | Some c => c
          | None => 0
          end) as -> by done.
  destruct (get (get_or counts prev []) next) as [c|] eqn:Ec.
  - unfold normalised. rewrite Et. simpl.
    destruct (c =? 0) eqn:E0; [|done].
    unfold log_ratio. by rewrite E0, orb_true_r.
  - unfold log_ratio, normalised. by rewrite !orb_true_r.
Qed.

Lemma coherent_finalize (m : HMM) :
  NoDup (states m) → counts_ok m → coherent (_finalize_probabilities m).
Proof.
  intros Hnd Hok.
  pose proof (ok_start_nonneg m Hok) as Hsn.
  pose proof (ok_start_total_nonneg m Hok) as Hstn.
  unfold _finalize_probabilities.
  destruct (states m) as [|s0 sts] eqn:Es.
  - split_and!.
    + simpl. intros s Hs. by apply not_elem_of_nil in Hs.
    + intros prev next. rewrite log_transition_value_eq. simpl.
      apply log_ratio_normalised;
        [apply (ok_transition_nonneg m Hok)
        |apply (ok_transition_total_nonneg m Hok)].
    + intros s o. rewrite log_emission_value_eq. simpl.
      apply log_ratio_normalised;
        [apply (ok_emission_nonneg m Hok)
        |apply (ok_emission_total_nonneg m Hok)].
  - pose proof (finalize_table_same_rows (s0 :: sts) (transition_totals m)
                  (transition_counts m)) as Hts.
    pose proof (finalize_table_same_rows (s0 :: sts) (emission_totals m)
                  (emission_counts m)) as Hes.
    pose proof (table_value_normalised (s0 :: sts) (transition_totals m)
                  (transition_counts m)) as Htv.
    pose proof (table_value_normalised (s0 :: sts) (emission_totals m)
                  (emission_counts m)) as Hev.
    destruct (finalize_table _ (transition_totals m) _) as [tc tlp].
    destruct (finalize_table _ (emission_totals m) _) as [ec elp].
    simpl in Hts, Hes, Htv, Hev.
    split_and!.
    + simpl. intros s Hs. unfold _log_start_prob. simpl.
      destruct (finalize_start m) as [|x slp] eqn:Ef.
      * by apply log_ratio_normalised.
      * rewrite <- Ef. unfold get_or.
        rewrite finalize_start_get, Es. by rewrite decide_True.
    + intros prev next. rewrite log_transition_value_eq. simpl.
      rewrite cached_lookup_eq.
      apply Htv; [done|apply (ok_transition_unique m Hok)
                 |apply (ok_transition_nonneg m Hok)
                 |apply (ok_transition_total_nonneg m Hok)|done].
    + intros s o. rewrite log_emission_value_eq. simpl.
      rewrite cached_lookup_eq.
      apply Hev; [done|apply (ok_emission_unique m Hok)
                 |apply (ok_emission_nonneg m Hok)
                 |apply (ok_emission_total_nonneg m Hok)|done].
Qed.

Lemma coherent_finish (m : HMM) : counts_ok m → coherent (finish m).
Proof.
  intros Hok. unfold finish. cbv zeta. apply coherent_finalize.
  - simpl. unfold sorted_set. rewrite merge_sort_Permutation.
    apply NoDup_elements.
  - by destruct Hok.
Qed.

Lemma log_emission_value_frame (m m' : HMM) (s o : string) :
  frame m m' → log_emission_value m' s o = log_emission_value m s o.
Proof.
  intros Hf. rewrite !log_emission_value_eq.
  rewrite (frame_emission_log_probs _ _ Hf), (frame_emission_totals _ _ Hf).
  unfold count2. by rewrite (frame_emission_counts _ _ Hf).
Qed.

Lemma log_start_prob_frame (m m' : HMM) (s : string) :
  frame m m' → _log_start_prob m' s = _log_start_prob m s.
Proof.
  intros Hf. unfold _log_start_prob.
  by rewrite (frame_start_log_probs _ _ Hf), (frame_start_total _ _ Hf),
    (frame_start_counts _ _ Hf).
Qed.

Lemma coherent_frame (m m' : HMM) : frame m m' → coherent m → coherent m'.
Proof.
  intros Hf (H1 & H2 & H3). split_and!.
  - intros s Hs. rewrite (frame_states _ _ Hf) in Hs.
    rewrite (log_start_prob_frame m m') by done.
    by rewrite (frame_start_counts _ _ Hf), (frame_start_total _ _ Hf), H1.
  - intros prev next. rewrite (log_transition_value_frame m m') by done.
    rewrite (frame_transition_totals _ _ Hf), H2.
    unfold count2. by rewrite (frame_transition_counts _ _ Hf).
  - intros s o. rewrite (log_emission_value_frame m m') by done.
    rewrite (frame_emission_totals _ _ Hf), H3.
    unfold count2. by rewrite (frame_emission_counts _ _ Hf).
Qed.

Lemma reachable_coherent (m : HMM) : reachable m → coherent m.
Proof.
  induction 1 as [|m pairs Hm IH|m w r m' _ IH Hd|m t r m' _ IH Hd].
  - split_and!.
    + intros s Hs. by apply not_elem_of_nil in Hs.
    + intros prev next. by rewrite log_transition_value_eq.
    + intros s o. by rewrite log_emission_value_eq.
  - rewrite train_finish. apply coherent_finish, counts_ok_train_loop.
    by apply reachable_counts_ok.
  - eapply coherent_frame; [by eapply decode_word_frame|done].
  - eapply coherent_frame; [by eapply decode_text_frame|done].
Qed.

(** X9.  On every reachable model the lookups agree with the counts:
    the start log-probability of a state, the transition log-probability
    of any pair and the emission log-probability of any pair are [-inf]
    when the count or the total is zero and [log(count / total)]
    otherwise.  In particular the cached tables and the uncached
    computation never differ. *)
Theorem X9_lookups_are_normalised_counts (m : HMM) :
  reachable m →
  (∀ s, s ∈ states m →
        _log_start_prob m s
        = normalised (get_or (start_counts m) s 0) (start_total m)) ∧
  (∀ prev next,
     log_transition_value m prev next
     = normalised (count2 (transition_counts m) prev next)
         (get_or (transition_totals m) prev 0)) ∧
  (∀ s o,
     log_emission_value m s o
     = normalised (count2 (emission_counts m) s o)
         (get_or (emission_totals m) s 0)).
Proof. apply reachable_coherent. Qed.

(** ** The search finds a best state sequence *)

Section Optimal.
Hypothesis Hlaws : score_laws LA.

Lemma fle_refl (x : F) : fle x x.
Proof.
  unfold fle. destruct (flt x x) eqn:E; [|done].
  by rewrite (law_asym _ Hlaws _ _ E) in E.
Qed.

Lemma fle_trans (x y z : F) : fle x y → fle y z → fle x z.
Proof. unfold fle. intros Hxy Hyz. by apply (law_negtrans _ Hlaws z y x). Qed.

Lemma flt_fle (x y : F) : flt x y = true → fle x y.
Proof. apply (law_asym _ Hlaws). Qed.

Lemma fle_flt (x y z : F) : fle x y → flt y z = true → flt x z = true.
Proof.
  unfold fle. intros Hxy Hyz. destruct (flt x z) eqn:E; [done|].
  by rewrite (law_negtrans _ Hlaws y x z Hxy E) in Hyz.
Qed.

Lemma fle_add (x y t : F) : fle x y → fle (fadd x t) (fadd y t).
Proof. apply (law_mono _ Hlaws). Qed.

Lemma fle_below_add (x t y : F) : fle x ninf → fle (fadd x t) y.
Proof.
  intros Hx. eapply fle_trans; [by apply fle_add|].
  apply (law_ninf_left _ Hlaws).
Qed.

Lemma extend_score_snoc (m : HMM) :
  ∀ q obs s v s' o,
    length q = length obs →
    extend_score m s v (q ++ [s']) (obs ++ [o]) =
    (s', fadd (fadd (snd (extend_score m s v q obs))
                 (log_transition_value m (fst (extend_score m s v q obs)) s'))
           (log_emission_value m s' o)).
Proof.
  induction q as [|x q IH]; intros [|o' obs] s v s' o Hlen; try done.
  simpl. apply IH. simpl in Hlen. lia.
Qed.

Lemma prefix_score_snoc (m : HMM) (q obs : list string) l v s' o :
  length q = length obs →
  prefix_score m q obs = Some (l, v) →
  prefix_score m (q ++ [s']) (obs ++ [o]) =
  Some (s', fadd (fadd v (log_transition_value m l s'))
              (log_emission_value m s' o)).
Proof.
  destruct q as [|x q], obs as [|o' obs]; try done.
  simpl. intros Hlen [= E]. rewrite extend_score_snoc by lia.
  by rewrite E.
Qed.

Lemma extend_score_last (m : HMM) :
  ∀ q obs s v,
    length q = length obs →
    last (s :: q) = Some (fst (extend_score m s v q obs)).
Proof.
  induction q as [|x q IH]; intros [|o' obs] s v Hlen; try done.
  simpl in Hlen. rewrite last_cons_cons. simpl. apply IH. lia.
Qed.

Lemma prefix_score_is_Some (m : HMM) (sts q obs : list string) :
  candidate sts obs q → obs ≠ [] →
  ∃ l v, prefix_score m q obs = Some (l, v) ∧ l ∈ sts.
Proof.
  intros [Hlen Hall] Hne.
  destruct q as [|x q], obs as [|o' obs]; try done.
  simpl. destruct (extend_score m x _ q obs) as [l v] eqn:E.
  exists l, v. split; [done|].
  pose proof (extend_score_last m q obs x
    (fadd (_log_start_prob m x) (log_emission_value m x o'))) as Hl.
  rewrite E in Hl. simpl in Hl, Hlen.
  rewrite Forall_forall in Hall. apply Hall.
  eapply last_Some_elem_of. apply Hl. lia.
Qed.

Lemma prefix_score_last_in (m : HMM) (sts q obs : list string) l v :
  candidate sts obs q → prefix_score m q obs = Some (l, v) → l ∈ sts.
Proof.
  intros Hc E. destruct obs as [|o obs].
  { destruct q; done. }
  destruct (prefix_score_is_Some m sts q (o :: obs) Hc) as (l' & v' & E' & Hin);
    [done|].
  rewrite E in E'. by inversion E'; subst.
Qed.

Lemma candidate_snoc_inv (sts obs : list string) o q :
  candidate sts (obs ++ [o]) q →
  ∃ q' x, q = q' ++ [x] ∧ candidate sts obs q' ∧ x ∈ sts.
Proof.
  intros [Hlen Hall]. rewrite length_app in Hlen. simpl in Hlen.
  destruct (decide (q = [])) as [->|Hne]; [simpl in Hlen; lia|].
  destruct (exists_last Hne) as (q' & x & ->).
  exists q', x. apply Forall_app in Hall as [Hq' Hx].
  apply Forall_cons in Hx as [Hx _].
  rewrite length_app in Hlen. simpl in Hlen.
  split; [done|]. split; [|done]. split; [lia|done].
Qed.

Local Ltac step_lookup lem :=
  apply returns_bind; eapply returns_mono; [apply lem|];
  simpl; intros ? ? [-> ?].

(** *** The loops of the search, with the scores they store *)

Lemma init_loop_optimal (m0 : HMM) (first_obs : string) :
  ∀ sts row path m,
    frame m0 m →
    returns (init_loop sts first_obs row path) m
      (fun rp m' =>
         frame m0 m' ∧
         (∀ s, get (snd rp) s =
               if decide (s ∈ sts) then Some [s] else get path s) ∧
         (∀ s, get (fst rp) s =
               if decide (s ∈ sts)
               then Some (fadd (_log_start_prob m0 s)
                            (log_emission_value m0 s first_obs))
               else get row s)).
Proof.
  induction sts as [|state rest IH]; intros row path m Hf; simpl.
  - apply returns_ret. split; [done|].
    split; intros s; destruct (decide (s ∈ [])) as [Hin|]; try done;
      by apply not_elem_of_nil in Hin.
  - apply returns_bind, returns_gets.
    step_lookup log_emission_returns.
    rewrite (log_start_prob_frame m0 m), (log_emission_value_frame m0 m) by done.
    eapply returns_mono.
    { apply IH. by eapply frame_trans. }
    intros [row' path'] m'' (Hf' & Hp & Hr). split; [done|]. simpl in *.
    split; intros s; [rewrite Hp|rewrite Hr];
      (destruct (decide (s ∈ rest)) as [Hin|Hnin];
       [rewrite decide_True; [done|by right]|]);
      rewrite get_set; (destruct (decide (state = s)) as [->|Hne];
       [rewrite decide_True; [done|by left]|]);
      (rewrite decide_False; [done|]);
      intros [->|?]%elem_of_cons; done.
Qed.

Lemma best_prev_loop_optimal (m0 : HMM) (path : dict (list string))
    (prev_row : dict F) (curr : string) :
  ∀ sts bp bs m,
    frame m0 m →
    returns (best_prev_loop sts path prev_row curr bp bs) m
      (fun r m' =>
         frame m0 m' ∧
         fle bs (snd r) ∧
         (∀ p v, p ∈ sts → is_Some (get path p) → get prev_row p = Some v →
            fle (fadd v (log_transition_value m0 p curr)) (snd r)) ∧
         match fst r with
         | None => bp = None ∧ snd r = bs
         | Some p =>
             (bp = Some p ∧ snd r = bs) ∨
             (p ∈ sts ∧ is_Some (get path p) ∧
              ∃ v, get prev_row p = Some v ∧
                   snd r = fadd v (log_transition_value m0 p curr))
         end).
Proof.
  induction sts as [|prev rest IH]; intros bp bs m Hf; simpl.
  - apply returns_ret. split; [done|]. split; [apply fle_refl|].
    split; [intros p v Hin; by apply not_elem_of_nil in Hin|].
    simpl. destruct bp; [by left|done].
  - unfold mem. destruct (get path prev) as [pp|] eqn:Epath; simpl.
    2:{ eapply returns_mono; [by apply IH|].
        intros [r1 r2] mf (Hf' & Hle & Hdom & Hr). simpl in *.
        split; [done|]. split; [done|]. split.
        - intros p v [->|Hin]%elem_of_cons Hp Hv; [|by eapply Hdom].
          rewrite Epath in Hp. by destruct Hp.
        - destruct r1 as [p|]; [|done].
          destruct Hr as [?|(? & ? & ?)]; [by left|].
          right. split; [by right|done]. }
    destruct (get prev_row prev) as [prev_score|] eqn:Erow.
    2:{ eapply returns_mono; [by apply IH|].
        intros [r1 r2] mf (Hf' & Hle & Hdom & Hr). simpl in *.
        split; [done|]. split; [done|]. split.
        - intros p v [->|Hin]%elem_of_cons Hp Hv; [|by eapply Hdom].
          by rewrite Erow in Hv.
        - destruct r1 as [p|]; [|done].
          destruct Hr as [?|(? & ? & ?)]; [by left|].
          right. split; [by right|done]. }
    step_lookup log_transition_returns.
    rewrite (log_transition_value_frame m0 m) by done.
    destruct (flt bs _) eqn:Eflt.
    + eapply returns_mono; [apply IH; by eapply frame_trans|].
      intros [r1 r2] mf (Hf' & Hle & Hdom & Hr). simpl in *.
      split; [done|].
      split; [eapply fle_trans; [by apply flt_fle|done]|]. split.
      * intros p v [->|Hin]%elem_of_cons Hp Hv; [|by eapply Hdom].
        rewrite Erow in Hv. by inversion Hv; subst.
      * destruct r1 as [p|].
        -- right. destruct Hr as [[[= <-] ->]|(? & ? & ?)].
           ++ split; [by left|]. split; [by rewrite Epath|]. eauto.
           ++ split; [by right|done].
        -- by destruct Hr.
    + eapply returns_mono; [apply IH; by eapply frame_trans|].
      intros [r1 r2] mf (Hf' & Hle & Hdom & Hr). simpl in *.
      split; [done|]. split; [done|]. split.
      * intros p v [->|Hin]%elem_of_cons Hp Hv; [|by eapply Hdom].
        rewrite Erow in Hv. inversion Hv; subst.
        eapply fle_trans; [exact Eflt|done].
      * destruct r1 as [p|]; [|done].
        destruct Hr as [?|(? & ? & ?)]; [by left|].
        right. split; [by right|done].
Qed.

Lemma entry_optimal_ext (m0 : HMM) (sts obs : list string)
    (row row' : dict F) (np np' : dict (list string)) (s : string) :
  get row' s = get row s → get np' s = get np s →
  entry_optimal m0 sts obs row np s → entry_optimal m0 sts obs row' np' s.
Proof. unfold entry_optimal. intros -> ->. done. Qed.

Lemma row_optimal_entries (m0 : HMM) (sts obs : list string)
    (row : dict F) (path : dict (list string)) :
  (∀ s, s ∈ sts → entry_optimal m0 sts obs row path s) →
  (∀ s p, get path s = Some p → s ∈ sts) →
  row_optimal m0 sts obs row path.
Proof.
  intros Hent Hkeys. split_and!.
  - intros s p Hp. by apply (Hent s (Hkeys _ _ Hp)).
  - intros s Hs. by apply (Hent s Hs).
  - intros q s v v' Hc Hq.
    assert (Hs : s ∈ sts) by by eapply prefix_score_last_in.
    destruct (Hent s Hs) as (_ & _ & H3). by eapply H3.
Qed.

Lemma step_dominated (m0 : HMM) (all obs : list string) (o curr : string)
    (path : dict (list string)) (prev_row : dict F) (best : F) :
  obs ≠ [] →
  row_optimal m0 all obs prev_row path →
  (∀ p v, p ∈ all → is_Some (get path p) → get prev_row p = Some v →
     fle (fadd v (log_transition_value m0 p curr)) best) →
  ∀ q v', candidate all (obs ++ [o]) q →
    prefix_score m0 q (obs ++ [o]) = Some (curr, v') →
    ∃ w, v' = fadd w (log_emission_value m0 curr o) ∧ fle w best.
Proof.
  intros Hne (Hp1 & Hp2 & Hp3) Hdom q v' Hc Hq.
  destruct (candidate_snoc_inv _ _ _ _ Hc) as (q' & x & -> & Hc' & Hx).
  destruct (prefix_score_is_Some m0 all q' obs Hc' Hne) as (l & u & Hu & Hl).
  rewrite (prefix_score_snoc m0 q' obs l u x o) in Hq; [|by destruct Hc'|done].
  inversion Hq; subst. eexists. split; [done|].
  destruct (get path l) as [pp|] eqn:Epath.
  - destruct (Hp1 _ _ Epath) as (_ & v & Hv & _).
    eapply fle_trans; [apply fle_add; by eapply Hp3|].
    apply Hdom; [done|by rewrite Epath|done].
  - apply fle_below_add. eapply Hp3; [done..|]. by apply Hp2.
Qed.

Lemma curr_loop_optimal (m0 : HMM) (all obs : list string) (o : string)
    (path : dict (list string)) (prev_row : dict F) :
  obs ≠ [] →
  row_optimal m0 all obs prev_row path →
  ∀ sts (Q : string → Prop) row np m,
    frame m0 m →
    NoDup sts →
    (∀ s, s ∈ sts → s ∈ all) →
    (∀ s, Q s → s ∉ sts) →
    (∀ s, Q s → entry_optimal m0 all (obs ++ [o]) row np s) →
    (∀ s p, get np s = Some p → Q s) →
    returns (curr_loop sts all o path prev_row row np) m
      (fun r m' =>
         frame m0 m' ∧
         (∀ s, Q s ∨ s ∈ sts →
               entry_optimal m0 all (obs ++ [o]) (fst r) (snd r) s) ∧
         (∀ s p, get (snd r) s = Some p → Q s ∨ s ∈ sts)).
Proof.
  intros Hne Hprev.
  induction sts as [|curr rest IH]; intros Q row np m Hf Hnd Hsub HQ Hent Hkeys;
    simpl.
  - apply returns_ret. split; [done|]. split.
    + intros s [?|Hin]; [auto|]. by apply not_elem_of_nil in Hin.
    + intros s p Hp. left. by eapply Hkeys.
  - apply NoDup_cons in Hnd as [Hcurr Hnd].
    assert (Hnew : get np curr = None).
    { destruct (get np curr) as [p|] eqn:E; [|done].
      exfalso. apply (HQ curr); [by eapply Hkeys|by left]. }
    step_lookup log_emission_returns.
    rewrite (log_emission_value_frame m0 m) by done.
    apply returns_bind. eapply returns_mono.
    { apply (best_prev_loop_optimal m0). by eapply frame_trans. }
    intros [best_prev best_score] m2 (Hf2 & Hle & Hdom & Hbp). simpl in *.
    pose proof (step_dominated m0 all obs o curr path prev_row best_score
                  Hne Hprev Hdom) as Hstep.
    assert (Hin_curr : curr ∈ all) by (apply Hsub; by left).
    destruct best_prev as [bp|].
    + destruct Hbp as [[? _]|(Hbp_in & [pp Epp] & v & Hv & ->)]; [done|].
      apply returns_bind. eapply returns_must; [done|].
      eapply returns_mono.
      { apply (IH (fun s => Q s ∨ s = curr)); [done|done| | | |].
        - intros s Hs. apply Hsub. by right.
        - intros s [HQs | ->]; [|done].
          intros Hs. apply (HQ s HQs). by right.
        - intros s [HQs | ->].
          + eapply entry_optimal_ext; [| |by apply Hent].
            * rewrite get_set. destruct (decide (curr = s)) as [->|]; [|done].
              exfalso. apply (HQ s HQs). by left.
            * rewrite get_set. destruct (decide (curr = s)) as [->|]; [|done].
              exfalso. apply (HQ s HQs). by left.
          + destruct Hprev as (Hp1 & Hp2 & Hp3).
            destruct (Hp1 _ _ Epp) as ([Hlen Hall] & v0 & Hv0 & Hscore).
            rewrite Hv in Hv0. inversion Hv0; subst v0.
            split_and!.
            * intros p. rewrite !get_set, !decide_True by done.
              intros [= <-]. split.
              -- split; [rewrite !length_app; simpl; lia|].
                 apply Forall_app. split; [done|]. by constructor.
              -- eexists. split; [done|].
                 by apply prefix_score_snoc.
            * rewrite get_set, decide_True by done. done.
            * intros q v1 v' Hc Hq. rewrite get_set, decide_True by done.
              intros [= <-].
              destruct (Hstep q v' Hc Hq) as (w & -> & Hw).
              by apply fle_add.
        - intros s p. rewrite get_set.
          destruct (decide (curr = s)) as [->|]; [by right|].
          intros Hp. left. by eapply Hkeys. }
      intros [row' np'] m3 (Hf3 & Hrow & Hnp'). split; [done|]. simpl in *.
      split.
      * intros s Hs. apply Hrow.
        destruct Hs as [?|[->|?]%elem_of_cons]; auto.
      * intros s p Hp. destruct (Hnp' s p Hp) as [[?| ->]|?]; auto.
        -- right. by left.
        -- right. by right.
    + destruct Hbp as [_ ->].
      eapply returns_mono.
      { apply (IH (fun s => Q s ∨ s = curr)); [done|done| | | |].
        - intros s Hs. apply Hsub. by right.
        - intros s [HQs | ->]; [|done].
          intros Hs. apply (HQ s HQs). by right.
        - intros s [HQs | ->].
          + eapply entry_optimal_ext; [|done|by apply Hent].
            rewrite get_set. destruct (decide (curr = s)) as [->|]; [|done].
            exfalso. apply (HQ s HQs). by left.
          + split_and!.
            * intros p. by rewrite Hnew.
            * intros _. by rewrite get_set, decide_True.
            * intros q v1 v' Hc Hq. rewrite get_set, decide_True by done.
              intros [= <-].
              destruct (Hstep q v' Hc Hq) as (w & -> & Hw).
              by apply fle_below_add.
        - intros s p Hp. left. by eapply Hkeys. }
      intros [row' np'] m3 (Hf3 & Hrow & Hnp'). split; [done|]. simpl in *.
      split.
      * intros s Hs. apply Hrow.
        destruct Hs as [?|[->|?]%elem_of_cons]; auto.
      * intros s p Hp. destruct (Hnp' s p Hp) as [[?| ->]|?]; auto.
        -- right. by left.
        -- right. by right.
Qed.

Lemma index_loop_optimal (m0 : HMM) :
  NoDup (states m0) →
  ∀ obs index viterbi path seen m,
    frame m0 m →
    (1 ≤ index)%nat →
    length seen = index →
    length viterbi = (index + length obs)%nat →
    (∃ row, viterbi !! (index - 1)%nat = Some row ∧
            row_optimal m0 (states m0) seen row path) →
    returns (index_loop index obs viterbi path) m
      (fun r m' =>
         frame m0 m' ∧
         ∃ row, fst r !! (index + length obs - 1)%nat = Some row ∧
                row_optimal m0 (states m0) (seen ++ obs) row (snd r)).
Proof.
  intros Hnd.
  induction obs as [|obs_char rest IH];
    intros index viterbi path seen m Hf Hidx Hseen Hlen (prev_row & Hprev & Hinv);
    simpl.
  - apply returns_ret. split; [done|]. exists prev_row. simpl.
    by rewrite Nat.add_0_r, app_nil_r.
  - apply returns_bind, returns_gets.
    rewrite (frame_states _ _ Hf).
    apply returns_bind. eapply returns_must; [done|].
    destruct (lookup_lt_is_Some_2 viterbi index) as [row0 Hrow0];
      [simpl in Hlen; lia|].
    apply returns_bind. eapply returns_must; [done|].
    apply returns_bind. eapply returns_mono.
    { apply (curr_loop_optimal m0 (states m0) seen obs_char path prev_row)
        with (Q := fun _ => False); try done.
      intros ->. simpl in Hseen. lia. }
    intros [row new_path] m1 (Hf1 & Hrow & Hnp). simpl in *.
    eapply returns_mono.
    { apply (IH (S index) _ _ (seen ++ [obs_char]));
        [done|lia|rewrite length_app; simpl; lia|rewrite length_insert; lia|].
      exists row. split.
      - replace (S index - 1)%nat with index by lia.
        apply list_lookup_insert_eq. lia.
      - apply row_optimal_entries.
        + intros s Hs. apply Hrow. by right.
        + intros s p Hp. by destruct (Hnp s p Hp). }
    intros [viterbi' path'] m2 (Hf2 & row' & Hrow' & Hinv'). split; [done|].
    exists row'. simpl in *.
    replace (index + S (length rest) - 1)%nat
      with (S index + length rest - 1)%nat by lia.
    by rewrite <- app_assoc in Hinv'.
Qed.

Lemma viterbi_forward_optimal (m : HMM) (observed : string) :
  NoDup (states m) →
  observed ≠ EmptyString →
  returns (viterbi_forward (states m) observed) m
    (fun r m' =>
       frame m m' ∧
       ∃ row, fst r !! (String.length observed - 1)%nat = Some row ∧
              row_optimal m (states m) (PyStr.chars observed) row (snd r)).
Proof.
  intros Hnd Hne. unfold viterbi_forward.
  destruct observed as [|c rest]; [done|]. simpl.
  apply returns_bind, returns_ret.
  apply returns_bind, returns_ret.
  apply returns_bind. eapply returns_mono.
  { apply (init_loop_optimal m). apply frame_refl. }
  intros [row path] m1 (Hf1 & Hpath & Hrow). simpl in *.
  eapply returns_mono.
  { apply (index_loop_optimal m Hnd _ _ _ _ [String c EmptyString]);
      [done|lia|done| |].
    - rewrite drop_0, PyStrFacts.length_chars. simpl.
      by rewrite length_replicate.
    - exists row. split; [done|]. split_and!.
      + intros s p. rewrite Hpath.
        destruct (decide (s ∈ states m)) as [Hs|]; [|done].
        intros [= <-]. split.
        * split; [done|]. by constructor.
        * eexists. split; [by rewrite Hrow, decide_True|done].
      + intros s Hs. rewrite Hpath. by rewrite decide_True.
      + intros q s v v' [Hlen Hall].
        destruct q as [|x [|y q]]; try done.
        simpl. intros [= <- <-]. apply Forall_cons in Hall as [Hx _].
        rewrite Hrow, decide_True by done. intros [= <-]. apply fle_refl. }
  intros [viterbi path'] m2 (Hf2 & row' & Hrow' & Hinv'). split; [done|].
  exists row'. simpl in Hrow', Hinv' |- *.
  rewrite drop_0, PyStrFacts.length_chars in Hrow'.
  rewrite drop_0 in Hinv'.
  by rewrite Nat.sub_0_r in *.
Qed.

Lemma final_loop_optimal (m0 : HMM) (last_row : dict F) :
  ∀ sts fs fsc m,
    frame m0 m →
    returns (final_loop sts last_row fs fsc) m
      (fun r m' =>
         frame m0 m' ∧
         ∃ best,
           fle fsc best ∧
           (∀ s sc, s ∈ sts → get last_row s = Some sc →
              fle (fadd sc (log_transition_value m0 s END_STATE)) best) ∧
           match r with
           | None => fs = None ∧ best = fsc
           | Some s =>
               (fs = Some s ∧ best = fsc) ∨
               (s ∈ sts ∧ flt fsc best = true ∧
                ∃ sc, get last_row s = Some sc ∧
                      best = fadd sc (log_transition_value m0 s END_STATE))
           end).
Proof.
  induction sts as [|state rest IH]; intros fs fsc m Hf; simpl.
  - apply returns_ret. split; [done|]. exists fsc.
    split; [apply fle_refl|].
    split; [intros s sc Hin; by apply not_elem_of_nil in Hin|].
    destruct fs; [by left|done].
  - destruct (get last_row state) as [sc|] eqn:Esc.
    2:{ eapply returns_mono; [by apply IH|].
        intros r mf (Hf' & best & Hle & Hdom & Hr). split; [done|].
        exists best. split; [done|]. split.
        - intros s sc [->|Hin]%elem_of_cons Hs; [|by eapply Hdom].
          by rewrite Esc in Hs.
        - destruct r as [s|]; [|done].
          destruct Hr as [?|(? & ? & ?)]; [by left|].
          right. split; [by right|done]. }
    step_lookup log_transition_returns.
    rewrite (log_transition_value_frame m0 m) by done.
    destruct (flt fsc _) eqn:Eflt.
    + eapply returns_mono; [apply IH; by eapply frame_trans|].
      intros r mf (Hf' & best & Hle & Hdom & Hr). split; [done|].
      exists best.
      split; [eapply fle_trans; [by apply flt_fle|done]|]. split.
      * intros s sc' [->|Hin]%elem_of_cons Hs; [|by eapply Hdom].
        rewrite Esc in Hs. by inversion Hs; subst.
      * destruct r as [s|].
        -- right. destruct Hr as [[[= <-] ->]|(? & Hlt & ?)].
           ++ split; [by left|]. split; [done|]. eauto.
           ++ split; [by right|]. split; [|done].
              eapply fle_flt; [by apply flt_fle|done].
        -- by destruct Hr.
    + eapply returns_mono; [apply IH; by eapply frame_trans|].
      intros r mf (Hf' & best & Hle & Hdom & Hr). split; [done|].
      exists best. split; [done|]. split.
      * intros s sc' [->|Hin]%elem_of_cons Hs; [|by eapply Hdom].
        rewrite Esc in Hs. inversion Hs; subst.
        eapply fle_trans; [exact Eflt|done].
      * destruct r as [s|]; [|done].
        destruct Hr as [?|(? & ? & ?)]; [by left|].
        right. split; [by right|done].
Qed.

Lemma sequence_score_dominated (m : HMM) (obs : list string)
    (row : dict F) (path : dict (list string)) (best : F) :
  row_optimal m (states m) obs row path →
  (∀ s sc, s ∈ states m → get row s = Some sc →
     fle (fadd sc (log_transition_value m s END_STATE)) best) →
  ∀ q v, candidate (states m) obs q → sequence_score m q obs = Some v →
         fle v best.
Proof.
  intros (Hp1 & Hp2 & Hp3) Hdom q v Hc. unfold sequence_score.
  destruct (prefix_score m q obs) as [[l u]|] eqn:Eq; [|done].
  intros [= <-].
  assert (Hl : l ∈ states m) by by eapply prefix_score_last_in.
  assert (∃ w, get row l = Some w) as [w Hw].
  { destruct (get path l) as [pp|] eqn:Epath.
    - destruct (Hp1 _ _ Epath) as (_ & w & Hw & _). eauto.
    - eauto. }
  eapply fle_trans; [apply fle_add; by eapply Hp3|]. by apply Hdom.
Qed.

Lemma viterbi_search_optimal (m : HMM) (observed : string) :
  NoDup (states m) →
  observed ≠ EmptyString →
  returns (viterbi_search (states m) observed) m
    (fun r m' =>
       frame m m' ∧
       match r with
       | None =>
           ∀ q v, candidate (states m) (PyStr.chars observed) q →
                  sequence_score m q (PyStr.chars observed) = Some v →
                  finite v = false
       | Some p =>
           candidate (states m) (PyStr.chars observed) p ∧
           ∃ v, sequence_score m p (PyStr.chars observed) = Some v ∧
                finite v = true ∧
                ∀ q v', candidate (states m) (PyStr.chars observed) q →
                        sequence_score m q (PyStr.chars observed) = Some v' →
                        flt v v' = false
       end).
Proof.
  intros Hnd Hne. unfold viterbi_search.
  apply returns_bind. eapply returns_mono.
  { by apply viterbi_forward_optimal. }
  intros [viterbi path] m1 (Hf1 & last_row & Hlast & Hopt). simpl in *.
  apply returns_bind. eapply returns_must; [done|].
  apply returns_bind. eapply returns_mono.
  { by apply (final_loop_optimal m). }
  intros fs m2 (Hf2 & best & Hle & Hdom & Hfs).
  pose proof (sequence_score_dominated m _ _ _ best Hopt Hdom) as Hbest.
  destruct fs as [s|].
  - destruct Hfs as [[? _]|(Hs & Hlt & sc & Hsc & ->)]; [done|].
    destruct Hopt as (Hp1 & Hp2 & Hp3).
    destruct (get path s) as [p|] eqn:Ep.
    + apply returns_bind. eapply returns_must; [done|].
      apply returns_ret. split; [done|].
      destruct (Hp1 _ _ Ep) as (Hc & v & Hv & Hscore).
      rewrite Hsc in Hv. inversion Hv; subst v.
      split; [done|]. eexists. split.
      { unfold sequence_score. by rewrite Hscore. }
      split; [done|]. apply Hbest.
    + rewrite (Hp2 s Hs Ep) in Hsc. inversion Hsc; subst sc.
      by rewrite (law_ninf_left _ Hlaws) in Hlt.
  - destruct Hfs as [_ ->]. apply returns_ret. split; [done|]. apply Hbest.
Qed.

Lemma reachable_states_NoDup (m : HMM) : reachable m → NoDup (states m).
Proof.
  induction 1 as [|m pairs Hm IH|m w r m' _ IH Hd|m t r m' _ IH Hd].
  - constructor.
  - rewrite train_finish.
    destruct (finish_alphabet (train_loop m pairs)) as [-> _].
    unfold sorted_set. rewrite merge_sort_Permutation. apply NoDup_elements.
  - by rewrite (frame_states _ _ (decode_word_frame _ _ _ _ Hd)).
  - by rewrite (frame_states _ _ (decode_text_frame _ _ _ _ Hd)).
Qed.

(** X10.  [decode_word] finds a best state sequence.  On a reachable
    model with states, for a non-empty word, it returns normally and
    either some sequence of states, one per character of the lowercased
    word, has a finite total score (start, emissions, transitions and
    the transition to END, added in the order of the code); then the
    result is the case-restored join of such a sequence, and no such
    sequence scores more; or no sequence has a finite score and the word
    comes back unchanged.  The float facts used are the [score_laws]. *)
Theorem X10_decode_word_optimal (m : HMM) (w : string) :
  reachable m →
  w ≠ EmptyString →
  states m ≠ [] →
  returns (decode_word w) m
    (fun r m' =>
       let obs := PyStr.chars (PyStr.lower w) in
       (r = w ∧
        ∀ q v, candidate (states m) obs q →
               sequence_score m q obs = Some v → finite v = false) ∨
       (∃ p v,
          restore_case w (PyStr.join "" p) m' = Some (r, m') ∧
          candidate (states m) obs p ∧
          sequence_score m p obs = Some v ∧
          finite v = true ∧
          ∀ q v', candidate (states m) obs q →
                  sequence_score m q obs = Some v' → flt v v' = false)).
Proof.
  intros Hr Hw Hst.
  assert (PyStr.lower w ≠ EmptyString) as Hne by (by destruct w).
  destruct (viterbi_search_optimal m (PyStr.lower w)
              (reachable_states_NoDup m Hr) Hne)
    as (res & m1 & Hs & Hf & Hres).
  unfold returns. rewrite decode_word_eq, Hs.
  destruct w as [|c w]; [done|]. simpl negb.
  rewrite bool_decide_true by done. simpl orb. cbv iota.
  destruct res as [p|].
  - rewrite restore_case_eq. eexists _, _. split; [done|]. right.
    destruct Hres as (Hc & v & Hv & Hfin & Hbest).
    exists p, v. by rewrite restore_case_eq.
  - eexists _, _. split; [done|]. by left.
Qed.

(** *** An unseen character *)

Lemma extend_score_below (m : HMM) :
  ∀ q obs s v, fle v ninf → fle (snd (extend_score m s v q obs)) ninf.
Proof.
  induction q as [|x q IH]; intros [|o obs] s v Hv; try done.
  simpl. apply IH. by do 2 apply fle_below_add.
Qed.

Lemma extend_score_unseen (m : HMM) (o : string) :
  ∀ q obs s v,
    length q = length obs →
    o ∈ obs →
    (∀ x, x ∈ q → log_emission_value m x o = ninf) →
    fle (snd (extend_score m s v q obs)) ninf.
Proof.
  induction q as [|x q IH]; intros [|o' obs] s v Hlen Ho Hem; try done.
  { by apply not_elem_of_nil in Ho. }
  simpl. apply elem_of_cons in Ho as [<-|Ho].
  - apply extend_score_below. rewrite Hem by by left.
    apply (law_ninf_right _ Hlaws).
  - apply IH; [simpl in Hlen; lia|done|]. intros y Hy. apply Hem. by right.
Qed.

Lemma sequence_score_unseen (m : HMM) (o : string) (q obs : list string) v :
  candidate (states m) obs q →
  o ∈ obs →
  (∀ x, x ∈ states m → log_emission_value m x o = ninf) →
  sequence_score m q obs = Some v →
  finite v = false.
Proof.
  intros [Hlen Hall] Ho Hem. unfold sequence_score.
  destruct (prefix_score m q obs) as [[l u]|] eqn:Eq; [|done].
  intros [= <-]. apply (fle_below_add u).
  rewrite Forall_forall in Hall.
  destruct q as [|x q], obs as [|o' obs]; try done.
  simpl in Eq. inversion Eq as [E]. clear Eq.
  replace u with (snd (extend_score m x
    (fadd (_log_start_prob m x) (log_emission_value m x o')) q obs))
    by by rewrite E.
  apply elem_of_cons in Ho as [<-|Ho].
  - apply extend_score_below. rewrite Hem by (apply Hall; by left).
    apply (law_ninf_right _ Hlaws).
  - apply extend_score_unseen with (o := o);
      [simpl in Hlen; lia|done|].
    intros y Hy. apply Hem, Hall. by right.
Qed.

(** X11.  A word with a character that no state was ever counted to
    emit is returned unchanged by [decode_word], on every reachable
    model: one unseen character anywhere in the word disables the
    correction of the whole word. *)
Theorem X11_unseen_character_unchanged (m : HMM) (w o : string) :
  reachable m →
  o ∈ PyStr.chars (PyStr.lower w) →
  (∀ s, s ∈ states m → count2 (emission_counts m) s o = 0) →
  returns (decode_word w) m (fun r _ => r = w).
Proof.
  intros Hr Ho Hcount.
  assert (Hem : ∀ x, x ∈ states m → log_emission_value m x o = ninf).
  { intros x Hx. destruct (reachable_coherent m Hr) as (_ & _ & ->).
    rewrite (Hcount x Hx). unfold normalised. simpl. by rewrite orb_true_r. }
  unfold returns. rewrite decode_word_eq.
  destruct (negb (PyStr.nonempty w) || negb (bool_decide (states m ≠ [])))
    eqn:Eg; [eauto|].
  assert (PyStr.lower w ≠ EmptyString) as Hne by (by destruct w).
  destruct (viterbi_search_optimal m (PyStr.lower w)
              (reachable_states_NoDup m Hr) Hne)
    as (res & m1 & Hs & Hf & Hres).
  rewrite Hs. destruct res as [p|]; [|eauto].
  destruct Hres as (Hc & v & Hv & Hfin & _).
  by rewrite (sequence_score_unseen m o p _ v Hc Ho Hem Hv) in Hfin.
Qed.

End Optimal.

End Further.

(** * The loader of the training pairs *)

Module LoaderFacts.
Import PyStr.

Lemma lstrip_idem s : lstrip (lstrip s) = lstrip s.
Proof.
  induction s as [|c r IH]; [done|]. cbn [lstrip].
  destruct (is_space_char c) eqn:E; [done|]. cbn [lstrip]. by rewrite E.
Qed.

Lemma rstrip_cons c r :
  rstrip (String c r) =
  match rstrip r with
  | EmptyString => if is_space_char c then EmptyString else String c EmptyString
  | r' => String c r'
  end.
Proof. done. Qed.

Lemma rstrip_idem s : rstrip (rstrip s) = rstrip s.
Proof.
  induction s as [|c r IH]; [done|]. rewrite rstrip_cons.
  destruct (rstrip r) as [|d r'] eqn:E.
  - destruct (is_space_char c) eqn:Ec; [done|].
    rewrite rstrip_cons. simpl rstrip. by rewrite Ec.
  - by rewrite rstrip_cons, IH.
Qed.

Lemma lstrip_rstrip_lstrip s : lstrip (rstrip (lstrip s)) = rstrip (lstrip s).
Proof.
  induction s as [|c r IH]; [done|]. cbn [lstrip].
  destruct (is_space_char c) eqn:E; [done|]. rewrite rstrip_cons.
  destruct (rstrip r) as [|d r']; rewrite ?E; cbn [lstrip]; by rewrite E.
Qed.

Lemma strip_idem s : strip (strip s) = strip s.
Proof. unfold strip. by rewrite lstrip_rstrip_lstrip, rstrip_idem. Qed.

Lemma contains_lstrip c s : contains c (lstrip s) = true → contains c s = true.
Proof.
  induction s as [|a r IH]; [done|]. cbn [lstrip contains].
  destruct (is_space_char a); [|done]. intros H. rewrite (IH H).
  apply orb_true_r.
Qed.

Lemma contains_rstrip c s : contains c (rstrip s) = true → contains c s = true.
Proof.
  induction s as [|a r IH]; [done|]. rewrite rstrip_cons.
  destruct (rstrip r) as [|d r'].
  - destruct (is_space_char a); [done|]. cbn [contains]. rewrite orb_false_r.
    intros ->. done.
  - cbn [contains] in *. destruct (Ascii.eqb a c); [done|]. apply IH.
Qed.

Lemma contains_strip c s : contains c s = false → contains c (strip s) = false.
Proof.
  intros H. destruct (contains c (strip s)) eqn:E; [|done].
  apply contains_rstrip, contains_lstrip in E. congruence.
Qed.

Lemma split_once_contains c s :
  contains c s = true →
  ∃ x y, split_once c s = [x; y] ∧ contains c x = false ∧
         s = x +:+ String c y.
Proof.
  induction s as [|a r IH]; [done|]. simpl.
  destruct (Ascii.eqb a c) eqn:E.
  - intros _. apply Ascii.eqb_eq in E as ->. by exists EmptyString, r.
  - simpl. intros H. destruct (IH H) as (x & y & -> & Hx & ->).
    exists (String a x), y. simpl. by rewrite E.
Qed.

Lemma has_space_app s t : has_space (s +:+ t) = has_space s || has_space t.
Proof.
  induction s as [|c r IH]; [done|].
  change (String c r +:+ t) with (String c (r +:+ t)). cbn [has_space].
  by rewrite IH, orb_assoc.
Qed.

Lemma split_go_tokens s :
  ∀ cur, has_space cur = false → Forall token (split_go cur s).
Proof.
  induction s as [|c r IH]; intros cur Hcur; cbn [split_go].
  - destruct cur; [constructor|]. by repeat constructor.
  - destruct (is_space_char c) eqn:E.
    + destruct cur; [by apply IH|]. constructor; [done|by apply IH].
    + apply IH. rewrite has_space_app. cbn [has_space]. by rewrite Hcur, E.
Qed.

Lemma split_tokens s : Forall token (split s).
Proof. by apply split_go_tokens. Qed.

Lemma lstrip_token s : has_space s = false → lstrip s = s.
Proof.
  destruct s as [|c r]; [done|]. cbn [has_space lstrip].
  by destruct (is_space_char c).
Qed.

Lemma rstrip_token s : has_space s = false → rstrip s = s.
Proof.
  induction s as [|c r IH]; [done|]. cbn [has_space].
  destruct (is_space_char c) eqn:E; [done|]. intros H.
  rewrite rstrip_cons, (IH H). destruct r; [by rewrite E|done].
Qed.

Lemma strip_token s : has_space s = false → strip s = s.
Proof. intros H. unfold strip. by rewrite lstrip_token, rstrip_token. Qed.

Lemma add_variants_tokens correct ts :
  Forall token ts →
  ∀ pairs, add_variants correct ts pairs = pairs ++ map (pair correct) ts.
Proof.
  unfold add_variants.
  induction 1 as [|t ts [Hne Hsp] _ IH]; intros pairs; simpl.
  - by rewrite app_nil_r.
  - rewrite strip_token by done. destruct t; [done|]. simpl.
    by rewrite IH, <- app_assoc.
Qed.

(** A line read by the loader: nothing for a line that is blank or has
    no colon, else one pair per token after the first colon. *)
Lemma load_line_eq pairs raw_line :
  load_line pairs raw_line =
  Some (pairs ++
        match split_once COLON (strip raw_line) with
        | [correct; typed_part] =>
            map (pair (strip correct)) (split (strip typed_part))
        | _ => []
        end).
Proof.
  unfold load_line. cbv zeta.
  destruct (contains COLON (strip raw_line)) eqn:Ec.
  - destruct (split_once_contains _ _ Ec) as (x & y & E & _ & Hs).
    rewrite E. destruct (nonempty (strip raw_line)) eqn:En; simpl.
    + by rewrite add_variants_tokens by apply split_tokens.
    + destruct (strip raw_line); [|done]. by destruct x.
  - rewrite orb_true_r.
    assert (∀ s, contains COLON s = false →
                 match split_once COLON s with
                 | [correct; typed_part] =>
                     map (pair (strip correct)) (split (strip typed_part))
                 | _ => []
                 end = []) as Hno.
    { clear. intros s. 
      assert (contains COLON s = false → ∃ x, split_once COLON s = [x]) as H.
      { induction s as [|a r IH]; [by eexists|]. simpl.
        destruct (Ascii.eqb a COLON); [done|]. simpl.
        intros Hr. destruct (IH Hr) as [x ->]. by eexists. }
      intros Hs. by destruct (H Hs) as [x ->]. }
    by rewrite Hno, app_nil_r.
Qed.

Lemma load_lines_app lines :
  ∀ pairs, ∃ more,
    load_lines lines [] = Some more ∧
    load_lines lines pairs = Some (pairs ++ more).
Proof.
  induction lines as [|raw rest IH]; intros pairs; simpl.
  - exists []. by rewrite app_nil_r.
  - rewrite !load_line_eq. simpl.
    set (here := match split_once COLON (strip raw) with
                 | [correct; typed_part] =>
                     map (pair (strip correct)) (split (strip typed_part))
                 | _ => []
                 end).
    destruct (IH here) as (more & E0 & E1).
    destruct (IH (pairs ++ here)) as (more' & E0' & E2).
    rewrite E0 in E0'. inversion E0'; subst more'.
    exists (here ++ more). by rewrite E1, E2, app_assoc.
Qed.

Lemma line_pairs_ok raw :
  Forall (fun p => token (snd p) ∧ strip (fst p) = fst p
                   ∧ contains COLON (fst p) = false)
    match split_once COLON (strip raw) with
    | [correct; typed_part] =>
        map (pair (strip correct)) (split (strip typed_part))
    | _ => []
    end.
Proof.
  destruct (contains COLON (strip raw)) eqn:Ec.
  - destruct (split_once_contains _ _ Ec) as (x & y & -> & Hx & _).
    apply Forall_map. eapply Forall_impl; [apply split_tokens|].
    intros t Ht. simpl. split; [done|]. split; [apply strip_idem|].
    by apply contains_strip.
  - destruct (split_once COLON (strip raw)) as [|x [|y [|z l]]] eqn:E;
      try constructor.
    exfalso. clear -Ec E. revert x y E Ec.
    induction (strip raw) as [|a r IH]; intros x y; [done|]. simpl.
    destruct (Ascii.eqb a COLON); [done|]. simpl.
    destruct (split_once COLON r) as [|x' [|y' [|z' l']]]; try done.
    intros _ Hr. by eapply IH.
Qed.

Lemma load_training_pairs_ok (lines : list string) :
  ∃ pairs,
    load_training_pairs lines = Some pairs ∧
    Forall (fun p => token (snd p) ∧ strip (fst p) = fst p
                     ∧ contains COLON (fst p) = false) pairs.
Proof.
  unfold load_training_pairs.
  induction lines as [|raw rest IH] using rev_ind.
  - exists []. split; [done|constructor].
  - destruct IH as (pairs & E & Hall).
    assert (∀ l acc, load_lines (l ++ [raw]) acc =
                     match load_lines l acc with
                     | Some p => load_line p raw
                     | None => None
                     end) as Hsnoc.
    { clear. induction l as [|a l IH]; intros acc; simpl.
      - by destruct (load_line acc raw).
      - destruct (load_line acc a); [apply IH|done]. }
    rewrite Hsnoc, E, load_line_eq. eexists. split; [done|].
    apply Forall_app. split; [done|apply line_pairs_ok].
Qed.

Lemma lstrip_app_nonspace s c t :
  is_space_char c = false →
  lstrip (s +:+ String c t) = lstrip s +:+ String c t.
Proof.
  intros Hc. induction s as [|a r IH].
  - change (EmptyString +:+ String c t) with (String c t).
    cbn [lstrip]. by rewrite Hc.
  - change (String a r +:+ String c t) with (String a (r +:+ String c t)).
    cbn [lstrip]. by destruct (is_space_char a).
Qed.

Lemma rstrip_app_nonspace s c t :
  is_space_char c = false →
  rstrip (s +:+ String c t) = s +:+ String c (rstrip t).
Proof.
  intros Hc. induction s as [|a r IH].
  - change (EmptyString +:+ String c t) with (String c t).
    rewrite rstrip_cons. destruct (rstrip t); [by rewrite Hc|done].
  - change (String a r +:+ String c t) with (String a (r +:+ String c t)).
    rewrite rstrip_cons, IH.
    by destruct r.
Qed.

Lemma split_once_app c x y :
  contains c x = false → split_once c (x +:+ String c y) = [x; y].
Proof.
  induction x as [|a r IH].
  - intros _. change (EmptyString +:+ String c y) with (String c y).
    cbn [split_once]. by rewrite Ascii.eqb_refl.
  - cbn [contains]. destruct (Ascii.eqb a c) eqn:E; [done|]. simpl orb.
    intros Hr.
    change (String a r +:+ String c y) with (String a (r +:+ String c y)).
    cbn [split_once]. by rewrite E, IH.
Qed.

Lemma split_go_lstrip s : split_go EmptyString (lstrip s) = split_go EmptyString s.
Proof.
  induction s as [|a r IH]; [done|]. cbn [lstrip split_go].
  destruct (is_space_char a) eqn:E; [done|]. cbn [split_go]. by rewrite E.
Qed.

Lemma split_go_rstrip s : ∀ cur, split_go cur (rstrip s) = split_go cur s.
Proof.
  induction s as [|a r IH]; intros cur; [done|].
  rewrite rstrip_cons. cbn [split_go].
  destruct (rstrip r) as [|d r'] eqn:E.
  - destruct (is_space_char a) eqn:Ea.
    + cbn [split_go]. rewrite <- (IH EmptyString). cbn [split_go].
      by destruct cur.
    + cbn [split_go]. rewrite Ea. rewrite <- IH. done.
  - cbn [split_go]. destruct (is_space_char a).
    + destruct cur; by rewrite <- IH.
    + by rewrite <- IH.
Qed.

Lemma split_strip s : split (strip s) = split s.
Proof. unfold split, strip. by rewrite split_go_rstrip, split_go_lstrip. Qed.

End LoaderFacts.

(** X12.  [load_training_pairs] never fails on the unpacking of
    [line.split(":", 1)], whatever the lines are, and every pair it
    returns is well formed: the typed word is not empty and holds no
    whitespace; the correct word holds no colon and no whitespace at
    either end (it may be empty, and may hold inner whitespace). *)
Theorem X12_load_training_pairs_returns (lines : list string) :
  ∃ pairs,
    load_training_pairs lines = Some pairs ∧
    Forall (fun p => token (snd p) ∧ PyStr.strip (fst p) = fst p
                     ∧ contains COLON (fst p) = false) pairs.
Proof. apply LoaderFacts.load_training_pairs_ok. Qed.

(** X14.  The lines are read independently: the pairs of a file are
    the pairs of its first lines followed by the pairs of the others,
    in the order of the file. *)
Theorem X14_load_line_by_line (lines1 lines2 : list string) :
  ∃ pairs1 pairs2,
    load_training_pairs lines1 = Some pairs1 ∧
    load_training_pairs lines2 = Some pairs2 ∧
    load_training_pairs (lines1 ++ lines2) = Some (pairs1 ++ pairs2).
Proof.
  unfold load_training_pairs.
  destruct (LoaderFacts.load_lines_app lines1 []) as (p1 & E1 & _).
  destruct (LoaderFacts.load_lines_app lines2 p1) as (p2 & E2 & E2').
  exists p1, p2. split; [done|]. split; [done|].
  clear E2. revert E1 E2'. generalize (@nil (string * string)).
  induction lines1 as [|a l IH]; intros acc; simpl.
  - by intros [= ->].
  - destruct (load_line acc a); [apply IH|done].
Qed.

(** X15.  What one line gives.  A line without a colon gives no pair.
    A line [correct:rest] whose part before the first colon is
    [correct] gives, for each whitespace-separated token of [rest] in
    order, the pair of the stripped [correct] and the token; a line
    with nothing but whitespace after the colon gives no pair. *)
Theorem X15_load_one_line (raw_line : string) :
  (contains COLON raw_line = false →
   load_training_pairs [raw_line] = Some []) ∧
  (∀ correct rest,
     raw_line = correct +:+ String COLON rest →
     contains COLON correct = false →
     load_training_pairs [raw_line] =
     Some (map (pair (PyStr.strip correct)) (PyStr.split rest))).
Proof.
  unfold load_training_pairs. cbn [load_lines]. split.
  - intros Hc. unfold load_line. cbv zeta.
    rewrite (LoaderFacts.contains_strip _ _ Hc).
    by rewrite orb_true_r.
  - intros correct rest -> Hc.
    rewrite LoaderFacts.load_line_eq. unfold PyStr.strip at 1.
    rewrite LoaderFacts.lstrip_app_nonspace, LoaderFacts.rstrip_app_nonspace by done.
    rewrite LoaderFacts.split_once_app.
    2:{ destruct (contains COLON (PyStr.lstrip correct)) eqn:E; [|done].
        apply LoaderFacts.contains_lstrip in E. congruence. }
    rewrite LoaderFacts.split_strip. unfold PyStr.strip at 1. rewrite LoaderFacts.lstrip_idem.
    fold (PyStr.strip correct). unfold PyStr.split at 1.
    by rewrite LoaderFacts.split_go_rstrip.
Qed.

Section LoadTrain.
Context {LA : LogArith}.
Local Abbreviation HMM := (SpellCheckerHMM LA).

Lemma train_pair_start_total (m : HMM) (p : string * string) :
  start_total (train_pair m p) =
  start_total m + (if Spec.kept p then 1 else 0).
Proof.
  destruct (train_pair_cases p) as [[-> H]|(f & r & l & -> & _ & _ & H)];
    rewrite H; [lia|].
  rewrite count_emissions_shape. simpl.
  by rewrite count_transitions_shape.
Qed.

Lemma train_loop_start_total (pairs : list (string * string)) :
  ∀ m : HMM,
    start_total (train_loop m pairs) =
    start_total m
    + Z.of_nat (length (filter (fun p => Spec.kept p = true) pairs)).
Proof.
  unfold train_loop.
  induction pairs as [|p pairs IH]; intros m; simpl; [lia|].
  rewrite IH, train_pair_start_total, filter_cons.
  destruct (decide (Spec.kept p = true)) as [->|Hn].
  - simpl length. lia.
  - destruct (Spec.kept p); [done|]. lia.
Qed.

Lemma kept_loaded (p : string * string) :
  token (snd p) → PyStr.strip (fst p) = fst p →
  Spec.kept p = PyStr.nonempty (fst p).
Proof.
  intros [Hne Hsp] Hc. unfold Spec.kept, Spec.letters, Spec.typed, Spec.normalise.
  rewrite Hc, (LoaderFacts.strip_token _ Hsp).
  destruct (snd p) as [|c r]; [done|]. destruct (fst p); done.
Qed.

(** X13.  Loading then training: [train] skips a loaded pair only when
    its correct word is empty, so the number of start counts it adds
    is the number of loaded pairs with a non-empty correct word. *)
Theorem X13_train_counts_loaded_pairs (lines : list string)
    (pairs : list (string * string)) (m : HMM) :
  load_training_pairs lines = Some pairs →
  start_total (train m pairs) =
  start_total m
  + Z.of_nat (length (filter (fun p => fst p ≠ EmptyString) pairs)).
Proof.
  intros Hload.
  destruct (LoaderFacts.load_training_pairs_ok lines)
    as (pairs' & E & Hall).
  rewrite Hload in E. inversion E; subst pairs'. clear E Hload.
  rewrite train_finish. unfold finish. cbv zeta.
  match goal with
  | |- context [_finalize_probabilities ?m1] =>
      destruct (finalize_fields m1) as (_ & _ & _ & -> & _)
  end.
  simpl. rewrite train_loop_start_total. do 2 f_equal.
  induction Hall as [|p ps (Ht & Hs & _) _ IH]; [done|].
  rewrite !filter_cons, (kept_loaded p Ht Hs).
  destruct (fst p) eqn:Ep.
  - rewrite decide_False by done. by rewrite decide_False by (by intros ?).
  - rewrite decide_True by done. rewrite decide_True by done.
    simpl length. by rewrite IH.
Qed.

End LoadTrain.

(** * Case, whitespace and retraining *)

Module CaseFacts.
Import PyStr.

Local Ltac by_cases c :=
  destruct c as [[] [] [] [] [] [] [] []]; reflexivity.

Lemma is_space_lower_char c : is_space_char (lower_char c) = is_space_char c.
Proof. by_cases c. Qed.

Lemma lstrip_lower s : lstrip (lower s) = lower (lstrip s).
Proof.
  induction s as [|c r IH]; [done|]. cbn [lower lstrip].
  rewrite is_space_lower_char. by destruct (is_space_char c).
Qed.

Lemma rstrip_lower s : rstrip (lower s) = lower (rstrip s).
Proof.
  induction s as [|c r IH]; [done|]. cbn [lower].
  rewrite !LoaderFacts.rstrip_cons, IH, is_space_lower_char.
  destruct (rstrip r); [|done]. by destruct (is_space_char c).
Qed.

Lemma strip_lower s : strip (lower s) = lower (strip s).
Proof. unfold strip. by rewrite lstrip_lower, rstrip_lower. Qed.

Lemma normalise_upper s :
  isascii s = true → lower (strip (upper s)) = lower (strip s).
Proof.
  intros Hs. by rewrite <- !strip_lower, PyStrFacts.lower_upper.
Qed.

Lemma normalise_idem s : lower (strip (lower (strip s))) = lower (strip s).
Proof.
  by rewrite strip_lower, LoaderFacts.strip_idem, PyStrFacts.lower_lower.
Qed.

Lemma lower_app s t : lower (s +:+ t) = lower s +:+ lower t.
Proof.
  induction s as [|c r IH]; [done|].
  change (String c r +:+ t) with (String c (r +:+ t)). cbn [lower].
  by rewrite IH.
Qed.

Lemma lower_join_fixed (p : list string) :
  Forall (fun s => lower s = s) p → lower (join "" p) = join "" p.
Proof.
  unfold join.
  induction 1 as [|s p Hs Hp IH]; [done|].
  destruct p as [|s' p]; [done|].
  change (String.concat "" (s :: s' :: p))
    with (s +:+ EmptyString +:+ String.concat "" (s' :: p)).
  by rewrite !lower_app, Hs, IH.
Qed.

Lemma isupper_lower s : isupper (lower s) = false.
Proof.
  unfold isupper.
  rewrite PyStrFacts.has_cased_lower, PyStrFacts.has_lower_lower.
  by destruct (has_cased s).
Qed.

End CaseFacts.

Section CaseTheorems.
Context {LA : LogArith}.
Local Abbreviation HMM := (SpellCheckerHMM LA).

Lemma train_pair_normalised (m : HMM) (p p' : string * string) :
  PyStr.lower (PyStr.strip (fst p')) = PyStr.lower (PyStr.strip (fst p)) →
  PyStr.lower (PyStr.strip (snd p')) = PyStr.lower (PyStr.strip (snd p)) →
  train_pair m p' = train_pair m p.
Proof.
  destruct p as [c t], p' as [c' t']. simpl. unfold train_pair.
  by intros -> ->.
Qed.

Lemma train_map (f : string * string → string * string)
    (pairs : list (string * string)) :
  Forall (fun p => ∀ m : HMM, train_pair m (f p) = train_pair m p) pairs →
  ∀ m : HMM, train m (map f pairs) = train m pairs.
Proof.
  intros Hf m. unfold train.
  assert (train_loop m (map f pairs) = train_loop m pairs) as ->; [|done].
  unfold train_loop. revert m.
  induction Hf as [|p pairs Hp _ IH]; intros m; simpl; [done|].
  by rewrite Hp, IH.
Qed.

(** X16.  [train] ignores the whitespace around the pairs and, for
    ASCII pairs, their case: training on the pairs already lowercased
    and stripped gives the same model, attribute by attribute, as
    training on the pairs themselves, and so does training on the
    uppercased pairs when the pairs are ASCII. *)
Theorem X16_train_ignores_case (m : HMM) (pairs : list (string * string)) :
  (Forall (fun p => PyStr.isascii (fst p) = true
                    ∧ PyStr.isascii (snd p) = true) pairs →
   train m (map (fun p => (PyStr.upper (fst p), PyStr.upper (snd p))) pairs)
   = train m pairs) ∧
  train m (map (fun p => (PyStr.lower (PyStr.strip (fst p)),
                          PyStr.lower (PyStr.strip (snd p)))) pairs)
  = train m pairs.
Proof.
  split.
  - intros Hascii. apply train_map.
    eapply Forall_impl; [exact Hascii|].
    intros p [H1 H2] m'. apply train_pair_normalised; simpl;
      by apply CaseFacts.normalise_upper.
  - apply train_map. apply Forall_forall. intros p _ m'.
    apply train_pair_normalised; simpl; apply CaseFacts.normalise_idem.
Qed.

Lemma reachable_lower_fixed (m : HMM) :
  reachable m →
  (∀ s, s ∈ state_set m → PyStr.lower s = s) ∧
  (∀ s, s ∈ states m → PyStr.lower s = s).
Proof.
  induction 1 as [|m pairs _ [IH _]|m w r m' _ IH Hd|m t r m' _ IH Hd].
  - split; [set_solver|]. intros s Hs. by apply not_elem_of_nil in Hs.
  - assert (∀ s, s ∈ state_set m ∨
                 (∃ p, p ∈ pairs ∧ Spec.kept p = true ∧ s ∈ Spec.letters p) →
                 PyStr.lower s = s) as Hall.
    { intros s [Hs|(p & _ & _ & Hl)]; [auto|]. by eapply chars_lower_fixed. }
    split.
    + intros s. rewrite train_finish.
      destruct (finish_alphabet (train_loop m pairs)) as [_ ->].
      rewrite elem_of_difference, train_loop_state_set, elem_of_union,
        alphabet_elem.
      intros [Hs _]. by apply Hall.
    + intros s Hs. apply train_states_elem in Hs as [_ Hs]. by apply Hall.
  - apply decode_word_frame in Hd.
    by rewrite (frame_state_set _ _ Hd), (frame_states _ _ Hd).
  - apply decode_text_frame in Hd.
    by rewrite (frame_state_set _ _ Hd), (frame_states _ _ Hd).
Qed.

(** X17.  [decode_word] ignores the case of an ASCII word but for the
    case it restores: on a reachable model whose states are ASCII the
    decoding of the lowercased word is the lowercased decoding of the
    word, and both calls leave the same model.  The float fact used is
    that [-inf + x] is greater than nothing. *)
Theorem X17_decode_word_ignores_case (m : HMM) (w : string) :
  (∀ x y : F, flt y (fadd ninf x) = false) →
  reachable m →
  ascii_states m →
  PyStr.isascii w = true →
  ∃ r m', decode_word w m = Some (r, m') ∧
          decode_word (PyStr.lower w) m = Some (PyStr.lower r, m').
Proof.
  intros Hlaw Hr Ha Hascii. rewrite !decode_word_eq.
  rewrite PyStrFacts.nonempty_lower, PyStrFacts.lower_lower.
  destruct (negb (PyStr.nonempty w) || _) eqn:Eg; [eauto|].
  assert (w ≠ EmptyString) as Hw by (by destruct w).
  assert (PyStr.lower w ≠ EmptyString) as Hne by (by destruct w).
  destruct (viterbi_search_total m (PyStr.lower w) Hlaw Hne)
    as (res & m1 & Hs).
  rewrite Hs. destruct res as [p|]; [|eauto].
  destruct (viterbi_search_partial m _ _ _ Hne Hs) as [_ Hp].
  destruct (Hp p eq_refl) as [_ Hall].
  pose proof (decoded_isascii m w p m1 Ha Hw Hs) as Hd.
  assert (PyStr.lower (PyStr.join "" p) = PyStr.join "" p) as Hfix.
  { apply CaseFacts.lower_join_fixed. eapply Forall_impl; [exact Hall|].
    intros s. apply (reachable_lower_fixed m Hr). }
  destruct w as [|c r]; [done|].
  change (PyStr.lower (String c r))
    with (String (PyStr.lower_char c) (PyStr.lower r)).
  rewrite !restore_case_eq.
  change (String (PyStr.lower_char c) (PyStr.lower r))
    with (PyStr.lower (String c r)).
  change (String (PyStr.lower_char c) EmptyString)
    with (PyStr.lower (String c EmptyString)).
  rewrite !CaseFacts.isupper_lower.
  eexists _, _. split; [done|]. do 2 f_equal.
  destruct (PyStr.isupper (String c r)).
  - by rewrite PyStrFacts.lower_upper.
  - destruct (PyStr.isupper _); [by rewrite PyStrFacts.lower_capitalize|done].
Qed.

End CaseTheorems.

Section Retrain.
Context {LA : LogArith}.
Local Abbreviation HMM := (SpellCheckerHMM LA).

Lemma rows_present_same_rows (totals : dict Z) (c c' : dict (dict Z)) :
  same_rows c c' →
  (∀ k, get_or totals k 0 = sum_values (get_or c k [])) →
  rows_present totals c'.
Proof.
  intros Hsame Hsum k Hk. rewrite Hsum, <- (Hsame k) in Hk.
  unfold get_or in Hk. destruct (get c' k); [eauto|done].
Qed.

Lemma frame_rows_ok (m m' : HMM) : frame m m' → counts_ok m → rows_ok m'.
Proof.
  intros Hf Hok. split.
  - rewrite (frame_transition_totals _ _ Hf).
    eapply rows_present_same_rows; [apply (frame_transition_counts _ _ Hf)|].
    apply (ok_transition_sum m Hok).
  - rewrite (frame_emission_totals _ _ Hf).
    eapply rows_present_same_rows; [apply (frame_emission_counts _ _ Hf)|].
    apply (ok_emission_sum m Hok).
Qed.

Lemma reachable_rows_ok (m : HMM) : reachable m → rows_ok m.
Proof.
  intros Hr. apply (frame_rows_ok m m); [apply frame_refl|].
  by apply reachable_counts_ok.
Qed.

Lemma train_app (m : HMM) (P1 P2 : list (string * string)) :
  rows_ok m → train (train m P1) P2 = train m (P1 ++ P2).
Proof.
  intros Hm. rewrite !train_finish.
  set (m0 := train_loop m P1).
  assert (rows_ok m0) as Hok by by apply train_loop_rows_ok.
  rewrite (finish_rows_ok m0 Hok), train_loop_with_derived.
  unfold train_loop at 2. rewrite fold_left_app.
  fold (train_loop m P1). fold m0.
  fold (train_loop m0 P2).
  rewrite <- (with_derived_self (train_loop m0 P2)) at 2.
  apply finish_with_derived.
  rewrite train_loop_state_set.
  apply set_eq. intros x.
  rewrite !elem_of_difference, !elem_of_union, elem_of_difference. tauto.
Qed.

(** X18.  From any reachable model, also one that has decoded words
    since it was trained, training on [P1] and then on [P2] gives the
    same model, attribute by attribute, as training once on
    [P1 ++ P2]. *)
Theorem X18_training_accumulates_anywhere (m : HMM)
    (P1 P2 : list (string * string)) :
  reachable m → train (train m P1) P2 = train m (P1 ++ P2).
Proof. intros Hr. by apply train_app, reachable_rows_ok. Qed.

Lemma finalize_table_snd_same_rows (sts : list string) (totals : dict Z) :
  ∀ (c c' : dict (dict Z)) (lp : dict (dict F)),
    same_rows c c' →
    snd (fold_left
           (fun '(counts, lp) prev_state =>
              let total := get_or totals prev_state 0 in
              if total =? 0 then (counts, lp)
              else
                let '(row, counts') := getitem_default [] counts prev_state in
                (counts', finalize_row prev_state total row lp))
           sts (c', lp))
    = snd (fold_left
           (fun '(counts, lp) prev_state =>
              let total := get_or totals prev_state 0 in
              if total =? 0 then (counts, lp)
              else
                let '(row, counts') := getitem_default [] counts prev_state in
                (counts', finalize_row prev_state total row lp))
           sts (c, lp)).
Proof.
  induction sts as [|prev sts IH]; intros c c' lp Hsame; simpl; [done|].
  destruct (get_or totals prev 0 =? 0); [by apply IH|].
  pose proof (getitem_default_row [] c prev) as Hr.
  pose proof (getitem_default_row [] c' prev) as Hr'.
  pose proof (getitem_default_get [] c prev) as Hg.
  pose proof (getitem_default_get [] c' prev) as Hg'.
  destruct (getitem_default [] c prev) as [row c1].
  destruct (getitem_default [] c' prev) as [row' c1'].
  simpl in *. subst row row'. pose proof (Hsame prev) as Hp.
  unfold dict in *. rewrite Hp. apply IH.
  intros k. by rewrite Hg', Hg.
Qed.

Lemma finalize_table_same_rows_snd (sts : list string) (totals : dict Z)
    (c c' : dict (dict Z)) :
  same_rows c c' →
  snd (finalize_table sts totals c') = snd (finalize_table sts totals c).
Proof. intros H. unfold finalize_table. by apply finalize_table_snd_same_rows. Qed.

Lemma finalize_frame (x x' : HMM) :
  states x' = states x →
  start_counts x' = start_counts x →
  start_total x' = start_total x →
  transition_totals x' = transition_totals x →
  emission_totals x' = emission_totals x →
  same_rows (transition_counts x) (transition_counts x') →
  same_rows (emission_counts x) (emission_counts x') →
  states (_finalize_probabilities x') = states (_finalize_probabilities x) ∧
  start_log_probs (_finalize_probabilities x')
  = start_log_probs (_finalize_probabilities x) ∧
  transition_log_probs (_finalize_probabilities x')
  = transition_log_probs (_finalize_probabilities x) ∧
  emission_log_probs (_finalize_probabilities x')
  = emission_log_probs (_finalize_probabilities x).
Proof.
  intros Hst Hsc Hs Htt Het Htc Hec.
  unfold _finalize_probabilities, finalize_start.
  rewrite Hst, Hsc, Hs, Htt, Het.
  pose proof (finalize_table_same_rows_snd (states x) (transition_totals x)
                _ _ Htc) as Ht.
  pose proof (finalize_table_same_rows_snd (states x) (emission_totals x)
                _ _ Hec) as He.
  destruct (states x) as [|s0 sts]; [done|].
  destruct (finalize_table _ _ (transition_counts x')) as [tc' tlp'].
  destruct (finalize_table _ _ (transition_counts x)) as [tc tlp].
  destruct (finalize_table _ _ (emission_counts x')) as [ec' elp'].
  destruct (finalize_table _ _ (emission_counts x)) as [ec elp].
  simpl in *. by subst.
Qed.

Lemma finish_frame (m m' : HMM) :
  frame m m' →
  states (finish m') = states (finish m) ∧
  start_log_probs (finish m') = start_log_probs (finish m) ∧
  transition_log_probs (finish m') = transition_log_probs (finish m) ∧
  emission_log_probs (finish m') = emission_log_probs (finish m).
Proof.
  intros Hf. unfold finish. cbv zeta. apply finalize_frame; simpl.
  - by rewrite (frame_state_set _ _ Hf).
  - apply (frame_start_counts _ _ Hf).
  - apply (frame_start_total _ _ Hf).
  - apply (frame_transition_totals _ _ Hf).
  - apply (frame_emission_totals _ _ Hf).
  - apply (frame_transition_counts _ _ Hf).
  - apply (frame_emission_counts _ _ Hf).
Qed.

Lemma settled_frame (m m' : HMM) :
  frame m m' → rows_ok m' → finish m = m → finish m' = m'.
Proof.
  intros Hf Hok Hm.
  destruct (finish_frame m m' Hf) as (H1 & H2 & H3 & H4).
  rewrite Hm in H1, H2, H3, H4.
  destruct (finish_alphabet m) as [_ Hs]. rewrite Hm in Hs.
  rewrite (finish_rows_ok m' Hok). unfold with_derived.
  rewrite H1, H2, H3, H4.
  rewrite <- (frame_states _ _ Hf), <- (frame_start_log_probs _ _ Hf),
    <- (frame_transition_log_probs _ _ Hf),
    <- (frame_emission_log_probs _ _ Hf).
  rewrite (frame_state_set _ _ Hf), <- Hs, <- (frame_state_set _ _ Hf).
  by destruct m'.
Qed.

Lemma train_nil (m : HMM) : train m [] = finish m.
Proof. done. Qed.

Lemma reachable_settled (m : HMM) : reachable m → finish m = m.
Proof.
  induction 1 as [|m pairs Hm _|m w r m' Hm IH Hd|m t r m' Hm IH Hd].
  - unfold finish, _finalize_probabilities, init, with_states, with_state_set.
    simpl.
    assert ((∅ : gset string) ∖ {[NEWLINE]} = ∅) as -> by set_solver.
    unfold sorted_set. rewrite elements_empty. done.
  - rewrite <- train_nil, train_app by by apply reachable_rows_ok.
    by rewrite app_nil_r.
  - apply decode_word_frame in Hd as Hf.
    apply (settled_frame m m' Hf); [|done].
    apply (frame_rows_ok m m' Hf). by apply reachable_counts_ok.
  - apply decode_text_frame in Hd as Hf.
    apply (settled_frame m m' Hf); [|done].
    apply (frame_rows_ok m m' Hf). by apply reachable_counts_ok.
Qed.

(** X19.  The derived attributes of a reachable model are never stale:
    [train] on no pairs, which recomputes the alphabet, the states and
    the three tables from the counts, gives back the model itself. *)
Theorem X19_retraining_on_nothing (m : HMM) :
  reachable m → train m [] = m.
Proof. intros Hr. rewrite train_nil. by apply reachable_settled. Qed.

End Retrain.

(** ** The ratio arithmetic satisfies the laws *)

Module RatioFacts.
Import Ratio.

Lemma ratio_laws : score_laws arith.
Proof.
  constructor; simpl.
  - intros [[a b]|] [[c d]|]; simpl; try done.
    rewrite Pos.ltb_lt, Pos.ltb_ge. lia.
  - intros [[a b]|] [[c d]|] [[e f]|]; simpl; try done.
    rewrite !Pos.ltb_ge. intros H1 H2.
    apply (Pos.mul_le_mono_r (c * d)). nia.
  - intros [[a b]|] [[c d]|] [[e f]|]; simpl; try done.
    rewrite !Pos.ltb_ge. nia.
  - by intros x [[c d]|].
  - by intros [[a b]|] [[c d]|].
Qed.

End RatioFacts.

(** ** The further properties at concrete inputs *)

Lemma X1_decode_read_only_witness :
  frame Scenario.short_typed
    (with_emission_counts Scenario.short_typed
       [("a", [("a", 1)]); ("b", [])]).
Proof.
  apply (proj1 (X1_decode_read_only (LA := Exact.arith)
                  Scenario.short_typed "a" "") "a").
  vm_compute. reflexivity.
Defined.

Lemma X2_decode_text_returns_witness :
  ∃ rs m', decode_text "teh  teh" Scenario.worked
           = Some (PyStr.join " " rs, m') ∧
           Forall2 (fun w r => ∃ m1 m2, frame Scenario.worked m1 ∧
                                        decode_word w m1 = Some (r, m2))
             (PyStr.split "teh  teh") rs.
Proof.
  exact (X2_decode_text_returns (LA := Exact.arith) Scenario.worked
           "teh  teh" ExactFacts.lt_add_ninf).
Defined.

Lemma X3_decode_text_untrained_witness :
  decode_text " a  b " (init : SpellCheckerHMM Exact.arith)
  = Some ("a b", init).
Proof.
  apply (X3_decode_text_untrained (LA := Exact.arith) init " a  b ").
  reflexivity.
Defined.

Lemma X5_distribution_stable_witness :
  filter (fun it => same_key (LA := Exact.arith) (Exact.log_of 2 3) it = true)
    (emission_log_distribution Scenario.worked "e") =
  filter (fun it => same_key (LA := Exact.arith) (Exact.log_of 2 3) it = true)
    (get_or (emission_log_probs Scenario.worked) "e" []).
Proof.
  apply (X5_distribution_stable (LA := Exact.arith) Scenario.worked "e").
  exact ExactFacts.lt_negtrans.
Defined.

Lemma X7_states_lowercase_chars_witness :
  String.length "e" = 1%nat ∧ PyStr.lower "e" = "e".
Proof.
  apply (X7_states_lowercase_chars (LA := Exact.arith) Scenario.worked_pairs).
  apply list_elem_of_In. vm_compute. left. reflexivity.
Defined.

Lemma X8_totals_are_row_sums_witness :
  start_total Scenario.worked = sum_values (start_counts Scenario.worked).
Proof.
  exact (proj1 (X8_totals_are_row_sums (LA := Exact.arith) Scenario.worked
                  (reach_train _ _ reach_init))).
Defined.

Lemma X9_lookups_are_normalised_counts_witness :
  log_emission_value Scenario.worked "e" "h"
  = normalised (count2 (emission_counts Scenario.worked) "e" "h")
      (get_or (emission_totals Scenario.worked) "e" 0).
Proof.
  apply (X9_lookups_are_normalised_counts (LA := Exact.arith) Scenario.worked).
  exact (reach_train _ _ reach_init).
Defined.

Lemma X10_decode_word_optimal_witness :
  returns (decode_word "Teh") Ratio.worked
    (fun r m' =>
       let obs := PyStr.chars (PyStr.lower "Teh") in
       (r = "Teh"%string ∧
        ∀ q v, candidate (states Ratio.worked) obs q →
               sequence_score Ratio.worked q obs = Some v → finite v = false) ∨
       (∃ p v,
          restore_case "Teh" (PyStr.join "" p) m' = Some (r, m') ∧
          candidate (states Ratio.worked) obs p ∧
          sequence_score Ratio.worked p obs = Some v ∧
          finite v = true ∧
          ∀ q v', candidate (states Ratio.worked) obs q →
                  sequence_score Ratio.worked q obs = Some v' →
                  flt v v' = false)).
Proof.
  apply (X10_decode_word_optimal (LA := Ratio.arith) RatioFacts.ratio_laws).
  - exact (reach_train _ _ reach_init).
  - done.
  - vm_compute. done.
Defined.

Lemma X11_unseen_character_unchanged_witness :
  returns (decode_word "tex") Ratio.worked (fun r _ => r = "tex"%string).
Proof.
  apply (X11_unseen_character_unchanged (LA := Ratio.arith) RatioFacts.ratio_laws
           Ratio.worked "tex" "x").
  - exact (reach_train _ _ reach_init).
  - vm_compute. set_solver.
  - intros s Hs. vm_compute in Hs.
    repeat (apply elem_of_cons in Hs as [->|Hs]; [by vm_compute|]).
    by apply not_elem_of_nil in Hs.
Defined.

Lemma X13_train_counts_loaded_pairs_witness :
  start_total
    (train (LA := Exact.arith) init
       [("the", "teh"); ("the", "hte"); ("", "x")]%string)
  = start_total (init (LA := Exact.arith))
    + Z.of_nat
        (length
           (filter (fun p : string * string => fst p ≠ EmptyString)
              [("the", "teh"); ("the", "hte"); ("", "x")]%string)).
Proof.
  exact (X13_train_counts_loaded_pairs (LA := Exact.arith)
           ["the: teh hte" +:+ NEWLINE; ": x"]%string
           [("the", "teh"); ("the", "hte"); ("", "x")]%string init eq_refl).
Defined.

Lemma X15_load_one_line_witness :
  load_training_pairs ["the : teh  hte"%string]
  = Some [("the", "teh"); ("the", "hte")]%string.
Proof.
  exact (proj2 (X15_load_one_line "the : teh  hte")
           "the "%string " teh  hte"%string eq_refl eq_refl).
Defined.

Lemma X17_decode_word_ignores_case_witness :
  ∃ r m', decode_word "TEH" Scenario.worked = Some (r, m') ∧
          decode_word (PyStr.lower "TEH") Scenario.worked
          = Some (PyStr.lower r, m').
Proof.
  refine (X17_decode_word_ignores_case (LA := Exact.arith) Scenario.worked
            "TEH" ExactFacts.lt_add_ninf (reach_train _ _ reach_init) _
            eq_refl).
  unfold ascii_states. vm_compute. repeat constructor.
Defined.

Lemma X16_train_ignores_case_witness :
  train (init : SpellCheckerHMM Exact.arith)
    (map (fun p => (PyStr.upper (fst p), PyStr.upper (snd p)))
       [("the", "teh")])
  = train init [("the", "teh")].
Proof.
  refine (proj1 (X16_train_ignores_case (LA := Exact.arith) init
                   [("the", "teh")]) _).
  repeat constructor.
Defined.

Lemma X18_training_accumulates_anywhere_witness :
  train (train Scenario.worked [("cat", "cat")]) [("dog", "dgo")]
  = train Scenario.worked ([("cat", "cat")] ++ [("dog", "dgo")]).
Proof.
  exact (X18_training_accumulates_anywhere (LA := Exact.arith) Scenario.worked
           [("cat", "cat")] [("dog", "dgo")]
           (reach_train _ _ reach_init)).
Defined.

Lemma X19_retraining_on_nothing_witness :
  train Scenario.worked [] = Scenario.worked.
Proof.
  exact (X19_retraining_on_nothing (LA := Exact.arith) Scenario.worked
           (reach_train _ _ reach_init)).
Defined.
